(** * Firmware boot loader of the system_test_hw_0 BSP

    A shallow embedding of [bsp_dut_boot] and [bsp_dut_update_haptic_config]
    from [system_test_hw_0_bsp.c], and the properties of the streaming
    loader that follow from the code.

    The BSP drives three collaborators whose code lives in other
    translation units: the container parser ([fw_img_read_header],
    [fw_img_process]), the CS40L25 driver ([cs40l25_boot],
    [cs40l25_write_block], [cs40l25_update_haptic_config]) and the
    allocator ([bsp_malloc], [bsp_free]).  They are parameters of the
    model; every call the loader makes is logged in a trace. *)

From stdpp Require Import base numbers list gmap.

#[local] Set Warnings "-clear-no-such-hyp".

Local Open Scope Z_scope.

(** ** C integers and pointers *)

(** The loader mixes [uint32_t], [size_t] and [ptrdiff_t]; the last two
    depend on the data model of the target. *)
Inductive data_model := ILP32 | LP64.

Definition size_t_bits (dm : data_model) : Z :=
  match dm with ILP32 => 32 | LP64 => 64 end.

Definition to_uint32 (z : Z) : Z := z mod 2 ^ 32.

Definition to_size_t (dm : data_model) (z : Z) : Z := z mod 2 ^ size_t_bits dm.

(** [count * sizeof(T)] as C evaluates it, in [size_t]. *)
Definition size_mul (dm : data_model) (count elem_size : Z) : Z :=
  to_size_t dm (count * elem_size).

(** [d < u] for a [ptrdiff_t] [d] and a [uint32_t] [u]: under ILP32 both
    operands are converted to the 32-bit unsigned type, under LP64 to the
    64-bit signed one. *)
Definition ptrdiff_lt_uint32 (dm : data_model) (d u : Z) : bool :=
  match dm with
  | ILP32 => to_uint32 d <? u
  | LP64 => d <? u
  end.

(** Pointers are flat addresses; [NULL] is address 0. *)
Definition NULL : Z := 0.

(** [bsp_driver_if.h] *)
Definition BSP_STATUS_OK : Z := 0.
Definition BSP_STATUS_FAIL : Z := 1.

(** ** Byte access macros ([bsp_driver_if.h])

    [GET_BYTE_FROM_WORD(A, B)] is [((A >> (B * 8)) & 0xFF)] and
    [ADD_BYTE_TO_WORD(A, B, C)] is
    [A &= (0xFFFFFF00 << (C * 8)); A |= ((B & 0xFF) << (C * 8));], here
    for [uint32_t] operands: [0xFFFFFF00] is an [unsigned int] constant, so
    both shifts are taken in 32 bits.  [ADD_BYTE_TO_WORD] yields the new
    value of [A]. *)
Definition GET_BYTE_FROM_WORD (A B : Z) : Z :=
  Z.land (Z.shiftr A (B * 8)) 255.

Definition ADD_BYTE_TO_WORD (A B C : Z) : Z :=
  let A1 := Z.land A (to_uint32 (Z.shiftl 4294967040 (C * 8))) in
  Z.lor A1 (to_uint32 (Z.shiftl (Z.land B 255) (C * 8))).

(** ** The boot state

    [fw_img_boot_state_t] and the structures nested in it are declared in
    [fw_img.h].  The fields the BSP names are spelled out; the remaining
    ones are kept as [info_rest] (inside [fw_info]) and [state_rest]
    (the parser's cursor). *)

Record fw_img_preheader_t := mk_preheader { img_format_rev : Z }.

Record fw_img_header_t := mk_header {
  sym_table_size : Z;
  alg_id_list_size : Z;
  max_block_size : Z
}.

Record fw_img_info_t (IR : Type) := mk_info {
  preheader : fw_img_preheader_t;
  header : fw_img_header_t;
  sym_table : Z;
  alg_id_list : Z;
  info_rest : IR
}.
Arguments mk_info {IR}.
Arguments preheader {IR}.
Arguments header {IR}.
Arguments sym_table {IR}.
Arguments alg_id_list {IR}.
Arguments info_rest {IR}.

Record fw_img_block_t := mk_block { block_size : Z; block_addr : Z }.

Record fw_img_boot_state_t (IR SR : Type) := mk_boot_state {
  fw_info : fw_img_info_t IR;
  fw_img_blocks : Z;
  fw_img_blocks_size : Z;
  block : fw_img_block_t;
  block_data : Z;
  block_data_size : Z;
  state_rest : SR
}.
Arguments mk_boot_state {IR SR}.
Arguments fw_info {IR SR}.
Arguments fw_img_blocks {IR SR}.
Arguments fw_img_blocks_size {IR SR}.
Arguments block {IR SR}.
Arguments block_data {IR SR}.
Arguments block_data_size {IR SR}.
Arguments state_rest {IR SR}.

Definition set_sym_table {IR SR} (bs : fw_img_boot_state_t IR SR) (p : Z) :=
  mk_boot_state
    (mk_info (preheader (fw_info bs)) (header (fw_info bs)) p
             (alg_id_list (fw_info bs)) (info_rest (fw_info bs)))
    (fw_img_blocks bs) (fw_img_blocks_size bs) (block bs) (block_data bs)
    (block_data_size bs) (state_rest bs).

Definition set_alg_id_list {IR SR} (bs : fw_img_boot_state_t IR SR) (p : Z) :=
  mk_boot_state
    (mk_info (preheader (fw_info bs)) (header (fw_info bs))
             (sym_table (fw_info bs)) p (info_rest (fw_info bs)))
    (fw_img_blocks bs) (fw_img_blocks_size bs) (block bs) (block_data bs)
    (block_data_size bs) (state_rest bs).

Definition set_block_data_size {IR SR} (bs : fw_img_boot_state_t IR SR) (n : Z) :=
  mk_boot_state (fw_info bs) (fw_img_blocks bs) (fw_img_blocks_size bs)
                (block bs) (block_data bs) n (state_rest bs).

Definition set_block_data {IR SR} (bs : fw_img_boot_state_t IR SR) (p : Z) :=
  mk_boot_state (fw_info bs) (fw_img_blocks bs) (fw_img_blocks_size bs)
                (block bs) p (block_data_size bs) (state_rest bs).

(** [boot_state.fw_img_blocks = fw_img; boot_state.fw_img_blocks_size = n;] *)
Definition set_chunk {IR SR} (bs : fw_img_boot_state_t IR SR) (fw_img n : Z) :=
  mk_boot_state (fw_info bs) fw_img n (block bs) (block_data bs)
                (block_data_size bs) (state_rest bs).

(** ** Haptic configurations ([cs40l25_ext.h]) *)

Record cs40l25_gpio_trigger_config_t := mk_trigger {
  enable : bool;
  button_press_index : Z;
  button_release_index : Z
}.

Record cs40l25_haptic_config_t := mk_haptic_config {
  cp_gain_control : Z;
  gpio_enable : bool;
  gpio_gain_control : Z;
  gpio_trigger_config : list cs40l25_gpio_trigger_config_t
}.

Definition cs40l25_haptic_configs : list cs40l25_haptic_config_t :=
  [ mk_haptic_config 0 false 0
      [ mk_trigger false 3 4; mk_trigger false 0 0;
        mk_trigger false 0 0; mk_trigger false 0 0 ];
    mk_haptic_config 0 true 0
      [ mk_trigger true 3 4; mk_trigger true 0 0;
        mk_trigger true 0 0; mk_trigger true 0 0 ] ].

(** ** Platform constants and collaborators *)

(** Constants of headers that are not part of this translation unit:
    the status codes of [fw_img.h] and [cs40l25.h], the size of a symbol
    table entry, and the two firmware images with the value of
    [FW_IMG_SIZE] on each. *)
Record Platform := mk_platform {
  dm : data_model;
  FW_IMG_STATUS_FAIL : Z;
  FW_IMG_STATUS_NODATA : Z;
  FW_IMG_STATUS_DATA_READY : Z;
  CS40L25_STATUS_OK : Z;
  CS40L25_STATUS_FAIL : Z;
  sizeof_fw_img_v1_sym_table_t : Z;
  cs40l25_fw_img : Z;
  cs40l25_fw_img_size : Z;
  cs40l25_cal_fw_img : Z;
  cs40l25_cal_fw_img_size : Z
}.

Definition sizeof_uint32_t : Z := 4.

(** The collaborators.  [Ext] is everything outside the BSP's own
    variables: the driver object, the device behind it and the contents
    of memory.  The parser receives [&boot_state] and may update any of
    its fields.  The driver is handed [&boot_state.fw_info] at the commit
    and reads it; neither the driver nor the allocator writes to the
    BSP's variables, and neither the parser nor the driver calls the
    allocator. *)
Record Collab := mk_collab {
  Ext : Type;
  Heap : Type;
  InfoRest : Type;
  StateRest : Type;
  info_rest_zero : InfoRest;
  state_rest_zero : StateRest;
  cs40l25_boot : Ext -> option (fw_img_info_t InfoRest) -> Ext * Z;
  cs40l25_write_block : Ext -> Z -> Z -> Z -> Ext * Z;
  fw_img_read_header :
    Ext -> fw_img_boot_state_t InfoRest StateRest ->
    Ext * fw_img_boot_state_t InfoRest StateRest * Z;
  fw_img_process :
    Ext -> fw_img_boot_state_t InfoRest StateRest ->
    Ext * fw_img_boot_state_t InfoRest StateRest * Z;
  cs40l25_update_haptic_config : Ext -> cs40l25_haptic_config_t -> Ext * Z;
  bsp_malloc : Heap -> Z -> Heap * Z;
  bsp_free : Heap -> Z -> Heap
}.

Definition boot_state_t (C : Collab) : Type :=
  fw_img_boot_state_t (InfoRest C) (StateRest C).

Definition fw_info_t (C : Collab) : Type := fw_img_info_t (InfoRest C).

(** ** The loader *)

Section Loader.

Variable P : Platform.
Variable C : Collab.

(** One entry per call that leaves the function.  [Ev_read_header] and
    [Ev_process] record the boot state handed to the parser and the one
    it left behind; [Ev_process] also records the locals [fw_img] and
    [write_size] at the time of the call. *)
Inductive event :=
| Ev_boot (fw : option (fw_info_t C)) (ret : Z)
| Ev_free (p : Z)
| Ev_memset
| Ev_read_header (bs_in bs_out : boot_state_t C) (ret : Z)
| Ev_malloc (size p : Z)
| Ev_process (fw_img write_size : Z) (bs_in bs_out : boot_state_t C) (ret : Z)
| Ev_write_block (addr data size ret : Z).

(** The variables of the translation unit that [bsp_dut_boot] touches,
    next to the external state and the allocator. *)
Record World := mk_world {
  ext : Ext C;
  heap : Heap C;
  boot_state : boot_state_t C;
  current_halo_heartbeat : Z
}.

Inductive outcome :=
| Returned (ret : Z) (w : World)
| OutOfFuel (w : World).

Definition final_world (o : outcome) : World :=
  match o with Returned _ w => w | OutOfFuel w => w end.

(** [memset(&boot_state, 0, sizeof(fw_img_boot_state_t))] *)
Definition boot_state_zero : boot_state_t C :=
  mk_boot_state
    (mk_info (mk_preheader 0) (mk_header 0 0 0) NULL NULL (info_rest_zero C))
    NULL 0 (mk_block 0 0) NULL 0 (state_rest_zero C).

Definition emit {A} (evs : list event) (r : A * list event) : A * list event :=
  (fst r, evs ++ snd r).

(** [if (p) bsp_free(p);] *)
Definition free_if_set (p : Z) (h : Heap C) : Heap C * list event :=
  if p =? NULL then (h, []) else (bsp_free C h p, [Ev_free p]).

Definition free_previous (bs : boot_state_t C) (h : Heap C)
  : Heap C * list event :=
  let '(h1, t1) := free_if_set (sym_table (fw_info bs)) h in
  let '(h2, t2) := free_if_set (alg_id_list (fw_info bs)) h1 in
  let '(h3, t3) := free_if_set (block_data bs) h2 in
  (h3, t1 ++ t2 ++ t3).

Definition select_image (cal_boot : bool) : Z * Z :=
  if negb cal_boot
  then (cs40l25_fw_img P, cs40l25_fw_img P + cs40l25_fw_img_size P)
  else (cs40l25_cal_fw_img P, cs40l25_cal_fw_img P + cs40l25_cal_fw_img_size P).

(** One pass through the body of [while (fw_img < fw_img_end)]. *)
Inductive step :=
| Continue (fw_img write_size : Z) (w : World)
| Break (ret : Z) (w : World).

Definition loop_body (fw_img fw_img_end write_size : Z) (w : World)
  : step * list event :=
  let '(x1, bs1, ret) := fw_img_process C (ext w) (boot_state w) in
  let ev := Ev_process fw_img write_size (boot_state w) bs1 ret in
  let w1 := mk_world x1 (heap w) bs1 (current_halo_heartbeat w) in
  if ret =? FW_IMG_STATUS_DATA_READY P then
    let '(x2, r) :=
      cs40l25_write_block C x1 (block_addr (block bs1)) (block_data bs1)
                          (block_size (block bs1)) in
    let w2 := mk_world x2 (heap w) bs1 (current_halo_heartbeat w) in
    let evs :=
      [ev; Ev_write_block (block_addr (block bs1)) (block_data bs1)
                          (block_size (block bs1)) r] in
    if r =? CS40L25_STATUS_FAIL P
    then (Break BSP_STATUS_FAIL w2, evs)
    else (Continue fw_img write_size w2, evs)
  else if ret =? FW_IMG_STATUS_FAIL P then (Break BSP_STATUS_FAIL w1, [ev])
  else
    let fw_img' := fw_img + write_size in
    if ret =? FW_IMG_STATUS_NODATA P then
      let write_size' :=
        if ptrdiff_lt_uint32 (dm P) (fw_img_end - fw_img') write_size
        then to_uint32 (fw_img_end - fw_img')
        else write_size in
      (Continue fw_img' write_size'
         (mk_world x1 (heap w) (set_chunk bs1 fw_img' write_size')
                   (current_halo_heartbeat w)),
       [ev])
    else (Continue fw_img' write_size w1, [ev]).

Inductive loop_result :=
| LoopExit (fw_img write_size : Z) (w : World)
| LoopReturn (ret : Z) (w : World)
| LoopFuel (w : World).

Fixpoint boot_loop (fuel : nat) (fw_img fw_img_end write_size : Z) (w : World)
  : loop_result * list event :=
  if fw_img <? fw_img_end then
    match fuel with
    | O => (LoopFuel w, [])
    | S n =>
        match loop_body fw_img fw_img_end write_size w with
        | (Continue fw_img' write_size' w', evs) =>
            emit evs (boot_loop n fw_img' fw_img_end write_size' w')
        | (Break ret w', evs) => (LoopReturn ret w', evs)
        end
    end
  else (LoopExit fw_img write_size w, []).

(** The loop followed by
    [ret = cs40l25_boot(&cs40l25_driver, &boot_state.fw_info);
     current_halo_heartbeat = 0; return ret;] *)
Definition boot_finish (r : loop_result * list event) : outcome * list event :=
  match fst r with
  | LoopReturn ret w => (Returned ret w, snd r)
  | LoopFuel w => (OutOfFuel w, snd r)
  | LoopExit _ _ w =>
      let '(x, ret) := cs40l25_boot C (ext w) (Some (fw_info (boot_state w))) in
      (Returned ret (mk_world x (heap w) (boot_state w) 0),
       snd r ++ [Ev_boot (Some (fw_info (boot_state w))) ret])
  end.

Definition boot_stream (fuel : nat) (fw_img fw_img_end write_size : Z) (w : World)
  : outcome * list event :=
  boot_finish (boot_loop fuel fw_img fw_img_end write_size w).

Definition sym_table_bytes (bs : boot_state_t C) : Z :=
  size_mul (dm P) (sym_table_size (header (fw_info bs)))
           (sizeof_fw_img_v1_sym_table_t P).

Definition alg_id_list_bytes (bs : boot_state_t C) : Z :=
  size_mul (dm P) (alg_id_list_size (header (fw_info bs))) sizeof_uint32_t.

Definition block_buffer_bytes (bs : boot_state_t C) : Z :=
  if img_format_rev (preheader (fw_info bs)) =? 1
  then 4140
  else max_block_size (header (fw_info bs)).

(** The three allocations, then the streaming loop with
    [write_size = 1024]. *)
Definition boot_allocate (fuel : nat) (fw_img fw_img_end : Z) (w : World)
  : outcome * list event :=
  let bs := boot_state w in
  let '(h1, p1) := bsp_malloc C (heap w) (sym_table_bytes bs) in
  let bs1 := set_sym_table bs p1 in
  emit [Ev_malloc (sym_table_bytes bs) p1]
  (if p1 =? NULL
   then (Returned BSP_STATUS_FAIL
           (mk_world (ext w) h1 bs1 (current_halo_heartbeat w)), [])
   else
     let '(h2, p2) := bsp_malloc C h1 (alg_id_list_bytes bs1) in
     let bs2 := set_alg_id_list bs1 p2 in
     emit [Ev_malloc (alg_id_list_bytes bs1) p2]
     (if p2 =? NULL
      then (Returned BSP_STATUS_FAIL
              (mk_world (ext w) h2 bs2 (current_halo_heartbeat w)), [])
      else
        let bs3 := set_block_data_size bs2 (block_buffer_bytes bs2) in
        let '(h3, p3) := bsp_malloc C h2 (block_data_size bs3) in
        let bs4 := set_block_data bs3 p3 in
        let w4 := mk_world (ext w) h3 bs4 (current_halo_heartbeat w) in
        emit [Ev_malloc (block_data_size bs3) p3]
        (if p3 =? NULL
         then (Returned BSP_STATUS_FAIL w4, [])
         else boot_stream fuel fw_img fw_img_end 1024 w4))).

(** [fw_img_read_header] on the first chunk, then the allocations. *)
Definition boot_header (fuel : nat) (fw_img fw_img_end : Z) (w : World)
  : outcome * list event :=
  let '(x1, bs1, ret) := fw_img_read_header C (ext w) (boot_state w) in
  let w1 := mk_world x1 (heap w) bs1 (current_halo_heartbeat w) in
  emit [Ev_read_header (boot_state w) bs1 ret]
  (if negb (ret =? 0)
   then (Returned BSP_STATUS_FAIL w1, [])
   else boot_allocate fuel fw_img fw_img_end w1).

Definition bsp_dut_boot (fuel : nat) (cal_boot : bool) (w : World)
  : outcome * list event :=
  let '(fw_img, fw_img_end) := select_image cal_boot in
  let '(x1, ret) := cs40l25_boot C (ext w) None in
  emit [Ev_boot None ret]
  (if negb (ret =? CS40L25_STATUS_OK P)
   then (Returned ret
           (mk_world x1 (heap w) (boot_state w) (current_halo_heartbeat w)), [])
   else
     let '(h1, frees) := free_previous (boot_state w) (heap w) in
     let write_size := 1024 in
     let bs0 := set_chunk boot_state_zero fw_img write_size in
     emit (frees ++ [Ev_memset])
          (boot_header fuel fw_img fw_img_end
             (mk_world x1 h1 bs0 (current_halo_heartbeat w)))).

(** Boot attempts one after the other, each on the state the previous one
    left behind. *)
Definition boot_attempts (attempts : list (nat * bool)) (w : World) : World :=
  foldl (fun w a => final_world (fst (bsp_dut_boot (fst a) (snd a) w)))
        w attempts.

(** ** [bsp_dut_update_haptic_config]

    [config_index] is a [uint8_t].  The array is read at [config_index]
    by the driver through the pointer the BSP hands over; an index that
    is not an element of the array is reported as [HapticOutOfBounds]. *)
Inductive haptic_outcome :=
| HapticReturned (ret : Z) (x : Ext C)
| HapticOutOfBounds (config_index : Z).

Definition bsp_dut_update_haptic_config (config_index : Z) (x : Ext C)
  : haptic_outcome :=
  if config_index >? Z.of_nat (length cs40l25_haptic_configs)
  then HapticReturned BSP_STATUS_FAIL x
  else
    match cs40l25_haptic_configs !! Z.to_nat config_index with
    | Some cfg =>
        let '(x', ret) := cs40l25_update_haptic_config C x cfg in
        HapticReturned
          (if ret =? CS40L25_STATUS_OK P then BSP_STATUS_OK else BSP_STATUS_FAIL)
          x'
    | None => HapticOutOfBounds config_index
    end.

End Loader.

Arguments HapticReturned {C}.
Arguments HapticOutOfBounds {C}.

Arguments Ev_boot {C}.
Arguments Ev_free {C}.
Arguments Ev_memset {C}.
Arguments Ev_read_header {C}.
Arguments Ev_malloc {C}.
Arguments Ev_process {C}.
Arguments Ev_write_block {C}.
Arguments mk_world {C}.
Arguments ext {C}.
Arguments heap {C}.
Arguments boot_state {C}.
Arguments current_halo_heartbeat {C}.
Arguments Returned {C}.
Arguments OutOfFuel {C}.
Arguments final_world {C}.
Arguments Continue {C}.
Arguments Break {C}.
Arguments LoopExit {C}.
Arguments LoopReturn {C}.
Arguments LoopFuel {C}.
Arguments emit {C A}.

(** ** The rest of the DUT interface

    [bsp_dut_initialize], [bsp_dut_reset] and [bsp_dut_has_processed] use
    driver entry points and types of [cs40l25.h] and one bus call of the
    BSP; as for the loader they are parameters, together with the
    constants the initialisers name.  The fields of the configuration
    structures the BSP does not name are kept as [..._rest]. *)

Record cs40l25_bsp_config_t (BR : Type) := mk_bsp_config {
  bsp_dev_id : Z;
  bsp_reset_gpio_id : Z;
  bsp_int_gpio_id : Z;
  bus_type : Z;
  cp_write_buffer : Z;
  cp_read_buffer : Z;
  notification_cb : Z;
  notification_cb_arg : Z;
  bsp_config_rest : BR
}.
Arguments mk_bsp_config {BR}.

Record cs40l25_event_control_t (ER : Type) := mk_event_control {
  hardware : Z;
  playback_end_suspend : Z;
  event_control_rest : ER
}.
Arguments mk_event_control {ER}.
Arguments hardware {ER}.
Arguments playback_end_suspend {ER}.

Record cs40l25_config_t (BR ER CR : Type) := mk_config {
  config_bsp_config : cs40l25_bsp_config_t BR;
  syscfg_regs : Z;
  syscfg_regs_total : Z;
  event_control : cs40l25_event_control_t ER;
  config_rest : CR
}.
Arguments mk_config {BR ER CR}.
Arguments config_bsp_config {BR ER CR}.
Arguments syscfg_regs {BR ER CR}.
Arguments syscfg_regs_total {BR ER CR}.
Arguments event_control {BR ER CR}.

Record Dut (C : Collab) := mk_dut {
  BspConfigRest : Type;
  EventRest : Type;
  ConfigRest : Type;
  bsp_config_rest_zero : BspConfigRest;
  event_rest_zero : EventRest;
  config_rest_zero : ConfigRest;
  BSP_DUT_DEV_ID : Z;
  BSP_GPIO_ID_DUT_RESET : Z;
  BSP_GPIO_ID_DUT_INT : Z;
  BSP_BUS_TYPE_I2C : Z;
  BSP_LN2_DEV_ID : Z;
  transmit_buffer : Z;
  receive_buffer : Z;
  bsp_notification_callback : Z;
  cs40l25_syscfg_regs : Z;
  CS40L25_SYSCFG_REGS_TOTAL : Z;
  CONFIG_TEST_OPEN_LOOP : bool;
  cs40l25_initialize : Ext C -> Ext C * Z;
  cs40l25_configure :
    Ext C -> cs40l25_config_t BspConfigRest EventRest ConfigRest -> Ext C * Z;
  bsp_i2c_write : Ext C -> Z -> list Z -> Z -> Z -> Z -> Ext C * Z;
  cs40l25_reset : Ext C -> Ext C * Z;
  cs40l25_get_halo_heartbeat : Ext C -> Ext C * Z * Z
}.

Section DutInterface.

Variable P : Platform.
Variable C : Collab.
Variable D : Dut C.

Definition config_t : Type :=
  cs40l25_config_t (BspConfigRest C D) (EventRest C D) (ConfigRest C D).

(** The calls of these three functions. *)
Inductive dut_event :=
| Dv_initialize (ret : Z)
| Dv_configure (config : config_t) (ret : Z)
| Dv_i2c_write (dev_id : Z) (bytes : list Z) (length cb cb_arg ret : Z)
| Dv_reset (ret : Z)
| Dv_get_halo_heartbeat (ret hb : Z).

(** [static cs40l25_bsp_config_t bsp_config = { ... };] *)
Definition bsp_config : cs40l25_bsp_config_t (BspConfigRest C D) :=
  mk_bsp_config (BSP_DUT_DEV_ID C D) (BSP_GPIO_ID_DUT_RESET C D)
                (BSP_GPIO_ID_DUT_INT C D) (BSP_BUS_TYPE_I2C C D)
                (transmit_buffer C D) (receive_buffer C D)
                (bsp_notification_callback C D) NULL
                (bsp_config_rest_zero C D).

(** [haptic_config] as [bsp_dut_initialize] fills it after the [memset]. *)
Definition haptic_config : config_t :=
  mk_config bsp_config (cs40l25_syscfg_regs C D)
            (CS40L25_SYSCFG_REGS_TOTAL C D)
            (mk_event_control 1 1 (event_rest_zero C D))
            (config_rest_zero C D).

Definition with_ext (w : World C) (x : Ext C) : World C :=
  mk_world x (heap w) (boot_state w) (current_halo_heartbeat w).

Definition bsp_dut_initialize (w : World C) : Z * World C * list dut_event :=
  let '(x1, haptic_status) := cs40l25_initialize C D (ext w) in
  let '(x2, haptic_status', evs) :=
    if haptic_status =? CS40L25_STATUS_OK P
    then let '(x2, st) := cs40l25_configure C D x1 haptic_config in
         (x2, st, [Dv_initialize haptic_status; Dv_configure haptic_config st])
    else (x1, haptic_status, [Dv_initialize haptic_status]) in
  let ret :=
    if negb (haptic_status' =? CS40L25_STATUS_OK P)
    then BSP_STATUS_FAIL else BSP_STATUS_OK in
  if CONFIG_TEST_OPEN_LOOP C D
  then (ret, with_ext w x2, evs)
  else
    let '(x3, st) :=
      bsp_i2c_write C D x2 (BSP_LN2_DEV_ID C D) [0; 31; 128; 3] 4 NULL NULL in
    (ret, with_ext w x3,
     evs ++ [Dv_i2c_write (BSP_LN2_DEV_ID C D) [0; 31; 128; 3] 4 NULL NULL st]).

Definition bsp_dut_reset (w : World C) : Z * World C * list dut_event :=
  let '(x1, ret) := cs40l25_reset C D (ext w) in
  if negb (ret =? CS40L25_STATUS_OK P)
  then (BSP_STATUS_FAIL, with_ext w x1, [Dv_reset ret])
  else (BSP_STATUS_OK, mk_world x1 (heap w) (boot_state w) 0, [Dv_reset ret]).

(** [has_processed] is the pointer argument: [None] for NULL, otherwise
    what it points to; the second component of the result is the same
    object after the call. *)
Definition bsp_dut_has_processed (has_processed : option bool) (w : World C)
  : Z * option bool * World C * list dut_event :=
  match has_processed with
  | None => (BSP_STATUS_FAIL, None, w, [])
  | Some b =>
      let '(x1, ret, temp_hb) := cs40l25_get_halo_heartbeat C D (ext w) in
      if negb (ret =? CS40L25_STATUS_OK P)
      then (BSP_STATUS_FAIL, Some b, with_ext w x1,
            [Dv_get_halo_heartbeat ret temp_hb])
      else
        (BSP_STATUS_OK,
         Some (if (temp_hb =? current_halo_heartbeat w) || (temp_hb =? 0)
               then false else true),
         mk_world x1 (heap w) (boot_state w) temp_hb,
         [Dv_get_halo_heartbeat ret temp_hb])
  end.

End DutInterface.

Arguments Dv_initialize {C D}.
Arguments Dv_configure {C D}.
Arguments Dv_i2c_write {C D}.
Arguments Dv_reset {C D}.
Arguments Dv_get_halo_heartbeat {C D}.

(** ** Observations on traces *)

Section Observations.

Context {C : Collab}.
Variable P : Platform.

Definition is_commit (e : event C) : bool :=
  match e with Ev_boot (Some _) _ => true | _ => false end.

Definition is_free (e : event C) : bool :=
  match e with Ev_free _ => true | _ => false end.

Definition is_malloc (e : event C) : bool :=
  match e with Ev_malloc _ _ => true | _ => false end.

Definition is_write (e : event C) : bool :=
  match e with Ev_write_block _ _ _ _ => true | _ => false end.

(** The header decode returned success. *)
Definition header_ok (e : event C) : bool :=
  match e with Ev_read_header _ _ ret => ret =? 0 | _ => false end.

(** An allocation that returned a buffer. *)
Definition alloc_ok (e : event C) : bool :=
  match e with Ev_malloc _ p => negb (p =? NULL) | _ => false end.

Fixpoint count_events (f : event C -> bool) (tr : list (event C)) : nat :=
  match tr with
  | [] => O
  | e :: tr' => ((if f e then 1 else 0) + count_events f tr')%nat
  end.

(** The four kinds of error of the loader: a failed header decode, an
    allocation that returned NULL, a rejected block write and a parser
    failure. *)
Definition is_error (e : event C) : Prop :=
  match e with
  | Ev_read_header _ _ ret => ret <> 0
  | Ev_malloc _ p => p = NULL
  | Ev_write_block _ _ _ ret => ret = CS40L25_STATUS_FAIL P
  | Ev_process _ _ _ _ ret => ret = FW_IMG_STATUS_FAIL P
  | _ => False
  end.

(** The [(size, pointer)] pairs of the allocations, in order. *)
Fixpoint mallocs (tr : list (event C)) : list (Z * Z) :=
  match tr with
  | [] => []
  | Ev_malloc n p :: tr' => (n, p) :: mallocs tr'
  | _ :: tr' => mallocs tr'
  end.

(** The boot states the header decode was called on and left behind. *)
Fixpoint header_reads (tr : list (event C))
  : list (boot_state_t C * boot_state_t C * Z) :=
  match tr with
  | [] => []
  | Ev_read_header bs_in bs_out ret :: tr' =>
      (bs_in, bs_out, ret) :: header_reads tr'
  | _ :: tr' => header_reads tr'
  end.

(** The pointers released, in order. *)
Fixpoint frees (tr : list (event C)) : list Z :=
  match tr with
  | [] => []
  | Ev_free p :: tr' => p :: frees tr'
  | _ :: tr' => frees tr'
  end.

(** The events of the streaming loop. *)
Definition loop_event (e : event C) : Prop :=
  match e with
  | Ev_process _ _ _ _ _ | Ev_write_block _ _ _ _ => True
  | _ => False
  end.

Definition clean (tr : list (event C)) : Prop :=
  Forall (fun e => ~ is_error e) tr.

(** The trace ends in an error and has none before it. *)
Definition fails_last (tr : list (event C)) : Prop :=
  exists tr0 e, tr = tr0 ++ [e] /\ clean tr0 /\ is_error e.

(** A run either logs no error at all, or stops right after its first
    error with [BSP_STATUS_FAIL] and without a commit. *)
Definition verdict (out : outcome C) (tr : list (event C)) : Prop :=
  clean tr \/
  (fails_last tr /\ (exists w', out = Returned BSP_STATUS_FAIL w') /\
   count_events is_commit tr = O).

(** The calls made before the streaming loop. *)
Definition setup_event (e : event C) : Prop :=
  match e with
  | Ev_process _ _ _ _ _ | Ev_write_block _ _ _ _ | Ev_boot (Some _) _ => False
  | _ => True
  end.

Definition is_header_read (e : event C) : bool :=
  match e with Ev_read_header _ _ _ => true | _ => false end.


(** The status a run returned, if it returned. *)
Definition status_of (out : outcome C) : option Z :=
  match out with Returned ret _ => Some ret | OutOfFuel _ => None end.

(** [(fw_img, write_size, status)] of each call of [fw_img_process]. *)
Fixpoint process_calls (tr : list (event C)) : list (Z * Z * Z) :=
  match tr with
  | [] => []
  | Ev_process fw_img write_size _ _ ret :: tr' =>
      (fw_img, write_size, ret) :: process_calls tr'
  | _ :: tr' => process_calls tr'
  end.

(** The boot state a parser call was entered with and the one it left. *)
Definition state_in (e : event C) : option (boot_state_t C) :=
  match e with
  | Ev_read_header bs _ _ | Ev_process _ _ bs _ _ => Some bs
  | _ => None
  end.

Definition state_out (e : event C) : option (boot_state_t C) :=
  match e with
  | Ev_read_header _ bs _ | Ev_process _ _ _ bs _ => Some bs
  | _ => None
  end.

(** *** Ownership of the buffers *)

Definition buffers (bs : boot_state_t C) : Z * Z * Z :=
  (sym_table (fw_info bs), alg_id_list (fw_info bs), block_data bs).

Definition keep (p : Z) : list Z := if p =? NULL then [] else [p].

(** The buffers a boot state still points to, in the order in which the
    next attempt releases them. *)
Definition retained (bs : boot_state_t C) : list Z :=
  keep (sym_table (fw_info bs)) ++ keep (alg_id_list (fw_info bs))
  ++ keep (block_data bs).

(** What the loader relies on from [bsp_malloc] and [bsp_free], in terms
    of the set of live blocks of a heap. *)
Record allocator_laws (live : Heap C -> gset Z) : Prop := {
  malloc_null : forall h n h',
    bsp_malloc C h n = (h', NULL) -> live h' = live h;
  malloc_fresh : forall h n h' p,
    bsp_malloc C h n = (h', p) -> p <> NULL ->
    (p ∉ live h) /\ live h' = {[p]} ∪ live h;
  free_live : forall h p,
    p ∈ live h -> live (bsp_free C h p) = live h ∖ {[p]}
}.

(** The parser fills the buffers but never moves the pointers to them. *)
Definition parser_keeps_buffers : Prop :=
  (forall x bs x' bs' ret,
     fw_img_read_header C x bs = (x', bs', ret) -> buffers bs' = buffers bs) /\
  (forall x bs x' bs' ret,
     fw_img_process C x bs = (x', bs', ret) -> buffers bs' = buffers bs).

(** The live blocks are the buffers the boot state points to, each once,
    and the blocks [others] of the rest of the program. *)
Definition tracked (live : Heap C -> gset Z) (others : gset Z) (w : World C)
  : Prop :=
  live (heap w) = list_to_set (retained (boot_state w)) ∪ others /\
  NoDup (retained (boot_state w)) /\
  (forall p, p ∈ retained (boot_state w) -> p ∉ others).

(** Replaying a trace with two flags: whether a header decode has
    succeeded so far and how many buffers have been obtained.  Every
    allocation must find the first set and every block write must find
    three buffers. *)
Fixpoint ordered (hdr : bool) (bufs : nat) (tr : list (event C)) : Prop :=
  match tr with
  | [] => True
  | e :: tr' =>
      (is_malloc e = true -> hdr = true) /\
      (is_write e = true -> bufs = 3%nat) /\
      ordered (hdr || header_ok e) (bufs + (if alloc_ok e then 1 else 0)) tr'
  end.

(** The run returned the status of a single commit, its last call, made
    on the firmware descriptor of the boot state it leaves behind. *)
Definition committed (out : outcome C) (tr : list (event C)) : Prop :=
  exists ret w',
    out = Returned ret w' /\
    count_events is_commit tr = 1%nat /\
    last tr = Some (Ev_boot (Some (fw_info (boot_state w'))) ret).

(** How a run that got past [cs40l25_boot(NULL)] can end. *)
Definition ending (out : outcome C) (tr : list (event C)) : Prop :=
  Exists is_error tr \/ (exists w', out = OutOfFuel w') \/ committed out tr.

End Observations.

(** ** Further observations on traces *)

Section ChunkObservations.

Context {C : Collab}.
Variable P : Platform.

(** [(address, buffer, length)] of each block handed to the device. *)
Fixpoint writes (tr : list (event C)) : list (Z * Z * Z) :=
  match tr with
  | [] => []
  | Ev_write_block addr data size _ :: tr' => (addr, data, size) :: writes tr'
  | _ :: tr' => writes tr'
  end.

(** The blocks the parser reported ready, as it left them in the boot
    state. *)
Fixpoint ready_blocks (tr : list (event C)) : list (Z * Z * Z) :=
  match tr with
  | [] => []
  | Ev_process _ _ _ bo ret :: tr' =>
      if ret =? FW_IMG_STATUS_DATA_READY P
      then (block_addr (block bo), block_data bo, block_size (block bo))
           :: ready_blocks tr'
      else ready_blocks tr'
  | _ :: tr' => ready_blocks tr'
  end.

Definition is_process (e : event C) : bool :=
  match e with Ev_process _ _ _ _ _ => true | _ => false end.

(** A parser call that reported a block. *)
Definition is_ready (e : event C) : bool :=
  match e with
  | Ev_process _ _ _ _ ret => ret =? FW_IMG_STATUS_DATA_READY P
  | _ => false
  end.

(** A parser call that reported anything else. *)
Definition is_not_ready (e : event C) : bool :=
  match e with
  | Ev_process _ _ _ _ ret => negb (ret =? FW_IMG_STATUS_DATA_READY P)
  | _ => false
  end.

(** The loop variables [fw_img] and [write_size] of [bsp_dut_boot] at a
    parser call: [fw_img] is inside the image, a whole number of standard
    chunks from its start, and [write_size] is a standard chunk or what
    is left of the image. *)
Definition chunk_aligned (fw_img0 fw_img_end : Z) (e : event C) : Prop :=
  match e with
  | Ev_process fw_img write_size _ _ _ =>
      fw_img0 <= fw_img < fw_img_end /\
      (fw_img - fw_img0) mod 1024 = 0 /\
      (write_size = 1024 \/ write_size = fw_img_end - fw_img)
  | _ => True
  end.

(** The loop variables [fw_img] and [write_size] at a parser call
    describe a chunk that ends inside the image. *)
Definition chunk_inside (fw_img_end : Z) (e : event C) : Prop :=
  match e with
  | Ev_process fw_img write_size _ _ _ =>
      0 < write_size /\ fw_img + write_size <= fw_img_end
  | _ => True
  end.

(** The parser answered with one of the three statuses the loader tests
    for. *)
Definition known_status (e : event C) : Prop :=
  match e with
  | Ev_process _ _ _ _ ret =>
      ret = FW_IMG_STATUS_DATA_READY P \/ ret = FW_IMG_STATUS_FAIL P \/
      ret = FW_IMG_STATUS_NODATA P
  | _ => True
  end.

(** The buffer a block write reads from. *)
Definition write_source (e : event C) : option Z :=
  match e with Ev_write_block _ data _ _ => Some data | _ => None end.

(** The heartbeat after a run that was entered with heartbeat [hb]: reset
    by the commit, untouched without. *)
Definition heartbeat_rule (hb : Z) (out : outcome C) (tr : list (event C))
  : Prop :=
  (count_events is_commit tr = O /\
   current_halo_heartbeat (final_world out) = hb) \/
  (count_events is_commit tr = 1%nat /\
   current_halo_heartbeat (final_world out) = 0).

(** What the loader keeps true of [fw_img] and [write_size] between two
    passes of the loop over the image from [fw_img0] to [fw_img_end]. *)
Definition chunk_inv (fw_img0 fw_img_end fw_img write_size : Z) : Prop :=
  fw_img0 <= fw_img /\
  (fw_img < fw_img_end ->
   (fw_img - fw_img0) mod 1024 = 0 /\
   (write_size = 1024 \/ write_size = fw_img_end - fw_img)).

(** The bytes of chunk space still ahead, rounded up to whole chunks. *)
Definition chunk_budget (fw_img_end fw_img : Z) : Z :=
  if fw_img <? fw_img_end then fw_img_end - fw_img + 1023 else 0.

(** With a parser that only answers with the three statuses the loader
    tests for, the chunk never reaches past the image. *)
Definition inside_inv (fw_img0 fw_img_end fw_img write_size : Z) : Prop :=
  fw_img0 <= fw_img /\
  (fw_img < fw_img_end -> 0 < write_size /\ fw_img + write_size <= fw_img_end).

End ChunkObservations.

(** ** A scripted set of collaborators

    A test double in the style of the unit tests of such loaders: the
    statuses the driver and the parser return are read from the external
    state, so one value of [ext] is one scenario.  The allocator hands out
    addresses above every live block and refuses requests of zero bytes or
    of more than 64 KiB. *)

Module Demo.

Record ext := mk_ext {
  boot_null_ret : Z;
  commit_ret : Z;
  header_ret : Z;
  header_rev : Z;
  header_val : fw_img_header_t;
  script : list (Z * Z * Z);
  write_rets : list Z
}.

Definition boot (x : ext) (fw : option (fw_img_info_t unit)) : ext * Z :=
  match fw with
  | None => (x, boot_null_ret x)
  | Some _ => (x, commit_ret x)
  end.

Definition write_block (x : ext) (addr data size : Z) : ext * Z :=
  match write_rets x with
  | [] => (x, 0)
  | r :: rs =>
      (mk_ext (boot_null_ret x) (commit_ret x) (header_ret x) (header_rev x)
              (header_val x) (script x) rs, r)
  end.

Definition read_header (x : ext) (bs : fw_img_boot_state_t unit unit)
  : ext * fw_img_boot_state_t unit unit * Z :=
  (x,
   mk_boot_state
     (mk_info (mk_preheader (header_rev x)) (header_val x)
              (sym_table (fw_info bs)) (alg_id_list (fw_info bs)) tt)
     (fw_img_blocks bs) (fw_img_blocks_size bs) (block bs) (block_data bs)
     (block_data_size bs) tt,
   header_ret x).

(** Each call consumes one [(status, block_addr, block_size)] entry of the
    script; an exhausted script reports status 1. *)
Definition process (x : ext) (bs : fw_img_boot_state_t unit unit)
  : ext * fw_img_boot_state_t unit unit * Z :=
  match script x with
  | [] => (x, bs, 1)
  | (st, addr, size) :: rest =>
      (mk_ext (boot_null_ret x) (commit_ret x) (header_ret x) (header_rev x)
              (header_val x) rest (write_rets x),
       mk_boot_state (fw_info bs) (fw_img_blocks bs) (fw_img_blocks_size bs)
                     (mk_block size addr) (block_data bs) (block_data_size bs) tt,
       st)
  end.

Definition update_haptic_config (x : ext) (cfg : cs40l25_haptic_config_t)
  : ext * Z := (x, 0).

Definition top (h : list Z) : Z := foldr Z.max 536870912 h.

Definition malloc (h : list Z) (n : Z) : list Z * Z :=
  if (n <=? 0) || (65536 <? n) then (h, NULL)
  else (top h + 1 :: h, top h + 1).

Fixpoint release (h : list Z) (p : Z) : list Z :=
  match h with
  | [] => []
  | q :: h' => if q =? p then release h' p else q :: release h' p
  end.

Definition collab : Collab :=
  mk_collab ext (list Z) unit unit tt tt boot write_block read_header process
            update_haptic_config malloc release.

(** Status codes 0/1 for the driver and 1/2/3 for the parser, 8-byte
    symbol entries, and two images of [size] bytes. *)
Definition platform (d : data_model) (size : Z) : Platform :=
  mk_platform d 1 2 3 0 1 8 134283264 size 134348800 size.

Definition live (h : list Z) : gset Z := list_to_set h.

(** A previous attempt that left nothing behind. *)
Definition fresh_world (x : ext) : World collab :=
  mk_world (C:=collab) x [] (boot_state_zero collab) 7.

(** The two-block image of the end-to-end scenario: revision 2, two
    symbols, one algorithm id, blocks of at most 16 bytes. *)
Definition two_blocks : ext :=
  mk_ext 0 0 0 2 (mk_header 2 1 16)
         [(3, 4096, 8); (2, 0, 0); (3, 4104, 4); (2, 0, 0)] [].

(** The same image cut short: the first block is decoded, the parser
    then asks for more input, and the image has no more. *)
Definition truncated : ext :=
  mk_ext 0 0 0 2 (mk_header 2 1 16) [(3, 4096, 8); (2, 0, 0)] [].


(** A parser that asks for more input on the first chunk. *)
Definition wants_more : ext :=
  mk_ext 0 0 0 2 (mk_header 2 1 16) [(2, 0, 0)] [].

(** The same image when the parser rejects the first block. *)
Definition parser_fails : ext :=
  mk_ext 0 0 0 2 (mk_header 2 1 16) [(1, 0, 0)] [].

(** The driver refuses to drop its current firmware. *)
Definition driver_busy : ext :=
  mk_ext 1 0 0 2 (mk_header 2 1 16) [] [].

(** The boot states of the [n]-th call of a trace, when it is a parser
    call. *)
Definition nth_in (tr : list (event collab)) (n : nat) : boot_state_t collab :=
  default (boot_state_zero collab) (tr !! n ≫= state_in).

Definition nth_out (tr : list (event collab)) (n : nat) : boot_state_t collab :=
  default (boot_state_zero collab) (tr !! n ≫= state_out).

End Demo.

(** ** Scripted collaborators for the rest of the interface

    The loader's test double, extended with the statuses of the driver
    initialisation, the bus write and the reset, and with the successive
    answers [(status, heartbeat)] of [cs40l25_get_halo_heartbeat]. *)

Module DemoDut.

Record ext := mk_ext {
  base : Demo.ext;
  init_ret : Z;
  configure_ret : Z;
  i2c_ret : Z;
  reset_ret : Z;
  heartbeats : list (Z * Z)
}.

Definition with_base (x : ext) (b : Demo.ext) : ext :=
  mk_ext b (init_ret x) (configure_ret x) (i2c_ret x) (reset_ret x)
         (heartbeats x).

Definition boot (x : ext) (fw : option (fw_img_info_t unit)) : ext * Z :=
  (with_base x (fst (Demo.boot (base x) fw)), snd (Demo.boot (base x) fw)).

Definition write_block (x : ext) (addr data size : Z) : ext * Z :=
  (with_base x (fst (Demo.write_block (base x) addr data size)),
   snd (Demo.write_block (base x) addr data size)).

Definition read_header (x : ext) (bs : fw_img_boot_state_t unit unit)
  : ext * fw_img_boot_state_t unit unit * Z :=
  let '(b, bs', ret) := Demo.read_header (base x) bs in (with_base x b, bs', ret).

Definition process (x : ext) (bs : fw_img_boot_state_t unit unit)
  : ext * fw_img_boot_state_t unit unit * Z :=
  let '(b, bs', ret) := Demo.process (base x) bs in (with_base x b, bs', ret).

Definition update_haptic_config (x : ext) (cfg : cs40l25_haptic_config_t)
  : ext * Z := (x, 0).

Definition collab : Collab :=
  mk_collab ext (list Z) unit unit tt tt boot write_block read_header process
            update_haptic_config Demo.malloc Demo.release.

Definition get_halo_heartbeat (x : ext) : ext * Z * Z :=
  match heartbeats x with
  | [] => (x, 1, 0)
  | (st, hb) :: rest =>
      (mk_ext (base x) (init_ret x) (configure_ret x) (i2c_ret x) (reset_ret x)
              rest, st, hb)
  end.

Definition dut : Dut collab :=
  mk_dut collab unit unit unit tt tt tt 1 2 3 4 5 536875008 536875040 134217985
         134250496 12 false
         (fun x => (x, init_ret x))
         (fun x _ => (x, configure_ret x))
         (fun x _ _ _ _ _ => (x, i2c_ret x))
         (fun x => (x, reset_ret x))
         get_halo_heartbeat.

(** A healthy board whose heartbeat reads 5, 5, 0, 5. *)
Definition healthy (b : Demo.ext) : ext :=
  mk_ext b 0 0 0 0 [(0, 5); (0, 5); (0, 0); (0, 5)].

(** A board whose driver fails to initialise and whose clock-routing write
    fails too. *)
Definition dead : ext := mk_ext Demo.two_blocks 1 0 1 1 [(1, 9)].

Definition world (x : ext) (hb : Z) : World collab :=
  mk_world (C:=collab) x [] (boot_state_zero collab) hb.

End DemoDut.

(** ** The loader as a relation

    Each exit of [bsp_dut_boot] with the calls that lead to it.  The
    relations are derived from the functions above and are how the
    properties below are proved. *)

Section Semantics.

Variable P : Platform.
Variable C : Collab.

Local Abbreviation World := (World C).
Local Abbreviation event := (event C).

Inductive body_spec (fw_img fw_img_end write_size : Z) (w : World)
  : step C -> list event -> Prop :=
| body_write_fail x1 bs1 x2 :
    fw_img_process C (ext w) (boot_state w)
      = (x1, bs1, FW_IMG_STATUS_DATA_READY P) ->
    cs40l25_write_block C x1 (block_addr (block bs1)) (block_data bs1)
                        (block_size (block bs1))
      = (x2, CS40L25_STATUS_FAIL P) ->
    body_spec fw_img fw_img_end write_size w
      (Break BSP_STATUS_FAIL (mk_world x2 (heap w) bs1 (current_halo_heartbeat w)))
      [Ev_process fw_img write_size (boot_state w) bs1 (FW_IMG_STATUS_DATA_READY P);
       Ev_write_block (block_addr (block bs1)) (block_data bs1)
                      (block_size (block bs1)) (CS40L25_STATUS_FAIL P)]
| body_write_ok x1 bs1 x2 r :
    fw_img_process C (ext w) (boot_state w)
      = (x1, bs1, FW_IMG_STATUS_DATA_READY P) ->
    cs40l25_write_block C x1 (block_addr (block bs1)) (block_data bs1)
                        (block_size (block bs1))
      = (x2, r) ->
    r <> CS40L25_STATUS_FAIL P ->
    body_spec fw_img fw_img_end write_size w
      (Continue fw_img write_size
         (mk_world x2 (heap w) bs1 (current_halo_heartbeat w)))
      [Ev_process fw_img write_size (boot_state w) bs1 (FW_IMG_STATUS_DATA_READY P);
       Ev_write_block (block_addr (block bs1)) (block_data bs1)
                      (block_size (block bs1)) r]
| body_parser_fail x1 bs1 :
    fw_img_process C (ext w) (boot_state w) = (x1, bs1, FW_IMG_STATUS_FAIL P) ->
    FW_IMG_STATUS_FAIL P <> FW_IMG_STATUS_DATA_READY P ->
    body_spec fw_img fw_img_end write_size w
      (Break BSP_STATUS_FAIL (mk_world x1 (heap w) bs1 (current_halo_heartbeat w)))
      [Ev_process fw_img write_size (boot_state w) bs1 (FW_IMG_STATUS_FAIL P)]
| body_nodata x1 bs1 write_size' :
    fw_img_process C (ext w) (boot_state w) = (x1, bs1, FW_IMG_STATUS_NODATA P) ->
    FW_IMG_STATUS_NODATA P <> FW_IMG_STATUS_DATA_READY P ->
    FW_IMG_STATUS_NODATA P <> FW_IMG_STATUS_FAIL P ->
    write_size' =
      (if ptrdiff_lt_uint32 (dm P) (fw_img_end - (fw_img + write_size)) write_size
       then to_uint32 (fw_img_end - (fw_img + write_size))
       else write_size) ->
    body_spec fw_img fw_img_end write_size w
      (Continue (fw_img + write_size) write_size'
         (mk_world x1 (heap w) (set_chunk bs1 (fw_img + write_size) write_size')
                   (current_halo_heartbeat w)))
      [Ev_process fw_img write_size (boot_state w) bs1 (FW_IMG_STATUS_NODATA P)]
| body_other x1 bs1 ret :
    fw_img_process C (ext w) (boot_state w) = (x1, bs1, ret) ->
    ret <> FW_IMG_STATUS_DATA_READY P ->
    ret <> FW_IMG_STATUS_FAIL P ->
    ret <> FW_IMG_STATUS_NODATA P ->
    body_spec fw_img fw_img_end write_size w
      (Continue (fw_img + write_size) write_size
         (mk_world x1 (heap w) bs1 (current_halo_heartbeat w)))
      [Ev_process fw_img write_size (boot_state w) bs1 ret].

Inductive loop_run (fw_img_end : Z)
  : Z -> Z -> World -> loop_result C -> list event -> Prop :=
| loop_exit fw_img write_size w :
    fw_img_end <= fw_img ->
    loop_run fw_img_end fw_img write_size w (LoopExit fw_img write_size w) []
| loop_fuel fw_img write_size w :
    fw_img < fw_img_end ->
    loop_run fw_img_end fw_img write_size w (LoopFuel w) []
| loop_break fw_img write_size w ret w' evs :
    fw_img < fw_img_end ->
    body_spec fw_img fw_img_end write_size w (Break ret w') evs ->
    loop_run fw_img_end fw_img write_size w (LoopReturn ret w') evs
| loop_continue fw_img write_size w fw_img' write_size' w' evs lr tr :
    fw_img < fw_img_end ->
    body_spec fw_img fw_img_end write_size w (Continue fw_img' write_size' w') evs ->
    loop_run fw_img_end fw_img' write_size' w' lr tr ->
    loop_run fw_img_end fw_img write_size w lr (evs ++ tr).

Inductive stream_run (fw_img fw_img_end write_size : Z) (w : World)
  : outcome C -> list event -> Prop :=
| stream_return ret w' tr :
    loop_run fw_img_end fw_img write_size w (LoopReturn ret w') tr ->
    stream_run fw_img fw_img_end write_size w (Returned ret w') tr
| stream_fuel w' tr :
    loop_run fw_img_end fw_img write_size w (LoopFuel w') tr ->
    stream_run fw_img fw_img_end write_size w (OutOfFuel w') tr
| stream_commit fw_img' write_size' w' tr x ret :
    loop_run fw_img_end fw_img write_size w (LoopExit fw_img' write_size' w') tr ->
    cs40l25_boot C (ext w') (Some (fw_info (boot_state w'))) = (x, ret) ->
    stream_run fw_img fw_img_end write_size w
      (Returned ret (mk_world x (heap w') (boot_state w') 0))
      (tr ++ [Ev_boot (Some (fw_info (boot_state w'))) ret]).

Inductive alloc_run (fw_img fw_img_end : Z) (w : World)
  : outcome C -> list event -> Prop :=
| alloc_sym_fail h1 :
    bsp_malloc C (heap w) (sym_table_bytes P C (boot_state w)) = (h1, NULL) ->
    alloc_run fw_img fw_img_end w
      (Returned BSP_STATUS_FAIL
         (mk_world (ext w) h1 (set_sym_table (boot_state w) NULL)
                   (current_halo_heartbeat w)))
      [Ev_malloc (sym_table_bytes P C (boot_state w)) NULL]
| alloc_alg_fail h1 p1 h2 :
    bsp_malloc C (heap w) (sym_table_bytes P C (boot_state w)) = (h1, p1) ->
    p1 <> NULL ->
    bsp_malloc C h1 (alg_id_list_bytes P C (boot_state w)) = (h2, NULL) ->
    alloc_run fw_img fw_img_end w
      (Returned BSP_STATUS_FAIL
         (mk_world (ext w) h2
                   (set_alg_id_list (set_sym_table (boot_state w) p1) NULL)
                   (current_halo_heartbeat w)))
      [Ev_malloc (sym_table_bytes P C (boot_state w)) p1;
       Ev_malloc (alg_id_list_bytes P C (boot_state w)) NULL]
| alloc_block_fail h1 p1 h2 p2 h3 :
    bsp_malloc C (heap w) (sym_table_bytes P C (boot_state w)) = (h1, p1) ->
    p1 <> NULL ->
    bsp_malloc C h1 (alg_id_list_bytes P C (boot_state w)) = (h2, p2) ->
    p2 <> NULL ->
    bsp_malloc C h2 (block_buffer_bytes C (boot_state w)) = (h3, NULL) ->
    alloc_run fw_img fw_img_end w
      (Returned BSP_STATUS_FAIL
         (mk_world (ext w) h3
            (set_block_data
               (set_block_data_size
                  (set_alg_id_list (set_sym_table (boot_state w) p1) p2)
                  (block_buffer_bytes C (boot_state w)))
               NULL)
            (current_halo_heartbeat w)))
      [Ev_malloc (sym_table_bytes P C (boot_state w)) p1;
       Ev_malloc (alg_id_list_bytes P C (boot_state w)) p2;
       Ev_malloc (block_buffer_bytes C (boot_state w)) NULL]
| alloc_done h1 p1 h2 p2 h3 p3 out tr :
    bsp_malloc C (heap w) (sym_table_bytes P C (boot_state w)) = (h1, p1) ->
    p1 <> NULL ->
    bsp_malloc C h1 (alg_id_list_bytes P C (boot_state w)) = (h2, p2) ->
    p2 <> NULL ->
    bsp_malloc C h2 (block_buffer_bytes C (boot_state w)) = (h3, p3) ->
    p3 <> NULL ->
    stream_run fw_img fw_img_end 1024
      (mk_world (ext w) h3
         (set_block_data
            (set_block_data_size
               (set_alg_id_list (set_sym_table (boot_state w) p1) p2)
               (block_buffer_bytes C (boot_state w)))
            p3)
         (current_halo_heartbeat w))
      out tr ->
    alloc_run fw_img fw_img_end w out
      (Ev_malloc (sym_table_bytes P C (boot_state w)) p1
       :: Ev_malloc (alg_id_list_bytes P C (boot_state w)) p2
       :: Ev_malloc (block_buffer_bytes C (boot_state w)) p3 :: tr).

Inductive header_run (fw_img fw_img_end : Z) (w : World)
  : outcome C -> list event -> Prop :=
| header_fail x1 bs1 ret :
    fw_img_read_header C (ext w) (boot_state w) = (x1, bs1, ret) ->
    ret <> 0 ->
    header_run fw_img fw_img_end w
      (Returned BSP_STATUS_FAIL
         (mk_world x1 (heap w) bs1 (current_halo_heartbeat w)))
      [Ev_read_header (boot_state w) bs1 ret]
| header_done x1 bs1 out tr :
    fw_img_read_header C (ext w) (boot_state w) = (x1, bs1, 0) ->
    alloc_run fw_img fw_img_end
      (mk_world x1 (heap w) bs1 (current_halo_heartbeat w)) out tr ->
    header_run fw_img fw_img_end w out
      (Ev_read_header (boot_state w) bs1 0 :: tr).

Inductive boot_run (cal_boot : bool) (w : World)
  : outcome C -> list event -> Prop :=
| boot_null_fail x1 ret :
    cs40l25_boot C (ext w) None = (x1, ret) ->
    ret <> CS40L25_STATUS_OK P ->
    boot_run cal_boot w
      (Returned ret
         (mk_world x1 (heap w) (boot_state w) (current_halo_heartbeat w)))
      [Ev_boot None ret]
| boot_started x1 h1 released out tr :
    cs40l25_boot C (ext w) None = (x1, CS40L25_STATUS_OK P) ->
    free_previous C (boot_state w) (heap w) = (h1, released) ->
    header_run (fst (select_image P cal_boot)) (snd (select_image P cal_boot))
      (mk_world x1 h1
         (set_chunk (boot_state_zero C) (fst (select_image P cal_boot)) 1024)
         (current_halo_heartbeat w))
      out tr ->
    boot_run cal_boot w out
      (Ev_boot None (CS40L25_STATUS_OK P) :: released ++ Ev_memset :: tr).

(** The loop states [(fw_img, write_size, world)] the loop passes through
    when it is entered at a given one. *)
Inductive loop_reaches (fw_img_end fw_img0 write_size0 : Z) (w0 : World)
  : Z -> Z -> World -> Prop :=
| reaches_start : loop_reaches fw_img_end fw_img0 write_size0 w0 fw_img0 write_size0 w0
| reaches_step fw_img write_size w fw_img' write_size' w' evs :
    loop_reaches fw_img_end fw_img0 write_size0 w0 fw_img write_size w ->
    fw_img < fw_img_end ->
    loop_body P C fw_img fw_img_end write_size w
      = (Continue fw_img' write_size' w', evs) ->
    loop_reaches fw_img_end fw_img0 write_size0 w0 fw_img' write_size' w'.

Lemma emit_fst {A} (evs : list event) (r : A * list event) :
  fst (emit evs r) = fst r.
Proof. reflexivity. Qed.

Lemma emit_snd {A} (evs : list event) (r : A * list event) :
  snd (emit evs r) = evs ++ snd r.
Proof. reflexivity. Qed.

Lemma loop_body_spec fw_img fw_img_end write_size w :
  body_spec fw_img fw_img_end write_size w
    (fst (loop_body P C fw_img fw_img_end write_size w))
    (snd (loop_body P C fw_img fw_img_end write_size w)).
Proof.
  unfold loop_body.
  destruct (fw_img_process C (ext w) (boot_state w)) as [[x1 bs1] ret] eqn:Hp.
  destruct (Z.eqb_spec ret (FW_IMG_STATUS_DATA_READY P)) as [-> | Hnr].
  - destruct (cs40l25_write_block C x1 _ _ _) as [x2 r] eqn:Hw.
    destruct (Z.eqb_spec r (CS40L25_STATUS_FAIL P)) as [-> | Hr]; simpl.
    + eapply body_write_fail; eauto.
    + eapply body_write_ok; eauto.
  - destruct (Z.eqb_spec ret (FW_IMG_STATUS_FAIL P)) as [-> | Hnf]; simpl.
    + eapply body_parser_fail; eauto.
    + destruct (Z.eqb_spec ret (FW_IMG_STATUS_NODATA P)) as [-> | Hnn]; simpl.
      * eapply body_nodata; eauto.
      * eapply body_other; eauto.
Qed.

Lemma boot_loop_run fuel fw_img fw_img_end write_size w :
  loop_run fw_img_end fw_img write_size w
    (fst (boot_loop P C fuel fw_img fw_img_end write_size w))
    (snd (boot_loop P C fuel fw_img fw_img_end write_size w)).
Proof.
  revert fw_img write_size w.
  induction fuel as [|n IH]; intros fw_img write_size w; simpl;
    destruct (Z.ltb_spec fw_img fw_img_end) as [Hlt | Hge]; simpl;
    try (by apply loop_exit); try (by apply loop_fuel).
  pose proof (loop_body_spec fw_img fw_img_end write_size w) as Hb.
  destruct (loop_body P C fw_img fw_img_end write_size w) as [[f' ws' w' | ret w'] evs];
    simpl in *.
  - eapply loop_continue; eauto.
  - by apply loop_break.
Qed.

Lemma boot_stream_run fuel fw_img fw_img_end write_size w :
  stream_run fw_img fw_img_end write_size w
    (fst (boot_stream P C fuel fw_img fw_img_end write_size w))
    (snd (boot_stream P C fuel fw_img fw_img_end write_size w)).
Proof.
  unfold boot_stream, boot_finish.
  pose proof (boot_loop_run fuel fw_img fw_img_end write_size w) as Hl.
  destruct (boot_loop P C fuel fw_img fw_img_end write_size w) as [[f' ws' w' | ret w' | w'] tr];
    simpl in *.
  - destruct (cs40l25_boot C (ext w') _) as [x ret] eqn:Hb; simpl.
    eapply stream_commit; eauto.
  - by apply stream_return.
  - by apply stream_fuel.
Qed.

Lemma boot_allocate_run fuel fw_img fw_img_end w :
  alloc_run fw_img fw_img_end w
    (fst (boot_allocate P C fuel fw_img fw_img_end w))
    (snd (boot_allocate P C fuel fw_img fw_img_end w)).
Proof.
  unfold boot_allocate.
  destruct (bsp_malloc C (heap w) _) as [h1 p1] eqn:H1.
  destruct (Z.eqb_spec p1 NULL) as [-> | Hp1]; simpl; [by eapply alloc_sym_fail|].
  destruct (bsp_malloc C h1 _) as [h2 p2] eqn:H2.
  destruct (Z.eqb_spec p2 NULL) as [-> | Hp2]; simpl;
    [by eapply alloc_alg_fail|].
  destruct (bsp_malloc C h2 _) as [h3 p3] eqn:H3.
  destruct (Z.eqb_spec p3 NULL) as [-> | Hp3]; simpl;
    [by eapply alloc_block_fail|].
  eapply alloc_done; eauto. apply boot_stream_run.
Qed.

Lemma boot_header_run fuel fw_img fw_img_end w :
  header_run fw_img fw_img_end w
    (fst (boot_header P C fuel fw_img fw_img_end w))
    (snd (boot_header P C fuel fw_img fw_img_end w)).
Proof.
  unfold boot_header.
  destruct (fw_img_read_header C (ext w) (boot_state w)) as [[x1 bs1] ret] eqn:Hh.
  destruct (Z.eqb_spec ret 0) as [-> | Hr]; simpl.
  - eapply header_done; eauto. apply boot_allocate_run.
  - eapply header_fail; eauto.
Qed.

Lemma bsp_dut_boot_run fuel cal_boot w :
  boot_run cal_boot w
    (fst (bsp_dut_boot P C fuel cal_boot w))
    (snd (bsp_dut_boot P C fuel cal_boot w)).
Proof.
  unfold bsp_dut_boot.
  destruct (select_image P cal_boot) as [fw_img fw_img_end] eqn:Hs.
  destruct (cs40l25_boot C (ext w) None) as [x1 ret] eqn:Hb.
  destruct (Z.eqb_spec ret (CS40L25_STATUS_OK P)) as [-> | Hr]; simpl.
  - destruct (free_previous C (boot_state w) (heap w)) as [h1 released] eqn:Hf.
    simpl. rewrite <- app_assoc. simpl.
    eapply boot_started; eauto. rewrite Hs. simpl. apply boot_header_run.
  - eapply boot_null_fail; eauto.
Qed.

End Semantics.

(** ** Properties of the loader *)

Section Properties.

Variable P : Platform.
Variable C : Collab.

Local Abbreviation World := (World C).
Local Abbreviation event := (event C).

(** *** Lists of events *)

Lemma cons_split {A} (a : A) l pre e post :
  a :: l = pre ++ e :: post ->
  (pre = [] /\ e = a /\ post = l) \/
  (exists pre', pre = a :: pre' /\ l = pre' ++ e :: post).
Proof.
  destruct pre as [|b pre']; simpl; intros H; inversion H; subst; eauto.
Qed.

Lemma app_split {A} (l1 l2 pre : list A) e post :
  l1 ++ l2 = pre ++ e :: post ->
  (exists mid, l1 = pre ++ e :: mid /\ post = mid ++ l2) \/
  (exists pre', pre = l1 ++ pre' /\ l2 = pre' ++ e :: post).
Proof.
  revert pre. induction l1 as [|a l1 IH]; intros pre H; simpl in *.
  - right. by exists pre.
  - destruct (cons_split _ _ _ _ _ H) as [(-> & -> & ->) | (pre' & -> & H')].
    + left. by exists l1.
    + destruct (IH _ H') as [(mid & -> & ->) | (pre'' & -> & ->)].
      * left. by exists mid.
      * right. by exists pre''.
Qed.

Lemma count_events_app (f : event -> bool) l1 l2 :
  count_events f (l1 ++ l2) = (count_events f l1 + count_events f l2)%nat.
Proof. induction l1 as [|a l1 IH]; simpl; [done | rewrite IH; lia]. Qed.

Lemma count_events_none (f : event -> bool) l :
  Forall (fun e => f e = false) l -> count_events f l = O.
Proof. induction 1 as [|a l Ha _ IH]; simpl; [done | by rewrite Ha, IH]. Qed.

(** *** What each stage logs *)

Lemma body_spec_events fw_img fw_img_end write_size (w : World) s evs :
  body_spec P C fw_img fw_img_end write_size w s evs -> Forall loop_event evs.
Proof. destruct 1; repeat constructor. Qed.

Lemma loop_run_events fw_img_end fw_img write_size (w : World) lr tr :
  loop_run P C fw_img_end fw_img write_size w lr tr -> Forall loop_event tr.
Proof.
  induction 1 as [f ws w Hge | f ws w Hlt | f ws w ret w' evs Hlt Hb
                 | f ws w f' ws' w' evs lr tr Hlt Hb Hl IH].
  - constructor.
  - constructor.
  - by eapply body_spec_events.
  - apply Forall_app. split; [by eapply body_spec_events | done].
Qed.

Lemma free_if_set_events p (h : Heap C) :
  Forall (fun e => is_free e = true) (snd (free_if_set C p h)).
Proof. unfold free_if_set. destruct (p =? NULL); simpl; repeat constructor. Qed.

Lemma free_previous_events (bs : boot_state_t C) (h : Heap C) :
  Forall (fun e => is_free e = true) (snd (free_previous C bs h)).
Proof.
  unfold free_previous.
  pose proof (free_if_set_events (sym_table (fw_info bs)) h) as H1.
  destruct (free_if_set C (sym_table (fw_info bs)) h) as [h1 t1].
  pose proof (free_if_set_events (alg_id_list (fw_info bs)) h1) as H2.
  destruct (free_if_set C (alg_id_list (fw_info bs)) h1) as [h2 t2].
  pose proof (free_if_set_events (block_data bs) h2) as H3.
  destruct (free_if_set C (block_data bs) h2) as [h3 t3].
  simpl in *. by rewrite !Forall_app.
Qed.

(** *** Errors *)

Lemma fails_last_position (tr : list event) pre e post :
  fails_last P tr -> tr = pre ++ e :: post -> is_error P e -> post = [].
Proof.
  intros (tr0 & e0 & -> & Hc & He0) Heq He.
  destruct (app_split _ _ _ _ _ Heq) as [(mid & -> & _) | (pre' & -> & H')].
  - apply Forall_app in Hc as [_ Hc]. inversion Hc; subst. contradiction.
  - destruct (cons_split _ _ _ _ _ H') as [(_ & _ & ->) | (p' & _ & Hnil)]; [done|].
    by destruct p'.
Qed.

Lemma fails_last_not_clean (tr : list event) : fails_last P tr -> clean P tr -> False.
Proof.
  intros (tr0 & e & -> & _ & He) Hc.
  apply Forall_app in Hc as [_ Hc]. inversion Hc; subst. contradiction.
Qed.

Lemma fails_last_cons (a : event) tr :
  ~ is_error P a -> fails_last P tr -> fails_last P (a :: tr).
Proof.
  intros Ha (tr0 & e & -> & Hc & He).
  exists (a :: tr0), e. split; [done | split; [by constructor | done]].
Qed.

Lemma fails_last_app (l : list event) tr : clean P l -> fails_last P tr -> fails_last P (l ++ tr).
Proof.
  intros Hl (tr0 & e & -> & Hc & He).
  exists (l ++ tr0), e. rewrite app_assoc.
  split; [done | split; [by apply Forall_app | done]].
Qed.

Lemma clean_free l : Forall (fun e : event => is_free e = true) l -> clean P l.
Proof.
  unfold clean. intros Hl. eapply Forall_impl; [exact Hl|]. intros [] H; simpl in *; try discriminate; tauto.
Qed.

Lemma not_commit_free l :
  Forall (fun e : event => is_free e = true) l ->
  Forall (fun e : event => is_commit e = false) l.
Proof.
  intros Hl. eapply Forall_impl; [exact Hl|].
  intros [] H; simpl in *; by try discriminate.
Qed.

Lemma not_commit_loop l :
  Forall loop_event l -> Forall (fun e : event => is_commit e = false) l.
Proof.
  intros Hl. eapply Forall_impl; [exact Hl|].
  intros [] H; simpl in *; by try contradiction.
Qed.

Section DistinctStatuses.

Hypothesis fail_not_ready : FW_IMG_STATUS_FAIL P <> FW_IMG_STATUS_DATA_READY P.

Lemma body_spec_errors fw_img fw_img_end write_size (w : World) s evs :
  body_spec P C fw_img fw_img_end write_size w s evs ->
  match s with
  | Break ret _ => ret = BSP_STATUS_FAIL /\ fails_last P evs
  | Continue _ _ _ => clean P evs
  end.
Proof.
  destruct 1 as [x1 bs1 x2 Hp Hw | x1 bs1 x2 r Hp Hw Hr | x1 bs1 Hp Hd
                | x1 bs1 ws' Hp Hd Hf Hws | x1 bs1 ret Hp Hd Hf Hn].
  - split; [done|]. eexists [_], _. split; [done|]. split; [|done].
    repeat constructor. simpl. congruence.
  - repeat constructor; simpl; congruence.
  - split; [done|].
    exists [], (Ev_process fw_img write_size (boot_state w) bs1
                           (FW_IMG_STATUS_FAIL P)).
    split; [done|]. split; [constructor | reflexivity].
  - repeat constructor; simpl; congruence.
  - repeat constructor; simpl; congruence.
Qed.

Lemma loop_run_errors fw_img_end fw_img write_size (w : World) lr tr :
  loop_run P C fw_img_end fw_img write_size w lr tr ->
  match lr with
  | LoopReturn ret _ => ret = BSP_STATUS_FAIL /\ fails_last P tr
  | _ => clean P tr
  end.
Proof.
  induction 1 as [f ws w Hge | f ws w Hlt | f ws w ret w' evs Hlt Hb
                 | f ws w f' ws' w' evs lr tr Hlt Hb Hl IH].
  - constructor.
  - constructor.
  - by apply body_spec_errors in Hb.
  - apply body_spec_errors in Hb.
    destruct lr; [by apply Forall_app | | by apply Forall_app].
    destruct IH as [-> IH]. split; [done | by apply fails_last_app].
Qed.

Lemma stream_run_verdict fw_img fw_img_end write_size (w : World) out tr :
  stream_run P C fw_img fw_img_end write_size w out tr -> verdict P out tr.
Proof.
  destruct 1 as [ret w' tr Hl | w' tr Hl | f' ws' w' tr x ret Hl Hb].
  - pose proof (loop_run_events _ _ _ _ _ _ Hl) as Hev.
    apply loop_run_errors in Hl as [-> Hl]. right. split; [done|].
    split; [by eexists|]. by apply count_events_none, not_commit_loop.
  - apply loop_run_errors in Hl. by left.
  - apply loop_run_errors in Hl. left. apply Forall_app. split; [done|].
    repeat constructor. simpl. tauto.
Qed.

Lemma verdict_cons (a : event) out tr :
  ~ is_error P a -> is_commit a = false -> verdict P out tr -> verdict P out (a :: tr).
Proof.
  intros Ha Hc [H | (H1 & H2 & H3)]; [left; by constructor | right].
  split; [by apply fails_last_cons|]. split; [done|]. simpl. by rewrite Hc, H3.
Qed.

Lemma verdict_fail (tr0 : list event) e w' :
  clean P tr0 -> count_events is_commit (tr0 ++ [e]) = O -> is_error P e ->
  verdict P (Returned BSP_STATUS_FAIL w') (tr0 ++ [e]).
Proof.
  intros Hc Hn He. right. split; [by exists tr0, e|]. split; [by eexists | done].
Qed.

Lemma alloc_run_verdict fw_img fw_img_end (w : World) out tr :
  alloc_run P C fw_img fw_img_end w out tr -> verdict P out tr.
Proof.
  destruct 1 as [h1 H1 | h1 p1 h2 H1 Hp1 H2 | h1 p1 h2 p2 h3 H1 Hp1 H2 Hp2 H3
                | h1 p1 h2 p2 h3 p3 out tr H1 Hp1 H2 Hp2 H3 Hp3 Hs].
  - apply (verdict_fail []); [constructor | reflexivity | reflexivity].
  - apply (verdict_fail [_]); [|reflexivity..]. by repeat constructor.
  - apply (verdict_fail [_; _]); [|reflexivity..]. by repeat constructor.
  - apply stream_run_verdict in Hs. by repeat apply verdict_cons.
Qed.

Lemma header_run_verdict fw_img fw_img_end (w : World) out tr :
  header_run P C fw_img fw_img_end w out tr -> verdict P out tr.
Proof.
  destruct 1 as [x1 bs1 ret Hh Hr | x1 bs1 out tr Hh Ha].
  - apply (verdict_fail []); [constructor | reflexivity | exact Hr].
  - apply alloc_run_verdict in Ha. apply verdict_cons; simpl; [lia | done..].
Qed.

Lemma verdict_app (l : list event) out tr :
  clean P l -> Forall (fun e => is_commit e = false) l ->
  verdict P out tr -> verdict P out (l ++ tr).
Proof.
  induction l as [|a l IH]; simpl; [done|].
  intros Hc Hn Hv. inversion Hc; inversion Hn; subst.
  apply verdict_cons; auto.
Qed.

Lemma boot_run_verdict cal_boot (w : World) out tr :
  boot_run P C cal_boot w out tr -> verdict P out tr.
Proof.
  destruct 1 as [x1 ret Hb Hr | x1 h1 released out tr Hb Hf Hh].
  - left. repeat constructor. simpl. tauto.
  - apply header_run_verdict in Hh.
    pose proof (free_previous_events (boot_state w) (heap w)) as Hfr.
    rewrite Hf in Hfr. simpl in Hfr.
    apply verdict_cons; [simpl; tauto | done |].
    apply verdict_app; [by apply clean_free | by apply not_commit_free |].
    apply verdict_cons; [simpl; tauto | done | done].
Qed.

End DistinctStatuses.

(** *** The commit *)

Lemma body_spec_break fw_img fw_img_end write_size (w : World) ret w' evs :
  body_spec P C fw_img fw_img_end write_size w (Break ret w') evs ->
  Exists (is_error P) evs.
Proof.
  inversion 1; subst.
  - apply Exists_cons_tl, Exists_cons_hd. reflexivity.
  - apply Exists_cons_hd. reflexivity.
Qed.

Lemma loop_run_return fw_img_end fw_img write_size (w : World) ret w' tr :
  loop_run P C fw_img_end fw_img write_size w (LoopReturn ret w') tr ->
  Exists (is_error P) tr.
Proof.
  remember (LoopReturn ret w') as lr eqn:Hlr.
  induction 1 as [f ws w Hge | f ws w Hlt | f ws w r w1 evs Hlt Hb
                 | f ws w f' ws' w1 evs lr tr Hlt Hb Hl IH]; try discriminate.
  - by eapply body_spec_break.
  - apply Exists_app. right. by apply IH.
Qed.

Lemma ending_cons (a : event) out tr :
  is_commit a = false -> ending P out tr -> ending P out (a :: tr).
Proof.
  intros Ha [H | [H | (ret & w' & -> & Hn & Hl)]].
  - left. by apply Exists_cons_tl.
  - right. by left.
  - right. right. exists ret, w'. split; [done|]. simpl. rewrite Ha, Hn.
    split; [done|]. rewrite last_cons, Hl. done.
Qed.

Lemma ending_app (l : list event) out tr :
  Forall (fun e => is_commit e = false) l -> ending P out tr -> ending P out (l ++ tr).
Proof.
  induction 1 as [|a l Ha _ IH]; simpl; [done|].
  intros H. by apply ending_cons, IH.
Qed.

Lemma stream_run_ending fw_img fw_img_end write_size (w : World) out tr :
  stream_run P C fw_img fw_img_end write_size w out tr -> ending P out tr.
Proof.
  destruct 1 as [ret w' tr Hl | w' tr Hl | f' ws' w' tr x ret Hl Hb].
  - left. by eapply loop_run_return.
  - right. left. by eexists.
  - right. right. eexists _, _. split; [done|]. simpl.
    rewrite count_events_app, last_snoc. split; [|done].
    rewrite count_events_none; [done|].
    eapply not_commit_loop, loop_run_events, Hl.
Qed.

Lemma alloc_run_ending fw_img fw_img_end (w : World) out tr :
  alloc_run P C fw_img fw_img_end w out tr -> ending P out tr.
Proof.
  destruct 1 as [h1 H1 | h1 p1 h2 H1 Hp1 H2 | h1 p1 h2 p2 h3 H1 Hp1 H2 Hp2 H3
                | h1 p1 h2 p2 h3 p3 out tr H1 Hp1 H2 Hp2 H3 Hp3 Hs].
  - left. apply Exists_cons_hd. reflexivity.
  - left. apply Exists_cons_tl, Exists_cons_hd. reflexivity.
  - left. apply Exists_cons_tl, Exists_cons_tl, Exists_cons_hd. reflexivity.
  - apply stream_run_ending in Hs. by repeat apply ending_cons.
Qed.

Lemma header_run_ending fw_img fw_img_end (w : World) out tr :
  header_run P C fw_img fw_img_end w out tr -> ending P out tr.
Proof.
  destruct 1 as [x1 bs1 ret Hh Hr | x1 bs1 out tr Hh Ha].
  - left. by apply Exists_cons_hd.
  - apply alloc_run_ending in Ha. by apply ending_cons.
Qed.

Lemma boot_run_ending cal_boot (w : World) out tr :
  boot_run P C cal_boot w out tr ->
  (exists ret, ret <> CS40L25_STATUS_OK P /\ tr = [Ev_boot None ret]) \/
  ending P out tr.
Proof.
  destruct 1 as [x1 r Hb Hne | x1 h1 released out tr0 Hb Hf Hh].
  - left. by exists r.
  - right. apply header_run_ending in Hh.
    pose proof (free_previous_events (boot_state w) (heap w)) as Hfr.
    rewrite Hf in Hfr. simpl in Hfr.
    apply ending_cons; [done|].
    apply ending_app; [by apply not_commit_free|]. by apply ending_cons.
Qed.

(** C7: a boot attempt that got past [cs40l25_boot(NULL)], logged no error
    and returned has called [cs40l25_boot] on [&boot_state.fw_info] exactly
    once, as its last call, and returns the status of that call (so a
    rejected commit is the status of the boot). *)
Theorem commit_once_and_status fuel cal_boot (w : World) ret w' tr tr' :
  bsp_dut_boot P C fuel cal_boot w = (Returned ret w', tr) ->
  tr = Ev_boot None (CS40L25_STATUS_OK P) :: tr' ->
  clean P tr ->
  count_events is_commit tr = 1%nat /\
  last tr = Some (Ev_boot (Some (fw_info (boot_state w'))) ret).
Proof.
  intros Hrun Hstart Hclean.
  pose proof (bsp_dut_boot_run P C fuel cal_boot w) as Hr.
  rewrite Hrun in Hr. simpl in Hr.
  destruct (boot_run_ending _ _ _ _ Hr)
    as [(r & Hne & ->) | [He | [[w1 He] | (r & w1 & He & Hn & Hl)]]].
  - congruence.
  - exfalso. apply Exists_exists in He as (e & Hin & He).
    unfold clean in Hclean. rewrite Forall_forall in Hclean.
    by apply (Hclean e).
  - discriminate.
  - by inversion He; subst.
Qed.

(** *** Order of header decode, allocations and block writes *)

Lemma ordered_split hdr bufs (tr : list event) pre e post :
  ordered hdr bufs tr -> tr = pre ++ e :: post ->
  (is_malloc e = true ->
   hdr = true \/ Exists (fun e' => header_ok e' = true) pre) /\
  (is_write e = true -> (bufs + count_events alloc_ok pre)%nat = 3%nat).
Proof.
  revert hdr bufs tr. induction pre as [|a pre IH]; intros hdr bufs tr Ho ->.
  - destruct Ho as (Hm & Hw & _). simpl. split; [intros; left; auto|].
    intros H. rewrite Nat.add_0_r. auto.
  - destruct Ho as (_ & _ & Ho). destruct (IH _ _ _ Ho eq_refl) as [Hm Hw].
    split.
    + intros H. destruct (Hm H) as [Hh | Hex].
      * apply orb_true_iff in Hh as [Hh | Hh]; [by left | right].
        by apply Exists_cons_hd.
      * right. by apply Exists_cons_tl.
    + intros H. specialize (Hw H). simpl. lia.
Qed.

Lemma ordered_quiet hdr bufs (l tr : list event) :
  Forall (fun e => is_malloc e = false /\ is_write e = false /\ header_ok e = false) l ->
  ordered hdr bufs tr -> ordered hdr bufs (l ++ tr).
Proof.
  induction 1 as [|a l (Hm & Hw & Hh) _ IH]; simpl; [done|].
  intros Ho. rewrite Hm, Hw, Hh, orb_false_r.
  assert (alloc_ok a = false) as -> by (by destruct a).
  rewrite Nat.add_0_r. repeat split; try discriminate. by apply IH.
Qed.

Lemma ordered_streaming hdr (l : list event) :
  Forall (fun e => is_malloc e = false /\ header_ok e = false) l ->
  ordered hdr 3 l.
Proof.
  intros Hl. revert hdr.
  induction Hl as [|a l (Hm & Hh) _ IH]; intros hdr; simpl; [done|].
  rewrite Hm. assert (alloc_ok a = false) as -> by (by destruct a).
  repeat split; try discriminate. apply IH.
Qed.

Lemma stream_run_ordered fw_img fw_img_end write_size (w : World) out tr hdr :
  stream_run P C fw_img fw_img_end write_size w out tr -> ordered hdr 3 tr.
Proof.
  intros Hs. apply ordered_streaming.
  assert (Hl : forall l : list event, Forall loop_event l ->
            Forall (fun e => is_malloc e = false /\ header_ok e = false) l).
  { intros l Hl. eapply Forall_impl; [exact Hl|]. by intros []. }
  destruct Hs as [ret w' tr Hr | w' tr Hr | f' ws' w' tr x ret Hr Hb].
  - eapply Hl, loop_run_events, Hr.
  - eapply Hl, loop_run_events, Hr.
  - apply Forall_app. split; [eapply Hl, loop_run_events, Hr|].
    by repeat constructor.
Qed.

Lemma alloc_ok_true n p : p <> NULL -> alloc_ok (Ev_malloc (C:=C) n p) = true.
Proof. intros H. simpl. by destruct (Z.eqb_spec p NULL). Qed.

Lemma alloc_run_ordered fw_img fw_img_end (w : World) out tr :
  alloc_run P C fw_img fw_img_end w out tr -> ordered true 0 tr.
Proof.
  destruct 1 as [h1 H1 | h1 p1 h2 H1 Hp1 H2 | h1 p1 h2 p2 h3 H1 Hp1 H2 Hp2 H3
                | h1 p1 h2 p2 h3 p3 out tr H1 Hp1 H2 Hp2 H3 Hp3 Hs];
    cbn [ordered is_malloc is_write header_ok orb];
    rewrite ?alloc_ok_true by done; cbn [Nat.add];
    repeat split; try discriminate.
  eapply stream_run_ordered, Hs.
Qed.

Lemma header_run_ordered fw_img fw_img_end (w : World) out tr :
  header_run P C fw_img fw_img_end w out tr -> ordered false 0 tr.
Proof.
  destruct 1 as [x1 bs1 ret Hh Hr | x1 bs1 out tr Hh Ha]; simpl;
    repeat split; try discriminate.
  by eapply alloc_run_ordered.
Qed.

Lemma boot_run_ordered cal_boot (w : World) out tr :
  boot_run P C cal_boot w out tr -> ordered false 0 tr.
Proof.
  destruct 1 as [x1 r Hb Hne | x1 h1 released out tr0 Hb Hf Hh]; simpl;
    repeat split; try discriminate.
  pose proof (free_previous_events (boot_state w) (heap w)) as Hfr.
  rewrite Hf in Hfr. simpl in Hfr.
  apply ordered_quiet.
  - eapply Forall_impl; [exact Hfr|]. by intros [].
  - simpl. repeat split; try discriminate. by eapply header_run_ordered.
Qed.

(** C2: in every execution, complete or not, each allocation comes after
    a call of [fw_img_read_header] that returned success, and each block
    handed to [cs40l25_write_block] comes after three allocations that
    returned a buffer. *)
Theorem header_before_buffers_before_blocks fuel cal_boot (w : World) pre e post :
  snd (bsp_dut_boot P C fuel cal_boot w) = pre ++ e :: post ->
  (is_malloc e = true -> Exists (fun e' => header_ok e' = true) pre) /\
  (is_write e = true -> count_events alloc_ok pre = 3%nat).
Proof.
  intros Heq.
  pose proof (boot_run_ordered _ _ _ _ (bsp_dut_boot_run P C fuel cal_boot w)) as Ho.
  destruct (ordered_split _ _ _ _ _ _ Ho Heq) as [Hm Hw]. split.
  - intros H. by destruct (Hm H).
  - intros H. by apply Hw.
Qed.

(** *** Sizes of the buffers *)


Lemma mallocs_app (l1 l2 : list event) : mallocs (l1 ++ l2) = mallocs l1 ++ mallocs l2.
Proof.
  induction l1 as [|a l1 IH]; simpl; [done|]. destruct a; simpl; by rewrite ?IH.
Qed.


Lemma mallocs_none (l : list event) :
  Forall (fun e => is_malloc e = false) l -> mallocs l = [].
Proof. induction 1 as [|a l Ha _ IH]; simpl; [done|]. by destruct a. Qed.

Lemma header_reads_none (l : list event) :
  Forall (fun e => is_header_read e = false) l -> header_reads l = [].
Proof. induction 1 as [|a l Ha _ IH]; simpl; [done|]. by destruct a. Qed.

Lemma stream_run_quiet fw_img fw_img_end write_size (w : World) out tr :
  stream_run P C fw_img fw_img_end write_size w out tr ->
  Forall (fun e => is_malloc e = false /\ is_header_read e = false
                   /\ is_free e = false) tr.
Proof.
  assert (Hl : forall l : list event, Forall loop_event l ->
            Forall (fun e => is_malloc e = false /\ is_header_read e = false
                             /\ is_free e = false) l).
  { intros l Hl. eapply Forall_impl; [exact Hl|]. by intros []. }
  destruct 1 as [ret w' tr Hr | w' tr Hr | f' ws' w' tr x ret Hr Hb].
  - eapply Hl, loop_run_events, Hr.
  - eapply Hl, loop_run_events, Hr.
  - apply Forall_app. split; [eapply Hl, loop_run_events, Hr|].
    by repeat constructor.
Qed.

Lemma stream_run_projections fw_img fw_img_end write_size (w : World) out tr :
  stream_run P C fw_img fw_img_end write_size w out tr ->
  mallocs tr = [] /\ header_reads tr = [] /\ frees tr = [].
Proof.
  intros Hs. apply stream_run_quiet in Hs.
  induction Hs as [|a l (Hm & Hh & Hf) _ IH]; simpl; [done|]. by destruct a.
Qed.





(** *** The streaming loop inside a run *)

Lemma prefix_split {A} (Q : A -> Prop) l tr pre e post :
  Forall Q l -> ~ Q e -> l ++ tr = pre ++ e :: post ->
  exists pre', pre = l ++ pre' /\ tr = pre' ++ e :: post.
Proof.
  intros Hl He Heq.
  destruct (app_split _ _ _ _ _ Heq) as [(mid & -> & _) | (pre' & -> & ->)].
  - apply Forall_app in Hl as [_ Hl]. inversion Hl; subst. contradiction.
  - by exists pre'.
Qed.

(** A run is a sequence of setup calls followed, once the three buffers
    are there, by the streaming loop and the commit. *)
Lemma boot_run_stream cal_boot (w : World) out tr :
  boot_run P C cal_boot w out tr ->
  exists l tr_s,
    tr = l ++ tr_s /\ Forall setup_event l /\
    (tr_s = [] \/
     exists w_s, stream_run P C (fst (select_image P cal_boot))
                            (snd (select_image P cal_boot)) 1024 w_s out tr_s).
Proof.
  assert (Hfree : forall l : list event,
            Forall (fun e => is_free e = true) l -> Forall setup_event l).
  { intros l Hl. eapply Forall_impl; [exact Hl|]. by intros []. }
  destruct 1 as [x1 r Hb Hne | x1 h1 released out tr0 Hb Hf Hh].
  - exists [Ev_boot None r], []. by repeat constructor.
  - pose proof (free_previous_events (boot_state w) (heap w)) as Hfr.
    rewrite Hf in Hfr. simpl in Hfr. apply Hfree in Hfr.
    destruct Hh as [x2 bs1 ret Hh Hr | x2 bs1 out tr1 Hh Ha].
    + exists (Ev_boot None (CS40L25_STATUS_OK P) :: released
              ++ [Ev_memset; Ev_read_header
                    (set_chunk (boot_state_zero C) (fst (select_image P cal_boot)) 1024)
                    bs1 ret]), [].
      rewrite app_nil_r. split; [done|]. split; [|by left].
      constructor; [done|]. apply Forall_app. split; [done|]. by repeat constructor.
    + set (pre := Ev_boot None (CS40L25_STATUS_OK P) :: released
              ++ [Ev_memset; Ev_read_header
                    (set_chunk (boot_state_zero C) (fst (select_image P cal_boot)) 1024)
                    bs1 0]).
      assert (Hpre : Forall setup_event pre).
      { constructor; [done|]. apply Forall_app. split; [done|].
        by repeat constructor. }
      assert (Hassoc : forall t,
                Ev_boot None (CS40L25_STATUS_OK P) :: released ++ Ev_memset
                  :: Ev_read_header
                       (set_chunk (boot_state_zero C)
                                  (fst (select_image P cal_boot)) 1024) bs1 0 :: t
                = pre ++ t).
      { intros t. unfold pre. simpl. by rewrite <- app_assoc. }
      simpl boot_state. rewrite Hassoc.
      destruct Ha as [h2 H1 | h2 p1 h3 H1 Hp1 H2 | h2 p1 h3 p2 h4 H1 Hp1 H2 Hp2 H3
                     | h2 p1 h3 p2 h4 p3 out tr2 H1 Hp1 H2 Hp2 H3 Hp3 Hs].
      * eexists (pre ++ [_]), []. rewrite app_nil_r. split; [done|].
        split; [|by left]. apply Forall_app. split; [done|]. by repeat constructor.
      * eexists (pre ++ [_; _]), []. rewrite app_nil_r. split; [done|].
        split; [|by left]. apply Forall_app. split; [done|]. by repeat constructor.
      * eexists (pre ++ [_; _; _]), []. rewrite app_nil_r. split; [done|].
        split; [|by left]. apply Forall_app. split; [done|]. by repeat constructor.
      * eexists (pre ++ [_; _; _]), tr2. rewrite <- app_assoc. split; [done|].
        split; [|right; eexists; exact Hs].
        apply Forall_app. split; [done|]. by repeat constructor.
Qed.

Lemma loop_run_head fw_img_end fw_img write_size (w : World) lr tr :
  loop_run P C fw_img_end fw_img write_size w lr tr ->
  match tr with
  | [] => (exists w', lr = LoopFuel w') \/ fw_img_end <= fw_img
  | ev :: _ => exists bo ret, ev = Ev_process fw_img write_size (boot_state w) bo ret
  end.
Proof.
  destruct 1 as [f ws w Hge | f ws w Hlt | f ws w ret w' evs Hlt Hb
                | f ws w f' ws' w' evs lr tr Hlt Hb Hl].
  - by right.
  - left. by eexists.
  - destruct Hb; simpl; by eexists _, _.
  - destruct Hb; simpl; by eexists _, _.
Qed.

(** *** Block writes *)

Lemma loop_run_forward fw_img_end fw_img0 write_size0 (w : World) lr tr :
  loop_run P C fw_img_end fw_img0 write_size0 w lr tr ->
  forall pre fw_img write_size bi bo post,
    tr = pre ++ Ev_process fw_img write_size bi bo (FW_IMG_STATUS_DATA_READY P)
                :: post ->
    exists r post',
      post = Ev_write_block (block_addr (block bo)) (block_data bo)
                            (block_size (block bo)) r :: post' /\
      (r <> CS40L25_STATUS_FAIL P ->
       (exists bo' ret' post'',
          post' = Ev_process fw_img write_size bo bo' ret' :: post'') \/
       (post' = [] /\ exists w', lr = LoopFuel w')).
Proof.
  induction 1 as [f ws w Hge | f ws w Hlt | f ws w ret w' evs Hlt Hb
                 | f ws w f' ws' w' evs lr tr Hlt Hb Hl IH];
    intros pre fw_img write_size bi bo post Heq.
  - by destruct pre.
  - by destruct pre.
  - revert Heq. inversion Hb; subst; intros Heq.
    + destruct (cons_split _ _ _ _ _ Heq) as [(-> & He & ->) | (pre' & -> & H')].
      * inversion He; subst. eexists _, []. split; [done|]. by intros [].
      * destruct (cons_split _ _ _ _ _ H') as [(_ & He & _) | (p' & _ & Hn)];
          [discriminate | by destruct p'].
    + destruct (cons_split _ _ _ _ _ Heq) as [(-> & He & ->) | (pre' & -> & H')].
      * inversion He; subst. congruence.
      * by destruct pre'.
  - revert Heq. inversion Hb; subst; intros Heq; simpl in Heq.
    + destruct (cons_split _ _ _ _ _ Heq) as [(-> & He & ->) | (pre' & -> & H')].
      * inversion He; subst. eexists _, _. split; [done|]. intros _.
        apply loop_run_head in Hl. destruct tr as [|ev tr'].
        -- right. split; [done|]. destruct Hl as [Hl | Hl]; [done | lia].
        -- left. destruct Hl as (bo' & ret' & ->). simpl. by eexists _, _, _.
      * destruct (cons_split _ _ _ _ _ H') as [(_ & He & _) | (p' & -> & H'')];
          [discriminate|]. by eapply IH.
    + destruct (cons_split _ _ _ _ _ Heq) as [(-> & He & ->) | (pre' & -> & H')].
      * inversion He; subst. congruence.
      * by eapply IH.
    + destruct (cons_split _ _ _ _ _ Heq) as [(-> & He & ->) | (pre' & -> & H')].
      * inversion He; subst. congruence.
      * by eapply IH.
Qed.

Lemma stream_run_forward fw_img0 fw_img_end write_size0 (w : World) out tr :
  stream_run P C fw_img0 fw_img_end write_size0 w out tr ->
  forall pre fw_img write_size bi bo post,
    tr = pre ++ Ev_process fw_img write_size bi bo (FW_IMG_STATUS_DATA_READY P)
                :: post ->
    exists r post',
      post = Ev_write_block (block_addr (block bo)) (block_data bo)
                            (block_size (block bo)) r :: post' /\
      (r <> CS40L25_STATUS_FAIL P ->
       (exists bo' ret' post'',
          post' = Ev_process fw_img write_size bo bo' ret' :: post'') \/
       (post' = [] /\ exists w', out = OutOfFuel w')).
Proof.
  destruct 1 as [ret w' tr Hl | w' tr Hl | f' ws' w' tr x ret Hl Hb];
    intros pre fw_img write_size bi bo post Heq.
  - destruct (loop_run_forward _ _ _ _ _ _ Hl _ _ _ _ _ _ Heq)
      as (r & post' & -> & Hr).
    exists r, post'. split; [done|]. intros Hne.
    destruct (Hr Hne) as [H | (_ & w1 & H)]; [by left | discriminate].
  - destruct (loop_run_forward _ _ _ _ _ _ Hl _ _ _ _ _ _ Heq)
      as (r & post' & -> & Hr).
    exists r, post'. split; [done|]. intros Hne.
    destruct (Hr Hne) as [H | (-> & w1 & H)]; [by left|].
    right. split; [done|]. by exists w'.
  - destruct (app_split _ _ _ _ _ Heq) as [(mid & Htr & ->) | (pre' & -> & H')].
    + destruct (loop_run_forward _ _ _ _ _ _ Hl _ _ _ _ _ _ Htr)
        as (r & post' & -> & Hr).
      exists r, (post' ++ [Ev_boot (Some (fw_info (boot_state w'))) ret]).
      split; [done|]. intros Hne.
      destruct (Hr Hne) as [(bo' & ret' & post'' & ->) | (_ & w1 & H)];
        [|discriminate].
      left. by eexists _, _, _.
    + destruct (cons_split _ _ _ _ _ H') as [(_ & He & _) | (p' & _ & Hn)];
        [discriminate | by destruct p'].
Qed.

Lemma boot_loop_first_call n fw_img fw_img_end write_size (w : World) :
  fw_img < fw_img_end ->
  exists bo ret tr,
    snd (boot_loop P C (S n) fw_img fw_img_end write_size w)
    = Ev_process fw_img write_size (boot_state w) bo ret :: tr.
Proof.
  intros Hlt. simpl. destruct (Z.ltb_spec fw_img fw_img_end); [|lia].
  pose proof (loop_body_spec P C fw_img fw_img_end write_size w) as Hb.
  destruct (loop_body P C fw_img fw_img_end write_size w) as [[f' ws' w' | ret w'] evs];
    simpl in *; inversion Hb; subst; simpl; by eexists _, _, _.
Qed.

Lemma loop_body_ready fw_img fw_img_end write_size (w : World) x1 bs1 x2 r :
  fw_img_process C (ext w) (boot_state w)
    = (x1, bs1, FW_IMG_STATUS_DATA_READY P) ->
  cs40l25_write_block C x1 (block_addr (block bs1)) (block_data bs1)
                      (block_size (block bs1)) = (x2, r) ->
  r <> CS40L25_STATUS_FAIL P ->
  loop_body P C fw_img fw_img_end write_size w
  = (Continue fw_img write_size
       (mk_world x2 (heap w) bs1 (current_halo_heartbeat w)),
     [Ev_process fw_img write_size (boot_state w) bs1 (FW_IMG_STATUS_DATA_READY P);
      Ev_write_block (block_addr (block bs1)) (block_data bs1)
                     (block_size (block bs1)) r]).
Proof.
  intros Hp Hw Hr. unfold loop_body. rewrite Hp, Z.eqb_refl, Hw.
  by destruct (Z.eqb_spec r (CS40L25_STATUS_FAIL P)).
Qed.

(** C5: whenever [fw_img_process] reports [FW_IMG_STATUS_DATA_READY], the
    very next call is [cs40l25_write_block] on the address, the buffer and
    the length of the boot state the parser left behind; and when the
    write answers anything but [CS40L25_STATUS_FAIL] (success included)
    the call after that is [fw_img_process] again, entered with the same
    [fw_img], the same [write_size] and that same boot state, chunk
    pointer and chunk size included.  The first part reads this off the
    trace of any run, where only the fuel of the model can cut a run
    between the write and the next parser call; the second part is the
    same fact for two passes of the loop, where no fuel is missing. *)
Theorem ready_block_is_written fuel cal_boot (w : World) :
  (forall pre fw_img write_size bi bo post,
     snd (bsp_dut_boot P C fuel cal_boot w)
     = pre ++ Ev_process fw_img write_size bi bo (FW_IMG_STATUS_DATA_READY P)
           :: post ->
     exists r post',
       post = Ev_write_block (block_addr (block bo)) (block_data bo)
                             (block_size (block bo)) r :: post' /\
       (r <> CS40L25_STATUS_FAIL P ->
        (exists bo' ret' post'',
           post' = Ev_process fw_img write_size bo bo' ret' :: post'') \/
        (post' = [] /\
         exists w', fst (bsp_dut_boot P C fuel cal_boot w) = OutOfFuel w'))) /\
  (forall n fw_img fw_img_end write_size (w1 : World) x1 bs1 x2 r,
     fw_img < fw_img_end ->
     fw_img_process C (ext w1) (boot_state w1)
       = (x1, bs1, FW_IMG_STATUS_DATA_READY P) ->
     cs40l25_write_block C x1 (block_addr (block bs1)) (block_data bs1)
                         (block_size (block bs1)) = (x2, r) ->
     r <> CS40L25_STATUS_FAIL P ->
     exists bo' ret' tr,
       snd (boot_loop P C (S (S n)) fw_img fw_img_end write_size w1)
       = Ev_process fw_img write_size (boot_state w1) bs1
                    (FW_IMG_STATUS_DATA_READY P)
         :: Ev_write_block (block_addr (block bs1)) (block_data bs1)
                           (block_size (block bs1)) r
         :: Ev_process fw_img write_size bs1 bo' ret' :: tr).
Proof.
  split.
  - intros pre fw_img write_size bi bo post Heq.
    destruct (boot_run_stream _ _ _ _ (bsp_dut_boot_run P C fuel cal_boot w))
      as (l & tr_s & Htr & Hl & Hs).
    rewrite Htr in Heq.
    apply (prefix_split setup_event) in Heq as (pre' & -> & Hts);
      [|done|by intros []].
    destruct Hs as [-> | (w_s & Hs)]; [by destruct pre'|].
    by eapply stream_run_forward.
  - intros n fw_img fw_img_end write_size w1 x1 bs1 x2 r Hlt Hp Hw Hr.
    destruct (boot_loop_first_call n fw_img fw_img_end write_size
                (mk_world x2 (heap w1) bs1 (current_halo_heartbeat w1)) Hlt)
      as (bo' & ret' & tr & Hnext).
    exists bo', ret', tr.
    change (boot_loop P C (S (S n)) fw_img fw_img_end write_size w1)
      with (if fw_img <? fw_img_end
            then match loop_body P C fw_img fw_img_end write_size w1 with
                 | (Continue f' ws' w', evs) =>
                     emit evs (boot_loop P C (S n) f' fw_img_end ws' w')
                 | (Break ret w', evs) => (LoopReturn ret w', evs)
                 end
            else (LoopExit fw_img write_size w1, [])).
    destruct (Z.ltb_spec fw_img fw_img_end); [|lia].
    rewrite (loop_body_ready _ _ _ _ _ _ _ _ Hp Hw Hr), emit_snd, Hnext.
    reflexivity.
Qed.

(** *** The last chunk *)

Section NoData.

Hypothesis nodata_not_ready : FW_IMG_STATUS_NODATA P <> FW_IMG_STATUS_DATA_READY P.
Hypothesis nodata_not_fail : FW_IMG_STATUS_NODATA P <> FW_IMG_STATUS_FAIL P.

Lemma loop_run_nodata_end fw_img_end fw_img0 write_size0 (w : World) lr tr :
  loop_run P C fw_img_end fw_img0 write_size0 w lr tr ->
  forall pre fw_img write_size bi bo post,
    tr = pre ++ Ev_process fw_img write_size bi bo (FW_IMG_STATUS_NODATA P)
                :: post ->
    fw_img_end <= fw_img + write_size ->
    post = [] /\
    exists write_size' w',
      lr = LoopExit (fw_img + write_size) write_size' w' /\
      fw_info (boot_state w') = fw_info bo.
Proof.
  induction 1 as [f ws w Hge | f ws w Hlt | f ws w ret w' evs Hlt Hb
                 | f ws w f' ws' w' evs lr tr Hlt Hb Hl IH];
    intros pre fw_img write_size bi bo post Heq Hend.
  - by destruct pre.
  - by destruct pre.
  - revert Heq. inversion Hb; subst; intros Heq.
    + destruct (cons_split _ _ _ _ _ Heq) as [(-> & He & ->) | (pre' & -> & H')].
      * inversion He; subst. congruence.
      * destruct (cons_split _ _ _ _ _ H') as [(_ & He & _) | (p' & _ & Hn)];
          [discriminate | by destruct p'].
    + destruct (cons_split _ _ _ _ _ Heq) as [(-> & He & ->) | (pre' & -> & H')].
      * inversion He; subst. congruence.
      * by destruct pre'.
  - revert Heq. inversion Hb; subst; intros Heq; simpl in Heq.
    + destruct (cons_split _ _ _ _ _ Heq) as [(-> & He & ->) | (pre' & -> & H')].
      * inversion He; subst. congruence.
      * destruct (cons_split _ _ _ _ _ H') as [(_ & He & _) | (p' & -> & H'')];
          [discriminate|]. by eapply IH.
    + destruct (cons_split _ _ _ _ _ Heq) as [(-> & He & ->) | (pre' & -> & H')].
      * inversion He; subst. inversion Hl; subst; try lia.
        split; [done|]. by eexists _, _.
      * by eapply IH.
    + destruct (cons_split _ _ _ _ _ Heq) as [(-> & He & ->) | (pre' & -> & H')].
      * inversion He; subst. congruence.
      * by eapply IH.
Qed.

Lemma stream_run_nodata_end fw_img0 fw_img_end write_size0 (w : World) out tr :
  stream_run P C fw_img0 fw_img_end write_size0 w out tr ->
  forall pre fw_img write_size bi bo post,
    tr = pre ++ Ev_process fw_img write_size bi bo (FW_IMG_STATUS_NODATA P)
                :: post ->
    fw_img_end <= fw_img + write_size ->
    exists ret w',
      post = [Ev_boot (Some (fw_info bo)) ret] /\ out = Returned ret w'.
Proof.
  destruct 1 as [ret w' tr Hl | w' tr Hl | f' ws' w' tr x ret Hl Hb];
    intros pre fw_img write_size bi bo post Heq Hend.
  - destruct (loop_run_nodata_end _ _ _ _ _ _ Hl _ _ _ _ _ _ Heq Hend)
      as (_ & ws1 & w1 & H & _). discriminate.
  - destruct (loop_run_nodata_end _ _ _ _ _ _ Hl _ _ _ _ _ _ Heq Hend)
      as (_ & ws1 & w1 & H & _). discriminate.
  - destruct (app_split _ _ _ _ _ Heq) as [(mid & Htr & ->) | (pre' & -> & H')].
    + destruct (loop_run_nodata_end _ _ _ _ _ _ Hl _ _ _ _ _ _ Htr Hend)
        as (-> & ws1 & w1 & H & Hfw).
      inversion H; subst. rewrite Hfw. by eexists _, _.
    + destruct (cons_split _ _ _ _ _ H') as [(_ & He & _) | (p' & _ & Hn)];
        [discriminate | by destruct p'].
Qed.

End NoData.

(** C1, as the code has it: the loader has no truncation check.  When
    [fw_img_process] reports [FW_IMG_STATUS_NODATA] on a chunk that
    reaches the end of the image ([fw_img + write_size >= fw_img_end]),
    the loop ends, the next and last call is [cs40l25_boot] on
    [&boot_state.fw_info], and [bsp_dut_boot] returns the status of that
    call. *)
Theorem nodata_on_last_chunk_commits fuel cal_boot (w : World)
        pre fw_img write_size bi bo post :
  FW_IMG_STATUS_NODATA P <> FW_IMG_STATUS_DATA_READY P ->
  FW_IMG_STATUS_NODATA P <> FW_IMG_STATUS_FAIL P ->
  snd (bsp_dut_boot P C fuel cal_boot w)
  = pre ++ Ev_process fw_img write_size bi bo (FW_IMG_STATUS_NODATA P) :: post ->
  snd (select_image P cal_boot) <= fw_img + write_size ->
  exists ret w',
    post = [Ev_boot (Some (fw_info bo)) ret] /\
    fst (bsp_dut_boot P C fuel cal_boot w) = Returned ret w'.
Proof.
  intros Hnr Hnf Heq Hend.
  destruct (boot_run_stream _ _ _ _ (bsp_dut_boot_run P C fuel cal_boot w))
    as (l & tr_s & Htr & Hl & Hs).
  rewrite Htr in Heq.
  apply (prefix_split setup_event) in Heq as (pre' & -> & Hts);
    [|done|by intros []].
  destruct Hs as [-> | (w_s & Hs)]; [by destruct pre'|].
  by eapply stream_run_nodata_end.
Qed.

(** *** The size of the next chunk *)

Lemma to_uint32_small z : 0 <= z < 2 ^ 32 -> to_uint32 z = z.
Proof. intros H. unfold to_uint32. by apply Z.mod_small. Qed.

Lemma to_uint32_range z : 0 <= to_uint32 z < 2 ^ 32.
Proof. unfold to_uint32. apply Z.mod_pos_bound. lia. Qed.

Lemma ptrdiff_lt_uint32_small d z u :
  0 <= z < 2 ^ 32 -> ptrdiff_lt_uint32 d z u = (z <? u).
Proof.
  intros H. unfold ptrdiff_lt_uint32. destruct d; [|done].
  by rewrite to_uint32_small.
Qed.

(** While the loop runs, [write_size] is the standard chunk size or, after
    it was shrunk, exactly what is left of the image. *)
Lemma write_size_invariant fw_img_end fw_img0 (w0 : World) fw_img write_size w :
  fw_img_end - fw_img0 < 2 ^ 32 ->
  loop_reaches P C fw_img_end fw_img0 1024 w0 fw_img write_size w ->
  fw_img0 <= fw_img /\ 0 <= write_size /\
  (write_size = 1024 \/ fw_img_end <= fw_img \/ write_size = fw_img_end - fw_img).
Proof.
  intros Hsize.
  induction 1 as [|f ws w f' ws' w' evs Hr IH Hlt Hb]; [lia|].
  destruct IH as (Hf & Hws & Hinv).
  pose proof (loop_body_spec P C f fw_img_end ws w) as Hs.
  rewrite Hb in Hs. simpl in Hs.
  inversion Hs; subst; try lia.
  set (d := fw_img_end - (f + ws)) in *.
  destruct (Z.lt_ge_cases d 0) as [Hneg | Hpos].
  - pose proof (to_uint32_range d).
    destruct (ptrdiff_lt_uint32 (dm P) d ws); lia.
  - rewrite ptrdiff_lt_uint32_small by lia.
    destruct (Z.ltb_spec d ws); [rewrite to_uint32_small by lia|]; lia.
Qed.

(** C6, as the code has it: when [fw_img_process] reports
    [FW_IMG_STATUS_NODATA] and the chunk just processed lay inside the
    image (so that [fw_img_end - fw_img] is not negative after the
    advance), the next chunk starts right after it and its size is the
    number of bytes that remain when fewer than 1024 remain, and 1024
    otherwise.  This holds in every state the loop of [bsp_dut_boot]
    passes through, for an image smaller than 4 GiB. *)
Theorem next_chunk_is_what_remains fw_img_end fw_img0 (w0 : World)
        fw_img write_size w x1 bs1 :
  FW_IMG_STATUS_NODATA P <> FW_IMG_STATUS_DATA_READY P ->
  FW_IMG_STATUS_NODATA P <> FW_IMG_STATUS_FAIL P ->
  fw_img_end - fw_img0 < 2 ^ 32 ->
  loop_reaches P C fw_img_end fw_img0 1024 w0 fw_img write_size w ->
  fw_img < fw_img_end ->
  fw_img_process C (ext w) (boot_state w) = (x1, bs1, FW_IMG_STATUS_NODATA P) ->
  0 <= fw_img_end - (fw_img + write_size) ->
  let remaining := fw_img_end - (fw_img + write_size) in
  let write_size' := if remaining <? 1024 then remaining else 1024 in
  loop_body P C fw_img fw_img_end write_size w
  = (Continue (fw_img + write_size) write_size'
       (mk_world x1 (heap w) (set_chunk bs1 (fw_img + write_size) write_size')
                 (current_halo_heartbeat w)),
     [Ev_process fw_img write_size (boot_state w) bs1 (FW_IMG_STATUS_NODATA P)]).
Proof.
  intros Hnr Hnf Hsize Hreach Hlt Hp Hrem remaining write_size'.
  destruct (write_size_invariant _ _ _ _ _ _ Hsize Hreach) as (Hf & Hws & Hinv).
  unfold loop_body. rewrite Hp.
  destruct (Z.eqb_spec (FW_IMG_STATUS_NODATA P) (FW_IMG_STATUS_DATA_READY P));
    [done|].
  destruct (Z.eqb_spec (FW_IMG_STATUS_NODATA P) (FW_IMG_STATUS_FAIL P)); [done|].
  rewrite Z.eqb_refl. fold remaining.
  assert (Hws' : (if ptrdiff_lt_uint32 (dm P) remaining write_size
                  then to_uint32 remaining else write_size) = write_size').
  { unfold write_size'. rewrite ptrdiff_lt_uint32_small by (unfold remaining; lia).
    destruct (Z.ltb_spec remaining write_size) as [H1 | H1];
      destruct (Z.ltb_spec remaining 1024) as [H2 | H2];
      rewrite ?to_uint32_small by (unfold remaining in *; lia);
      unfold remaining in *; lia. }
  by rewrite Hws'.
Qed.

(** *** Release of the buffers *)

Lemma free_if_set_keep p (h : Heap C) :
  free_if_set C p h = (foldl (bsp_free C) h (keep p), map Ev_free (keep p)).
Proof. unfold free_if_set, keep. by destruct (p =? NULL). Qed.

Lemma free_previous_retained (bs : boot_state_t C) (h : Heap C) :
  free_previous C bs h
  = (foldl (bsp_free C) h (retained bs), map Ev_free (retained bs)).
Proof.
  unfold free_previous, retained. rewrite !free_if_set_keep.
  by rewrite !foldl_app, !map_app.
Qed.

Lemma stream_run_no_free fw_img fw_img_end write_size (w : World) out tr :
  stream_run P C fw_img fw_img_end write_size w out tr ->
  Forall (fun e => is_free e = false) tr.
Proof.
  intros Hs. apply stream_run_quiet in Hs.
  eapply Forall_impl; [exact Hs|]. by intros e (_ & _ & H).
Qed.

Lemma header_run_no_free fw_img fw_img_end (w : World) out tr :
  header_run P C fw_img fw_img_end w out tr ->
  exists bs1 ret rest,
    tr = Ev_read_header (boot_state w) bs1 ret :: rest /\
    Forall (fun e => is_free e = false) rest.
Proof.
  destruct 1 as [x1 bs1 ret Hh Hr | x1 bs1 out tr Hh Ha].
  - by eexists _, _, [].
  - eexists _, _, _. split; [done|].
    destruct Ha as [h2 H1 | h2 p1 h3 H1 Hp1 H2 | h2 p1 h3 p2 h4 H1 Hp1 H2 Hp2 H3
                   | h2 p1 h3 p2 h4 p3 out tr2 H1 Hp1 H2 Hp2 H3 Hp3 Hs];
      repeat constructor.
    by eapply stream_run_no_free.
Qed.

Section Ownership.

Variable live : Heap C -> gset Z.
Variable others : gset Z.
Hypothesis laws : allocator_laws live.
Hypothesis frame : @parser_keeps_buffers C.

Lemma tracked_frame (w w' : World) :
  heap w' = heap w -> buffers (boot_state w') = buffers (boot_state w) ->
  tracked live others w -> tracked live others w'.
Proof.
  unfold tracked, retained, buffers. intros -> Hb. inversion Hb as [[H1 H2 H3]].
  by rewrite H1, H2, H3.
Qed.

Lemma release_all (ps : list Z) (h : Heap C) :
  NoDup ps -> (forall p, p ∈ ps -> p ∉ others) ->
  live h = list_to_set ps ∪ others ->
  live (foldl (bsp_free C) h ps) = others.
Proof.
  revert h. induction ps as [|p ps IH]; intros h Hnd Hout Hlive; simpl.
  - rewrite Hlive. set_solver.
  - apply NoDup_cons in Hnd as [Hp Hnd]. apply IH; [done | set_solver |].
    rewrite (free_live _ laws) by (rewrite Hlive; set_solver).
    rewrite Hlive. simpl.
    assert (p ∉ others) by (apply Hout; set_solver).
    assert (p ∉ (list_to_set ps : gset Z)) by (by rewrite elem_of_list_to_set).
    set_solver.
Qed.

Lemma body_spec_frame fw_img fw_img_end write_size (w : World) s evs :
  body_spec P C fw_img fw_img_end write_size w s evs ->
  let w' := match s with Continue _ _ w' => w' | Break _ w' => w' end in
  heap w' = heap w /\ buffers (boot_state w') = buffers (boot_state w).
Proof.
  destruct frame as [_ Hk].
  destruct 1 as [x1 bs1 x2 Hp Hw | x1 bs1 x2 r Hp Hw Hr | x1 bs1 Hp Hd
                | x1 bs1 ws' Hp Hd Hf Hws | x1 bs1 ret Hp Hd Hf Hn];
    simpl; (split; [done|]); exact (Hk _ _ _ _ _ Hp).
Qed.

Lemma loop_run_frame fw_img_end fw_img write_size (w : World) lr tr :
  loop_run P C fw_img_end fw_img write_size w lr tr ->
  let w' := match lr with
            | LoopExit _ _ w' => w' | LoopReturn _ w' => w' | LoopFuel w' => w'
            end in
  heap w' = heap w /\ buffers (boot_state w') = buffers (boot_state w).
Proof.
  induction 1 as [f ws w Hge | f ws w Hlt | f ws w ret w' evs Hlt Hb
                 | f ws w f' ws' w' evs lr tr Hlt Hb Hl IH]; simpl; try done.
  - by apply body_spec_frame in Hb.
  - apply body_spec_frame in Hb. simpl in *.
    destruct Hb as [H1 H2], IH as [H3 H4]. split; congruence.
Qed.

Lemma stream_run_tracked fw_img fw_img_end write_size (w : World) out tr :
  stream_run P C fw_img fw_img_end write_size w out tr ->
  tracked live others w -> tracked live others (final_world out).
Proof.
  destruct 1 as [ret w' tr Hl | w' tr Hl | f' ws' w' tr x ret Hl Hb];
    apply loop_run_frame in Hl as [Hh Hbuf]; simpl in *;
    by apply tracked_frame.
Qed.

Lemma alloc_run_tracked fw_img fw_img_end (w : World) out tr :
  alloc_run P C fw_img fw_img_end w out tr ->
  buffers (boot_state w) = (NULL, NULL, NULL) ->
  live (heap w) = others ->
  tracked live others (final_world out).
Proof.
  intros Ha Hb Hlive. unfold buffers in Hb. injection Hb as Hs Hg Hd.
  destruct Ha as [h1 H1 | h1 p1 h2 H1 Hp1 H2 | h1 p1 h2 p2 h3 H1 Hp1 H2 Hp2 H3
                 | h1 p1 h2 p2 h3 p3 out tr H1 Hp1 H2 Hp2 H3 Hp3 Hst].
  - apply (malloc_null _ laws) in H1.
    unfold tracked, retained; simpl. rewrite Hg, Hd, H1, Hlive. simpl.
    split; [set_solver|]. split; [constructor | set_solver].
  - apply (malloc_fresh _ laws) in H1 as [Hf1 H1]; [|done].
    apply (malloc_null _ laws) in H2.
    unfold tracked, retained, keep; simpl. rewrite Hd, H2, H1, Hlive.
    destruct (Z.eqb_spec p1 NULL); [done|]. simpl.
    split; [set_solver|]. split; [apply NoDup_singleton|].
    intros p Hp. apply list_elem_of_singleton in Hp as ->. by rewrite <- Hlive.
  - apply (malloc_fresh _ laws) in H1 as [Hf1 H1]; [|done].
    apply (malloc_fresh _ laws) in H2 as [Hf2 H2]; [|done].
    apply (malloc_null _ laws) in H3.
    unfold tracked, retained, keep; simpl. rewrite H3, H2, H1, Hlive in *.
    destruct (Z.eqb_spec p1 NULL); [done|].
    destruct (Z.eqb_spec p2 NULL); [done|]. simpl.
    split; [set_solver|]. split.
    + apply NoDup_cons. split; [set_solver | apply NoDup_singleton].
    + set_solver.
  - apply (stream_run_tracked _ _ _ _ _ _ Hst).
    apply (malloc_fresh _ laws) in H1 as [Hf1 H1]; [|done].
    apply (malloc_fresh _ laws) in H2 as [Hf2 H2]; [|done].
    apply (malloc_fresh _ laws) in H3 as [Hf3 H3]; [|done].
    unfold tracked, retained, keep; simpl. rewrite H3, H2, H1, Hlive in *.
    destruct (Z.eqb_spec p1 NULL); [done|].
    destruct (Z.eqb_spec p2 NULL); [done|].
    destruct (Z.eqb_spec p3 NULL); [done|]. simpl.
    split; [set_solver|]. split.
    + apply NoDup_cons. split; [set_solver|].
      apply NoDup_cons. split; [set_solver | apply NoDup_singleton].
    + set_solver.
Qed.

Lemma header_run_tracked fw_img fw_img_end (w : World) out tr :
  header_run P C fw_img fw_img_end w out tr ->
  buffers (boot_state w) = (NULL, NULL, NULL) ->
  live (heap w) = others ->
  tracked live others (final_world out).
Proof.
  destruct frame as [Hfr _].
  destruct 1 as [x1 bs1 ret Hh Hr | x1 bs1 out tr Hh Ha]; intros Hb Hlive.
  - apply Hfr in Hh. rewrite Hb in Hh. unfold buffers in Hh.
    injection Hh as Hs Hg Hd.
    unfold tracked, retained; simpl. rewrite Hs, Hg, Hd, Hlive. simpl.
    split; [set_solver|]. split; [constructor | set_solver].
  - apply Hfr in Hh. rewrite Hb in Hh.
    by apply (alloc_run_tracked _ _ _ _ _ Ha).
Qed.

Lemma boot_run_tracked cal_boot (w : World) out tr :
  boot_run P C cal_boot w out tr ->
  tracked live others w -> tracked live others (final_world out).
Proof.
  destruct 1 as [x1 r Hb Hne | x1 h1 released out tr0 Hb Hf Hh]; intros Ht.
  - by apply (tracked_frame w).
  - apply (header_run_tracked _ _ _ _ _ Hh); [done|]. simpl.
    rewrite free_previous_retained in Hf. inversion Hf; subst.
    destruct Ht as (Hlive & Hnd & Hout). by apply release_all.
Qed.

Lemma boot_attempts_tracked attempts (w : World) :
  tracked live others w -> tracked live others (boot_attempts P C attempts w).
Proof.
  revert w. induction attempts as [|[fuel cal_boot] attempts IH]; intros w Ht;
    simpl; [done|].
  apply IH. eapply boot_run_tracked; [apply bsp_dut_boot_run | done].
Qed.

End Ownership.

(** C8: an attempt releases buffers only at its start.  After
    [cs40l25_boot(NULL)] has answered OK it frees exactly the non-NULL
    buffers the previous attempt left in the boot state, zeroes the boot
    state, and only then decodes the header; no other call of the attempt
    is a [bsp_free], on any return path.  With an allocator that returns
    fresh blocks and a parser that leaves the three pointers alone, the
    live blocks stay, after one attempt and after any sequence of
    attempts, the buffers the boot state points to plus the blocks of the
    rest of the program: a failed attempt keeps its buffers and nothing
    is leaked. *)
Theorem buffers_released_by_next_boot
        (live : Heap C -> gset Z) (others : gset Z) fuel cal_boot (w : World) :
  allocator_laws live ->
  @parser_keeps_buffers C ->
  tracked live others w ->
  (exists ret rest,
     snd (bsp_dut_boot P C fuel cal_boot w)
     = Ev_boot None ret
         :: map Ev_free (if ret =? CS40L25_STATUS_OK P
                         then retained (boot_state w) else [])
         ++ rest /\
     Forall (fun e => is_free e = false) rest /\
     (ret = CS40L25_STATUS_OK P ->
      exists bs1 ret1 rest',
        rest = Ev_memset
                 :: Ev_read_header
                      (set_chunk (boot_state_zero C)
                                 (fst (select_image P cal_boot)) 1024)
                      bs1 ret1
                 :: rest')) /\
  tracked live others (final_world (fst (bsp_dut_boot P C fuel cal_boot w))) /\
  (forall attempts, tracked live others (boot_attempts P C attempts w)).
Proof.
  intros Hlaws Hframe Ht.
  pose proof (bsp_dut_boot_run P C fuel cal_boot w) as Hr.
  split; [|split; [by eapply boot_run_tracked
                  |intros attempts; by apply boot_attempts_tracked]].
  destruct Hr as [x1 r Hb Hne | x1 h1 released out tr0 Hb Hf Hh].
  - exists r, []. destruct (Z.eqb_spec r (CS40L25_STATUS_OK P)); [done|].
    split; [done|]. split; [constructor | done].
  - rewrite free_previous_retained in Hf. inversion Hf; subst.
    apply header_run_no_free in Hh as (bs1 & ret1 & rest' & -> & Hnf).
    eexists _, _. rewrite Z.eqb_refl. split; [done|]. split.
    + by repeat constructor.
    + intros _. by eexists _, _, _.
Qed.

(** C4: every error of a boot attempt is terminal.  Whenever a run logs a
    failed header decode, an allocation that returned NULL, a block write
    answered with [CS40L25_STATUS_FAIL] or a parser step answered with
    [FW_IMG_STATUS_FAIL], that call is the last one the run makes (no
    retry, nothing after it), the function has returned
    [BSP_STATUS_FAIL], and the trace holds no commit. *)
Theorem errors_are_terminal fuel cal_boot (w : World) pre e post :
  FW_IMG_STATUS_FAIL P <> FW_IMG_STATUS_DATA_READY P ->
  snd (bsp_dut_boot P C fuel cal_boot w) = pre ++ e :: post ->
  is_error P e ->
  post = [] /\
  (exists w', fst (bsp_dut_boot P C fuel cal_boot w)
              = Returned BSP_STATUS_FAIL w') /\
  count_events is_commit (snd (bsp_dut_boot P C fuel cal_boot w)) = O.
Proof.
  intros Hd Heq He.
  pose proof (boot_run_verdict Hd _ _ _ _ (bsp_dut_boot_run P C fuel cal_boot w))
    as [Hc | (Hl & Hout & Hn)].
  - exfalso. rewrite Heq in Hc. apply Forall_app in Hc as [_ Hc].
    inversion Hc; subst. contradiction.
  - split; [by eapply fails_last_position | done].
Qed.

(** C9: the first thing [bsp_dut_boot] does is call [cs40l25_boot] with a
    NULL firmware-info pointer, on the external state it was entered with;
    when that call answers anything but [CS40L25_STATUS_OK] the function
    returns that status at once, with the boot state, the allocator and
    the heartbeat exactly as they were. *)
Theorem boot_informs_driver_first fuel cal_boot (w : World) x1 ret :
  cs40l25_boot C (ext w) None = (x1, ret) ->
  (exists tr, snd (bsp_dut_boot P C fuel cal_boot w) = Ev_boot None ret :: tr) /\
  (ret <> CS40L25_STATUS_OK P ->
   bsp_dut_boot P C fuel cal_boot w
   = (Returned ret
        (mk_world x1 (heap w) (boot_state w) (current_halo_heartbeat w)),
      [Ev_boot None ret])).
Proof.
  intros Hb. unfold bsp_dut_boot.
  destruct (select_image P cal_boot) as [fw_img fw_img_end].
  rewrite Hb. split.
  - rewrite emit_snd. simpl. eauto.
  - intros Hr. destruct (Z.eqb_spec ret (CS40L25_STATUS_OK P)); [done|].
    reflexivity.
Qed.

(** C10: [bsp_dut_update_haptic_config] guards the index with
    [config_index > 2], so index 2, which is not an element of the
    two-entry array, passes the guard and the array is read out of
    bounds; only indices above 2 are answered with [BSP_STATUS_FAIL]
    without a read. *)
Theorem haptic_index_two_passes_guard (x : Ext C) :
  cs40l25_haptic_configs !! 2%nat = None /\
  bsp_dut_update_haptic_config P C 2 x = HapticOutOfBounds 2 /\
  (forall i, 2 < i ->
     bsp_dut_update_haptic_config P C i x = HapticReturned BSP_STATUS_FAIL x).
Proof.
  split; [done|]. split; [done|].
  intros i Hi. unfold bsp_dut_update_haptic_config.
  change (Z.of_nat (length cs40l25_haptic_configs)) with 2.
  destruct (Z.gtb_spec i 2) as [_ | Hle]; [reflexivity | lia].
Qed.

Lemma haptic_index_in_bounds (x : Ext C) i cfg :
  cs40l25_haptic_configs !! Z.to_nat i = Some cfg -> 0 <= i ->
  bsp_dut_update_haptic_config P C i x
  = HapticReturned
      (if snd (cs40l25_update_haptic_config C x cfg) =? CS40L25_STATUS_OK P
       then BSP_STATUS_OK else BSP_STATUS_FAIL)
      (fst (cs40l25_update_haptic_config C x cfg)).
Proof.
  intros Hcfg Hi. unfold bsp_dut_update_haptic_config.
  apply lookup_lt_Some in Hcfg as Hlen. simpl in Hlen.
  change (Z.of_nat (length cs40l25_haptic_configs)) with 2.
  destruct (Z.gtb_spec i 2); [lia|].
  rewrite Hcfg. by destruct (cs40l25_update_haptic_config C x cfg).
Qed.

End Properties.

(** ** The properties on the scripted collaborators *)

Lemma errors_are_terminal_witness :
  let P := Demo.platform ILP32 2048 in
  let run := bsp_dut_boot P Demo.collab 5 false
               (Demo.fresh_world Demo.parser_fails) in
  (FW_IMG_STATUS_FAIL P <> FW_IMG_STATUS_DATA_READY P /\
   snd run = removelast (snd run) ++ [List.last (snd run) Ev_memset] /\
   is_error P (List.last (snd run) Ev_memset)) /\
  (exists w', fst run = Returned BSP_STATUS_FAIL w') /\
  count_events is_commit (snd run) = O.
Proof.
  intros P run.
  assert (Hd : FW_IMG_STATUS_FAIL P <> FW_IMG_STATUS_DATA_READY P)
    by (vm_compute; discriminate).
  assert (Heq : snd run = removelast (snd run) ++ [List.last (snd run) Ev_memset])
    by (vm_compute; reflexivity).
  assert (He : is_error P (List.last (snd run) Ev_memset))
    by (vm_compute; reflexivity).
  split; [exact (conj Hd (conj Heq He))|].
  exact (proj2 (errors_are_terminal P Demo.collab 5 false
                  (Demo.fresh_world Demo.parser_fails) _ _ _ Hd Heq He)).
Defined.

Lemma boot_informs_driver_first_witness :
  let P := Demo.platform ILP32 2048 in
  let w := Demo.fresh_world Demo.driver_busy in
  (cs40l25_boot Demo.collab (ext w) None = (Demo.driver_busy, 1) /\
   1 <> CS40L25_STATUS_OK P) /\
  bsp_dut_boot P Demo.collab 5 false w
  = (Returned 1 (mk_world (C:=Demo.collab) Demo.driver_busy (heap w)
                          (boot_state w) (current_halo_heartbeat w)),
     [Ev_boot None 1]).
Proof.
  intros P w.
  assert (Hb : cs40l25_boot Demo.collab (ext w) None = (Demo.driver_busy, 1))
    by reflexivity.
  assert (Hr : 1 <> CS40L25_STATUS_OK P) by (vm_compute; discriminate).
  split; [exact (conj Hb Hr)|].
  exact (proj2 (boot_informs_driver_first P Demo.collab 5 false w _ _ Hb) Hr).
Defined.

Lemma commit_once_and_status_witness :
  let P := Demo.platform ILP32 2048 in
  let run := bsp_dut_boot P Demo.collab 10 false
               (Demo.fresh_world Demo.two_blocks) in
  (run = (Returned 0 (final_world (fst run)), snd run) /\
   snd run = Ev_boot None (CS40L25_STATUS_OK P) :: tail (snd run) /\
   clean P (snd run)) /\
  count_events is_commit (snd run) = 1%nat /\
  last (snd run)
  = Some (Ev_boot (Some (fw_info (boot_state (final_world (fst run))))) 0).
Proof.
  intros P run.
  assert (Hrun : run = (Returned 0 (final_world (fst run)), snd run))
    by (vm_compute; reflexivity).
  assert (Hstart : snd run = Ev_boot None (CS40L25_STATUS_OK P) :: tail (snd run))
    by (vm_compute; reflexivity).
  assert (Hclean : clean P (snd run)).
  { vm_compute.
    repeat (constructor;
            [cbn; try tauto; try discriminate; try (intros H; by apply H)|]).
    constructor. }
  split; [exact (conj Hrun (conj Hstart Hclean))|].
  exact (commit_once_and_status P Demo.collab 10 false
           (Demo.fresh_world Demo.two_blocks) _ _ _ _ Hrun Hstart Hclean).
Defined.

Lemma header_before_buffers_before_blocks_witness :
  let P := Demo.platform ILP32 2048 in
  let tr := snd (bsp_dut_boot P Demo.collab 10 false
                   (Demo.fresh_world Demo.two_blocks)) in
  (tr = take 7 tr ++ Ev_write_block 4096 536870915 8 0 :: drop 8 tr) /\
  Exists (fun e => header_ok e = true) (take 3 tr) /\
  count_events alloc_ok (take 7 tr) = 3%nat.
Proof.
  intros P tr.
  assert (Hw : tr = take 7 tr ++ Ev_write_block 4096 536870915 8 0 :: drop 8 tr)
    by (vm_compute; reflexivity).
  assert (Hm : tr = take 3 tr ++ Ev_malloc 16 536870913 :: drop 4 tr)
    by (vm_compute; reflexivity).
  split; [exact Hw|]. split.
  - exact (proj1 (header_before_buffers_before_blocks P Demo.collab 10 false
                    (Demo.fresh_world Demo.two_blocks) _ _ _ Hm) eq_refl).
  - exact (proj2 (header_before_buffers_before_blocks P Demo.collab 10 false
                    (Demo.fresh_world Demo.two_blocks) _ _ _ Hw) eq_refl).
Defined.



Lemma ready_block_is_written_witness :
  let P := Demo.platform ILP32 2048 in
  let tr := snd (bsp_dut_boot P Demo.collab 10 false
                   (Demo.fresh_world Demo.two_blocks)) in
  tr = take 6 tr
       ++ Ev_process 134283264 1024 (Demo.nth_in tr 6) (Demo.nth_out tr 6)
                     (FW_IMG_STATUS_DATA_READY P)
       :: drop 7 tr /\
  exists r post',
    drop 7 tr = Ev_write_block 4096 536870915 8 r :: post' /\
    (r <> CS40L25_STATUS_FAIL P ->
     (exists bo' ret' post'',
        post' = Ev_process 134283264 1024 (Demo.nth_out tr 6) bo' ret' :: post'')
     \/ (post' = [] /\
         exists w', fst (bsp_dut_boot P Demo.collab 10 false
                           (Demo.fresh_world Demo.two_blocks)) = OutOfFuel w')).
Proof.
  intros P tr.
  assert (Heq : tr = take 6 tr
                     ++ Ev_process 134283264 1024 (Demo.nth_in tr 6)
                          (Demo.nth_out tr 6) (FW_IMG_STATUS_DATA_READY P)
                     :: drop 7 tr)
    by (vm_compute; reflexivity).
  split; [exact Heq|].
  exact (proj1 (ready_block_is_written P Demo.collab 10 false
                  (Demo.fresh_world Demo.two_blocks)) _ _ _ _ _ _ Heq).
Defined.

(** C1 fails on the code: an image that ends while the parser still asks
    for input is committed and the boot reports success. *)
Lemma truncated_image_is_committed :
  let P := Demo.platform ILP32 1024 in
  let run := bsp_dut_boot P Demo.collab 10 false
               (Demo.fresh_world Demo.truncated) in
  process_calls (snd run)
  = [(cs40l25_fw_img P, 1024, FW_IMG_STATUS_DATA_READY P);
     (cs40l25_fw_img P, 1024, FW_IMG_STATUS_NODATA P)] /\
  cs40l25_fw_img P + 1024 = snd (select_image P false) /\
  status_of (fst run) = Some BSP_STATUS_OK /\
  count_events is_commit (snd run) = 1%nat.
Proof. intros P run. by vm_compute. Qed.

Lemma nodata_on_last_chunk_commits_witness :
  let P := Demo.platform ILP32 1024 in
  let run := bsp_dut_boot P Demo.collab 10 false
               (Demo.fresh_world Demo.truncated) in
  let tr := snd run in
  (FW_IMG_STATUS_NODATA P <> FW_IMG_STATUS_DATA_READY P /\
   FW_IMG_STATUS_NODATA P <> FW_IMG_STATUS_FAIL P /\
   tr = take 8 tr
        ++ Ev_process 134283264 1024 (Demo.nth_in tr 8) (Demo.nth_out tr 8)
                      (FW_IMG_STATUS_NODATA P)
        :: drop 9 tr /\
   snd (select_image P false) <= 134283264 + 1024) /\
  exists ret w',
    drop 9 tr = [Ev_boot (Some (fw_info (Demo.nth_out tr 8))) ret] /\
    fst run = Returned ret w'.
Proof.
  intros P run tr.
  assert (H1 : FW_IMG_STATUS_NODATA P <> FW_IMG_STATUS_DATA_READY P)
    by (vm_compute; discriminate).
  assert (H2 : FW_IMG_STATUS_NODATA P <> FW_IMG_STATUS_FAIL P)
    by (vm_compute; discriminate).
  assert (H3 : tr = take 8 tr
                    ++ Ev_process 134283264 1024 (Demo.nth_in tr 8)
                         (Demo.nth_out tr 8) (FW_IMG_STATUS_NODATA P)
                    :: drop 9 tr)
    by (vm_compute; reflexivity).
  assert (H4 : snd (select_image P false) <= 134283264 + 1024)
    by (vm_compute; discriminate).
  split; [exact (conj H1 (conj H2 (conj H3 H4)))|].
  exact (nodata_on_last_chunk_commits P Demo.collab 10 false
           (Demo.fresh_world Demo.truncated) _ _ _ _ _ _ H1 H2 H3 H4).
Defined.

(** C6 fails on the code: with an image of 100 bytes the first chunk
    already reaches past the end; after the advance [fw_img_end - fw_img]
    is -924, fewer than 1024, and the next chunk size is 1024 under ILP32
    and 4294966372 under LP64, not what remains. *)
Lemma chunk_size_past_the_image :
  let run d := bsp_dut_boot (Demo.platform d 100) Demo.collab 10 false
                 (Demo.fresh_world Demo.wants_more) in
  let after d := boot_state (final_world (fst (run d))) in
  process_calls (snd (run ILP32)) = [(134283264, 1024, 2)] /\
  process_calls (snd (run LP64)) = [(134283264, 1024, 2)] /\
  snd (select_image (Demo.platform ILP32 100) false) - (134283264 + 1024) = -924 /\
  fw_img_blocks (after ILP32) = 134283264 + 1024 /\
  fw_img_blocks_size (after ILP32) = 1024 /\
  fw_img_blocks_size (after LP64) = 4294966372.
Proof. intros run after. by vm_compute. Qed.

Lemma next_chunk_is_what_remains_witness :
  let P := Demo.platform ILP32 1500 in
  let w := Demo.fresh_world Demo.wants_more in
  let fw_img := 134283264 in
  let fw_img_end := 134283264 + 1500 in
  (fw_img < fw_img_end /\ 0 <= fw_img_end - (fw_img + 1024)) /\
  fst (loop_body P Demo.collab fw_img fw_img_end 1024 w)
  = Continue (fw_img + 1024) 476
      (mk_world (C:=Demo.collab)
         (fst (fst (fw_img_process Demo.collab (ext w) (boot_state w))))
         (heap w)
         (set_chunk (snd (fst (fw_img_process Demo.collab (ext w) (boot_state w))))
                    (fw_img + 1024) 476)
         (current_halo_heartbeat w)).
Proof.
  intros P w fw_img fw_img_end.
  assert (H1 : FW_IMG_STATUS_NODATA P <> FW_IMG_STATUS_DATA_READY P)
    by (vm_compute; discriminate).
  assert (H2 : FW_IMG_STATUS_NODATA P <> FW_IMG_STATUS_FAIL P)
    by (vm_compute; discriminate).
  assert (H3 : fw_img_end - fw_img < 2 ^ 32) by (vm_compute; reflexivity).
  assert (H4 : fw_img < fw_img_end) by (vm_compute; reflexivity).
  assert (H5 : fw_img_process Demo.collab (ext w) (boot_state w)
               = (fst (fst (fw_img_process Demo.collab (ext w) (boot_state w))),
                  snd (fst (fw_img_process Demo.collab (ext w) (boot_state w))),
                  FW_IMG_STATUS_NODATA P))
    by (vm_compute; reflexivity).
  assert (H6 : 0 <= fw_img_end - (fw_img + 1024)) by (vm_compute; discriminate).
  split; [exact (conj H4 H6)|].
  exact (f_equal fst
           (next_chunk_is_what_remains P Demo.collab fw_img_end fw_img w
              fw_img 1024 w _ _ H1 H2 H3
              (reaches_start P Demo.collab fw_img_end fw_img 1024 w) H4 H5 H6)).
Defined.

(** The scripted allocator and parser meet the assumptions of C8. *)

Lemma demo_top_bound h p : p ∈ h -> p <= Demo.top h.
Proof.
  unfold Demo.top. induction h as [|q h IH]; simpl; [by intros ?%elem_of_nil|].
  intros [-> | Hp]%elem_of_cons; [lia|]. specialize (IH Hp). lia.
Qed.

Lemma demo_top_ge h : 536870912 <= Demo.top h.
Proof. unfold Demo.top. induction h as [|q h IH]; simpl; lia. Qed.

Lemma demo_release_live h p : Demo.live (Demo.release h p) = Demo.live h ∖ {[p]}.
Proof.
  unfold Demo.live. induction h as [|q h IH]; simpl; [set_solver|].
  destruct (Z.eqb_spec q p) as [-> | Hne]; simpl; rewrite IH; set_solver.
Qed.

Lemma demo_allocator_laws : @allocator_laws Demo.collab Demo.live.
Proof.
  split; simpl.
  - intros h n h'. unfold Demo.malloc.
    destruct ((n <=? 0) || (65536 <? n)); intros H; inversion H; subst; [done|].
    pose proof (demo_top_ge h). unfold NULL in *. lia.
  - intros h n h' p. unfold Demo.malloc.
    destruct ((n <=? 0) || (65536 <? n)); intros H Hp; inversion H; subst;
      [done|].
    split; [|done]. unfold Demo.live. rewrite elem_of_list_to_set.
    intros Hin%demo_top_bound. lia.
  - intros h p _. apply demo_release_live.
Qed.

Lemma demo_parser_keeps_buffers : @parser_keeps_buffers Demo.collab.
Proof.
  split; simpl; intros x bs x' bs' ret.
  - unfold Demo.read_header. intros H. by inversion H.
  - unfold Demo.process. destruct (Demo.script x) as [|[[st a] n] rest];
      intros H; by inversion H.
Qed.

Lemma demo_fresh_tracked (x : Demo.ext) :
  tracked (C:=Demo.collab) Demo.live ∅ (Demo.fresh_world x).
Proof.
  unfold tracked, Demo.live. simpl. split; [set_solver|].
  split; [constructor | set_solver].
Qed.

Lemma buffers_released_by_next_boot_witness :
  let P := Demo.platform ILP32 2048 in
  let w := final_world (fst (bsp_dut_boot P Demo.collab 10 false
                               (Demo.fresh_world Demo.two_blocks))) in
  tracked (C:=Demo.collab) Demo.live ∅ w /\
  frees (snd (bsp_dut_boot P Demo.collab 10 true w))
  = [536870913; 536870914; 536870915] /\
  tracked (C:=Demo.collab) Demo.live ∅
          (final_world (fst (bsp_dut_boot P Demo.collab 10 true w))).
Proof.
  intros P w.
  assert (Hw : tracked (C:=Demo.collab) Demo.live ∅ w).
  { exact (proj1 (proj2
             (buffers_released_by_next_boot P Demo.collab Demo.live ∅ 10 false
                (Demo.fresh_world Demo.two_blocks) demo_allocator_laws
                demo_parser_keeps_buffers (demo_fresh_tracked _)))). }
  split; [exact Hw|]. split; [vm_compute; reflexivity|].
  exact (proj1 (proj2
           (buffers_released_by_next_boot P Demo.collab Demo.live ∅ 10 true
              w demo_allocator_laws demo_parser_keeps_buffers Hw))).
Defined.

(** ** The byte macros *)

Lemma testbit_255 n : Z.testbit 255 n = (0 <=? n) && (n <? 8).
Proof.
  destruct (Z.leb_spec 0 n) as [Hn | Hn]; simpl.
  - change 255 with (Z.ones 8). by apply Z.testbit_ones_nonneg.
  - by apply Z.testbit_neg_r.
Qed.

Lemma testbit_high_mask n :
  Z.testbit 4294967040 n = (8 <=? n) && (n <? 32).
Proof.
  destruct (Z.leb_spec 0 n) as [Hn | Hn].
  - change 4294967040 with (Z.shiftl (Z.ones 24) 8).
    rewrite Z.shiftl_spec by done.
    destruct (Z.leb_spec 8 n) as [H8 | H8]; simpl.
    + rewrite Z.testbit_ones_nonneg by lia.
      destruct (Z.ltb_spec (n - 8) 24), (Z.ltb_spec n 32); (done || (exfalso; lia)).
    + apply Z.testbit_neg_r. lia.
  - rewrite Z.testbit_neg_r by done.
    destruct (Z.leb_spec 8 n); [lia | done].
Qed.

Lemma testbit_to_uint32 z n :
  0 <= n -> Z.testbit (to_uint32 z) n = Z.testbit z n && (n <? 32).
Proof.
  intros Hn. unfold to_uint32. destruct (Z.ltb_spec n 32) as [Hlt | Hge].
  - rewrite Z.mod_pow2_bits_low by done. by rewrite andb_true_r.
  - rewrite Z.mod_pow2_bits_high by lia. by rewrite andb_false_r.
Qed.

(** Bit [n] of the word after [ADD_BYTE_TO_WORD(A, B, C)]. *)
Lemma ADD_BYTE_TO_WORD_testbit A B C n :
  0 <= C -> 0 <= n ->
  Z.testbit (ADD_BYTE_TO_WORD A B C) n
  = (Z.testbit A n && (C * 8 + 8 <=? n) && (n <? 32))
    || (Z.testbit B (n - C * 8) && (C * 8 <=? n) && (n <? C * 8 + 8)
        && (n <? 32)).
Proof.
  intros HC Hn. unfold ADD_BYTE_TO_WORD.
  rewrite Z.lor_spec, Z.land_spec, !testbit_to_uint32 by done.
  rewrite !Z.shiftl_spec by done.
  rewrite testbit_high_mask, Z.land_spec, testbit_255.
  destruct (Z.testbit A n), (Z.testbit B (n - C * 8)),
    (Z.leb_spec (C * 8 + 8) n), (Z.ltb_spec n 32), (Z.leb_spec 8 (n - C * 8)),
    (Z.ltb_spec (n - C * 8) 32), (Z.leb_spec 0 (n - C * 8)),
    (Z.ltb_spec (n - C * 8) 8), (Z.leb_spec (C * 8) n),
    (Z.ltb_spec n (C * 8 + 8)); simpl; (done || (exfalso; lia)).
Qed.

Lemma GET_BYTE_FROM_WORD_testbit A B n :
  0 <= B -> 0 <= n ->
  Z.testbit (GET_BYTE_FROM_WORD A B) n = Z.testbit A (n + B * 8) && (n <? 8).
Proof.
  intros HB Hn. unfold GET_BYTE_FROM_WORD.
  rewrite Z.land_spec, Z.shiftr_spec, testbit_255 by done.
  by destruct (Z.leb_spec 0 n); [|lia].
Qed.

Lemma GET_BYTE_FROM_WORD_mod A B :
  0 <= B -> GET_BYTE_FROM_WORD A B = (A / 2 ^ (B * 8)) mod 256.
Proof.
  intros HB. unfold GET_BYTE_FROM_WORD.
  rewrite Z.shiftr_div_pow2 by lia. change 255 with (Z.ones 8).
  by rewrite Z.land_ones.
Qed.

Lemma ADD_BYTE_TO_WORD_range A B C :
  0 <= C -> 0 <= ADD_BYTE_TO_WORD A B C < 2 ^ 32.
Proof.
  intros HC.
  assert (H : ADD_BYTE_TO_WORD A B C = to_uint32 (ADD_BYTE_TO_WORD A B C)).
  { apply Z.bits_inj'. intros n Hn.
    rewrite testbit_to_uint32, ADD_BYTE_TO_WORD_testbit by done.
    destruct (Z.ltb_spec n 32); [by rewrite !andb_true_r|].
    by rewrite !andb_false_r. }
  rewrite H. unfold to_uint32. apply Z.mod_pos_bound. lia.
Qed.

Lemma ADD_BYTE_TO_WORD_get A B C D :
  0 <= C <= 3 -> 0 <= D <= 3 ->
  GET_BYTE_FROM_WORD (ADD_BYTE_TO_WORD A B C) D
  = if D <? C then 0
    else if D =? C then Z.land B 255
    else GET_BYTE_FROM_WORD A D.
Proof.
  intros HC HD. apply Z.bits_inj'. intros n Hn.
  rewrite GET_BYTE_FROM_WORD_testbit, ADD_BYTE_TO_WORD_testbit by lia.
  destruct (Z.ltb_spec D C) as [Hlt | Hge].
  - rewrite Z.bits_0.
    destruct (Z.testbit A (n + D * 8)), (Z.testbit B (n + D * 8 - C * 8)),
      (Z.leb_spec (C * 8 + 8) (n + D * 8)), (Z.ltb_spec (n + D * 8) 32),
      (Z.leb_spec (C * 8) (n + D * 8)), (Z.ltb_spec (n + D * 8) (C * 8 + 8)),
      (Z.ltb_spec n 8); simpl; (done || (exfalso; lia)).
  - destruct (Z.eqb_spec D C) as [-> | Hne].
    + rewrite Z.land_spec, testbit_255.
      replace (n + C * 8 - C * 8) with n by lia.
      destruct (Z.testbit A (n + C * 8)), (Z.testbit B n),
        (Z.leb_spec (C * 8 + 8) (n + C * 8)), (Z.ltb_spec (n + C * 8) 32),
        (Z.leb_spec (C * 8) (n + C * 8)),
        (Z.ltb_spec (n + C * 8) (C * 8 + 8)), (Z.ltb_spec n 8),
        (Z.leb_spec 0 n); simpl; (done || (exfalso; lia)).
    + rewrite GET_BYTE_FROM_WORD_testbit by lia.
      destruct (Z.testbit A (n + D * 8)), (Z.testbit B (n + D * 8 - C * 8)),
        (Z.leb_spec (C * 8 + 8) (n + D * 8)), (Z.ltb_spec (n + D * 8) 32),
        (Z.leb_spec (C * 8) (n + D * 8)), (Z.ltb_spec (n + D * 8) (C * 8 + 8)),
        (Z.ltb_spec n 8); simpl; (done || (exfalso; lia)).
Qed.

(** X1: byte [D] of a word after [ADD_BYTE_TO_WORD(A, B, C)], for byte
    positions 0 to 3: the byte written is the low byte of [B], the bytes
    above it are those of [A], and the bytes below it are cleared (the
    mask [0xFFFFFF00 << (C * 8)] takes them out with the byte
    replaced); the result is a 32-bit word. *)
Theorem ADD_BYTE_TO_WORD_bytes A B C D :
  0 <= C <= 3 -> 0 <= D <= 3 ->
  0 <= ADD_BYTE_TO_WORD A B C < 2 ^ 32 /\
  GET_BYTE_FROM_WORD (ADD_BYTE_TO_WORD A B C) D
  = if D <? C then 0
    else if D =? C then Z.land B 255
    else GET_BYTE_FROM_WORD A D.
Proof.
  intros HC HD. split.
  - apply ADD_BYTE_TO_WORD_range. lia.
  - by apply ADD_BYTE_TO_WORD_get.
Qed.

Lemma ADD_BYTE_TO_WORD_bytes_witness :
  (0 <= 1 <= 3 /\ 0 <= 0 <= 3) /\
  GET_BYTE_FROM_WORD (ADD_BYTE_TO_WORD 287454020 170 1) 0 = 0.
Proof.
  assert (H1 : 0 <= 1 <= 3) by lia.
  assert (H0 : 0 <= 0 <= 3) by lia.
  split; [exact (conj H1 H0)|].
  exact (proj2 (ADD_BYTE_TO_WORD_bytes 287454020 170 1 0 H1 H0)).
Defined.

Lemma GET_BYTE_FROM_WORD_range A B :
  0 <= B -> 0 <= GET_BYTE_FROM_WORD A B <= 255.
Proof.
  intros HB. rewrite GET_BYTE_FROM_WORD_mod by done.
  pose proof (Z.mod_pos_bound (A / 2 ^ (B * 8)) 256). lia.
Qed.

Lemma word_bytes_sum A :
  0 <= A < 2 ^ 32 ->
  A = GET_BYTE_FROM_WORD A 0 + 256 * GET_BYTE_FROM_WORD A 1
      + 65536 * GET_BYTE_FROM_WORD A 2 + 16777216 * GET_BYTE_FROM_WORD A 3.
Proof.
  intros HA. rewrite !GET_BYTE_FROM_WORD_mod by lia.
  change (2 ^ (0 * 8)) with 1. change (2 ^ (1 * 8)) with 256.
  change (2 ^ (2 * 8)) with 65536. change (2 ^ (3 * 8)) with 16777216.
  change (2 ^ 32) with 4294967296 in HA.
  Z.to_euclidean_division_equations. lia.
Qed.

(** X2: a 32-bit word is its four bytes: each [GET_BYTE_FROM_WORD] is a
    value from 0 to 255 and the word is their sum, weighted by position. *)
Theorem word_is_its_bytes A :
  0 <= A < 2 ^ 32 ->
  (forall B, 0 <= B -> 0 <= GET_BYTE_FROM_WORD A B <= 255) /\
  A = GET_BYTE_FROM_WORD A 0 + 256 * GET_BYTE_FROM_WORD A 1
      + 65536 * GET_BYTE_FROM_WORD A 2 + 16777216 * GET_BYTE_FROM_WORD A 3.
Proof.
  intros HA. split.
  - intros B HB. by apply GET_BYTE_FROM_WORD_range.
  - by apply word_bytes_sum.
Qed.

Lemma word_is_its_bytes_witness :
  0 <= 287454020 < 2 ^ 32 /\
  287454020
  = GET_BYTE_FROM_WORD 287454020 0 + 256 * GET_BYTE_FROM_WORD 287454020 1
    + 65536 * GET_BYTE_FROM_WORD 287454020 2
    + 16777216 * GET_BYTE_FROM_WORD 287454020 3.
Proof.
  assert (H : 0 <= 287454020 < 2 ^ 32) by lia.
  split; [exact H|]. exact (proj2 (word_is_its_bytes 287454020 H)).
Defined.

(** X3: four [ADD_BYTE_TO_WORD] from byte 3 down to byte 0 build the word
    with exactly those bytes, whatever the word held before. *)
Theorem word_built_from_bytes A b3 b2 b1 b0 :
  0 <= b3 <= 255 -> 0 <= b2 <= 255 -> 0 <= b1 <= 255 -> 0 <= b0 <= 255 ->
  ADD_BYTE_TO_WORD
    (ADD_BYTE_TO_WORD (ADD_BYTE_TO_WORD (ADD_BYTE_TO_WORD A b3 3) b2 2) b1 1)
    b0 0
  = b0 + 256 * b1 + 65536 * b2 + 16777216 * b3.
Proof.
  intros H3 H2 H1 H0.
  assert (Hbyte : forall b, 0 <= b <= 255 -> Z.land b 255 = b).
  { intros b Hb. change 255 with (Z.ones 8). rewrite Z.land_ones by lia.
    apply Z.mod_small. lia. }
  set (w3 := ADD_BYTE_TO_WORD A b3 3).
  set (w2 := ADD_BYTE_TO_WORD w3 b2 2).
  set (w1 := ADD_BYTE_TO_WORD w2 b1 1).
  set (w0 := ADD_BYTE_TO_WORD w1 b0 0).
  pose proof (ADD_BYTE_TO_WORD_range w1 b0 0 ltac:(lia)) as Hr.
  fold w0 in Hr.
  rewrite (word_bytes_sum w0 Hr).
  unfold w0 at 1 2 3 4.
  rewrite !ADD_BYTE_TO_WORD_get by lia. simpl.
  unfold w1 at 1 2 3. rewrite !ADD_BYTE_TO_WORD_get by lia. simpl.
  unfold w2 at 1 2. rewrite !ADD_BYTE_TO_WORD_get by lia. simpl.
  unfold w3. rewrite !ADD_BYTE_TO_WORD_get by lia. simpl.
  rewrite !Hbyte by done. lia.
Qed.

Lemma word_built_from_bytes_witness :
  (0 <= 18 <= 255 /\ 0 <= 52 <= 255 /\ 0 <= 86 <= 255 /\ 0 <= 120 <= 255) /\
  ADD_BYTE_TO_WORD
    (ADD_BYTE_TO_WORD
       (ADD_BYTE_TO_WORD (ADD_BYTE_TO_WORD 4294967295 18 3) 52 2) 86 1)
    120 0
  = 305419896.
Proof.
  assert (H3 : 0 <= 18 <= 255) by lia.
  assert (H2 : 0 <= 52 <= 255) by lia.
  assert (H1 : 0 <= 86 <= 255) by lia.
  assert (H0 : 0 <= 120 <= 255) by lia.
  split; [exact (conj H3 (conj H2 (conj H1 H0)))|].
  exact (word_built_from_bytes 4294967295 18 52 86 120 H3 H2 H1 H0).
Defined.

(** ** More on the loader *)

Section LoaderFacts.

Variable P : Platform.
Variable C : Collab.

Local Abbreviation World := (World C).
Local Abbreviation event := (event C).

(** *** Blocks written and blocks reported *)

Lemma writes_app (l1 l2 : list event) : writes (l1 ++ l2) = writes l1 ++ writes l2.
Proof.
  induction l1 as [|a l1 IH]; simpl; [done|]. destruct a; simpl; by rewrite ?IH.
Qed.

Lemma ready_blocks_app (l1 l2 : list event) :
  ready_blocks P (l1 ++ l2) = ready_blocks P l1 ++ ready_blocks P l2.
Proof.
  induction l1 as [|a l1 IH]; simpl; [done|].
  destruct a; simpl; rewrite ?IH; try done.
  by destruct (ret =? FW_IMG_STATUS_DATA_READY P).
Qed.

Lemma setup_no_blocks (l : list event) :
  Forall setup_event l -> writes l = [] /\ ready_blocks P l = [].
Proof.
  induction 1 as [|a l Ha _ [IH1 IH2]]; simpl; [done|].
  by destruct a as [[fw|] ?| | | | | |].
Qed.

Lemma body_spec_blocks fw_img fw_img_end write_size (w : World) s evs :
  body_spec P C fw_img fw_img_end write_size w s evs ->
  writes evs = ready_blocks P evs.
Proof.
  destruct 1 as [x1 bs1 x2 Hp Hw | x1 bs1 x2 r Hp Hw Hr | x1 bs1 Hp Hd
                | x1 bs1 ws' Hp Hd Hf Hws | x1 bs1 ret Hp Hd Hf Hn]; simpl.
  - by rewrite Z.eqb_refl.
  - by rewrite Z.eqb_refl.
  - by destruct (Z.eqb_spec (FW_IMG_STATUS_FAIL P) (FW_IMG_STATUS_DATA_READY P)).
  - by destruct (Z.eqb_spec (FW_IMG_STATUS_NODATA P) (FW_IMG_STATUS_DATA_READY P)).
  - by destruct (Z.eqb_spec ret (FW_IMG_STATUS_DATA_READY P)).
Qed.

Lemma loop_run_blocks fw_img_end fw_img write_size (w : World) lr tr :
  loop_run P C fw_img_end fw_img write_size w lr tr ->
  writes tr = ready_blocks P tr.
Proof.
  induction 1 as [f ws w Hge | f ws w Hlt | f ws w ret w' evs Hlt Hb
                 | f ws w f' ws' w' evs lr tr Hlt Hb Hl IH]; try done.
  - by eapply body_spec_blocks.
  - rewrite writes_app, ready_blocks_app, IH. f_equal. by eapply body_spec_blocks.
Qed.

Lemma stream_run_blocks fw_img fw_img_end write_size (w : World) out tr :
  stream_run P C fw_img fw_img_end write_size w out tr ->
  writes tr = ready_blocks P tr.
Proof.
  destruct 1 as [ret w' tr Hl | w' tr Hl | f' ws' w' tr x ret Hl Hb];
    apply loop_run_blocks in Hl; try done.
  rewrite writes_app, ready_blocks_app, Hl. simpl. done.
Qed.

(** X4: the blocks handed to [cs40l25_write_block] during an attempt are
    exactly the blocks the parser reported ready, in the same order, with
    the address, buffer and length the parser left in the boot state:
    none is dropped, written twice or written without having been
    reported. *)
Theorem written_blocks_are_ready_blocks fuel cal_boot (w : World) :
  writes (snd (bsp_dut_boot P C fuel cal_boot w))
  = ready_blocks P (snd (bsp_dut_boot P C fuel cal_boot w)).
Proof.
  destruct (boot_run_stream P C _ _ _ _ (bsp_dut_boot_run P C fuel cal_boot w))
    as (l & tr_s & -> & Hl & Hs).
  apply setup_no_blocks in Hl as [H1 H2].
  rewrite writes_app, ready_blocks_app, H1, H2. simpl.
  destruct Hs as [-> | (w_s & Hs)]; [done | by eapply stream_run_blocks].
Qed.

(** *** What a returned status tells *)

Lemma body_spec_heartbeat fw_img fw_img_end write_size (w : World) s evs :
  body_spec P C fw_img fw_img_end write_size w s evs ->
  current_halo_heartbeat
    (match s with Continue _ _ w' => w' | Break _ w' => w' end)
  = current_halo_heartbeat w.
Proof. by destruct 1. Qed.

Lemma loop_run_heartbeat fw_img_end fw_img write_size (w : World) lr tr :
  loop_run P C fw_img_end fw_img write_size w lr tr ->
  current_halo_heartbeat
    (match lr with
     | LoopExit _ _ w' => w' | LoopReturn _ w' => w' | LoopFuel w' => w'
     end)
  = current_halo_heartbeat w.
Proof.
  induction 1 as [f ws w Hge | f ws w Hlt | f ws w ret w' evs Hlt Hb
                 | f ws w f' ws' w' evs lr tr Hlt Hb Hl IH]; try done.
  - by apply body_spec_heartbeat in Hb.
  - apply body_spec_heartbeat in Hb. simpl in Hb. by rewrite IH.
Qed.

Lemma heartbeat_rule_cons hb (a : event) out tr :
  is_commit a = false -> heartbeat_rule hb out tr -> heartbeat_rule hb out (a :: tr).
Proof.
  intros Ha [[H1 H2] | [H1 H2]]; [left | right]; simpl; by rewrite Ha, H1.
Qed.

Lemma heartbeat_rule_app hb (l : list event) out tr :
  Forall (fun e => is_commit e = false) l ->
  heartbeat_rule hb out tr -> heartbeat_rule hb out (l ++ tr).
Proof.
  induction 1 as [|a l Ha _ IH]; simpl; [done|].
  intros H. by apply heartbeat_rule_cons, IH.
Qed.

Lemma stream_run_heartbeat fw_img fw_img_end write_size (w : World) out tr :
  stream_run P C fw_img fw_img_end write_size w out tr ->
  heartbeat_rule (current_halo_heartbeat w) out tr.
Proof.
  destruct 1 as [ret w' tr Hl | w' tr Hl | f' ws' w' tr x ret Hl Hb];
    pose proof (loop_run_events P C _ _ _ _ _ _ Hl) as Hev;
    apply not_commit_loop, (count_events_none C) in Hev;
    apply loop_run_heartbeat in Hl; simpl in Hl.
  - by left.
  - by left.
  - right. by rewrite count_events_app, Hev.
Qed.

Lemma alloc_run_heartbeat fw_img fw_img_end (w : World) out tr :
  alloc_run P C fw_img fw_img_end w out tr ->
  heartbeat_rule (current_halo_heartbeat w) out tr.
Proof.
  destruct 1 as [h1 H1 | h1 p1 h2 H1 Hp1 H2 | h1 p1 h2 p2 h3 H1 Hp1 H2 Hp2 H3
                | h1 p1 h2 p2 h3 p3 out tr H1 Hp1 H2 Hp2 H3 Hp3 Hs];
    try (by left).
  apply stream_run_heartbeat in Hs. by repeat apply heartbeat_rule_cons.
Qed.

Lemma header_run_heartbeat fw_img fw_img_end (w : World) out tr :
  header_run P C fw_img fw_img_end w out tr ->
  heartbeat_rule (current_halo_heartbeat w) out tr.
Proof.
  destruct 1 as [x1 bs1 ret Hh Hr | x1 bs1 out tr Hh Ha]; [by left|].
  apply alloc_run_heartbeat in Ha. by apply heartbeat_rule_cons.
Qed.

Lemma boot_run_heartbeat cal_boot (w : World) out tr :
  boot_run P C cal_boot w out tr ->
  heartbeat_rule (current_halo_heartbeat w) out tr.
Proof.
  destruct 1 as [x1 r Hb Hne | x1 h1 released out tr0 Hb Hf Hh]; [by left|].
  apply header_run_heartbeat in Hh. simpl in Hh.
  pose proof (free_previous_events C (boot_state w) (heap w)) as Hfr.
  rewrite Hf in Hfr. simpl in Hfr.
  apply heartbeat_rule_cons; [done|].
  apply heartbeat_rule_app; [by apply not_commit_free|].
  by apply heartbeat_rule_cons.
Qed.

(** X5: [bsp_dut_boot] resets [current_halo_heartbeat] exactly when it
    commits: after an attempt with a commit the heartbeat is 0, after any
    other attempt (early return, failure, or a run cut short) it is what
    it was, and no attempt commits twice. *)
Theorem heartbeat_reset_only_by_commit fuel cal_boot (w : World) :
  let run := bsp_dut_boot P C fuel cal_boot w in
  (count_events is_commit (snd run) = O /\
   current_halo_heartbeat (final_world (fst run)) = current_halo_heartbeat w) \/
  (count_events is_commit (snd run) = 1%nat /\
   current_halo_heartbeat (final_world (fst run)) = 0).
Proof. exact (boot_run_heartbeat _ _ _ _ (bsp_dut_boot_run P C fuel cal_boot w)). Qed.

Lemma committed_allocs (l : list event) :
  Forall (fun e => is_malloc e = false) l -> count_events alloc_ok l = O.
Proof.
  induction 1 as [|a l Ha _ IH]; simpl; [done|]. rewrite IH. by destruct a.
Qed.

Lemma stream_run_no_malloc fw_img fw_img_end write_size (w : World) out tr :
  stream_run P C fw_img fw_img_end write_size w out tr ->
  count_events alloc_ok tr = O.
Proof.
  intros Hs. apply stream_run_quiet in Hs. apply committed_allocs.
  eapply Forall_impl; [exact Hs|]. by intros e (H & _).
Qed.

(** How many buffers an attempt that reached the loop has obtained. *)
Lemma boot_run_success cal_boot (w : World) w' tr :
  CS40L25_STATUS_OK P = BSP_STATUS_OK ->
  boot_run P C cal_boot w (Returned BSP_STATUS_OK w') tr ->
  count_events alloc_ok tr = 3%nat.
Proof.
  intros Hok Hr.
  inversion Hr as [x1 r Hb Hne Hout | x1 h1 released out tr0 Hb Hf Hh Hout];
    subst; [congruence|].
  pose proof (free_previous_events C (boot_state w) (heap w)) as Hfr.
  rewrite Hf in Hfr. simpl in Hfr.
  assert (Hq : count_events alloc_ok released = O).
  { apply committed_allocs. eapply Forall_impl; [exact Hfr|]. by intros []. }
  simpl. rewrite count_events_app, Hq. simpl.
  inversion Hh as [x2 bs1 ret Hrh Hret | x2 bs1 out tr1 Hrh Ha]; subst.
  simpl.
  inversion Ha as [h2 H1 | h2 p1 h3 H1 Hp1 H2 | h2 p1 h3 p2 h4 H1 Hp1 H2 Hp2 H3
                  | h2 p1 h3 p2 h4 p3 out tr2 H1 Hp1 H2 Hp2 H3 Hp3 Hs]; subst.
  simpl in *. apply stream_run_no_malloc in Hs. rewrite Hs.
  destruct (Z.eqb_spec p1 NULL), (Z.eqb_spec p2 NULL), (Z.eqb_spec p3 NULL);
    done.
Qed.

(** X6: what the status [BSP_STATUS_OK] of [bsp_dut_boot] guarantees (the
    driver's OK being the same number): no call of the attempt failed,
    all three buffers were obtained, the firmware descriptor was
    committed exactly once, as the last call, with status OK, and the
    heartbeat was reset. *)
Theorem boot_ok_means_committed fuel cal_boot (w : World) w' tr :
  CS40L25_STATUS_OK P = BSP_STATUS_OK ->
  FW_IMG_STATUS_FAIL P <> FW_IMG_STATUS_DATA_READY P ->
  bsp_dut_boot P C fuel cal_boot w = (Returned BSP_STATUS_OK w', tr) ->
  clean P tr /\
  count_events alloc_ok tr = 3%nat /\
  count_events is_commit tr = 1%nat /\
  last tr = Some (Ev_boot (Some (fw_info (boot_state w'))) BSP_STATUS_OK) /\
  current_halo_heartbeat w' = 0.
Proof.
  intros Hok Hd Hrun.
  pose proof (bsp_dut_boot_run P C fuel cal_boot w) as Hr.
  rewrite Hrun in Hr. simpl in Hr.
  assert (Hclean : clean P tr).
  { destruct (boot_run_verdict P C Hd _ _ _ _ Hr) as [Hc | (_ & (w1 & Hw) & _)];
      [done | discriminate]. }
  split; [done|]. split; [by eapply boot_run_success|].
  destruct (boot_run_ending P C _ _ _ _ Hr)
    as [(r & Hne & ->) | [He | [[w1 He] | (r & w1 & He & Hn & Hl)]]].
  - inversion Hr; subst; congruence.
  - exfalso. apply Exists_exists in He as (e & Hin & He).
    unfold clean in Hclean. rewrite Forall_forall in Hclean.
    by apply (Hclean e).
  - discriminate.
  - inversion He; subst. split; [done|]. split; [done|].
    destruct (boot_run_heartbeat _ _ _ _ Hr) as [[H1 H2] | [H1 H2]];
      [congruence | done].
Qed.

(** *** The chunks *)

Section Chunks.

Variable fw_img0 fw_img_end : Z.
Hypothesis image_size : fw_img_end - fw_img0 < 2 ^ 32.

Lemma next_write_size d fw_img write_size :
  fw_img0 <= fw_img -> 0 < write_size ->
  let rem := fw_img_end - (fw_img + write_size) in
  0 < rem ->
  (if ptrdiff_lt_uint32 d rem write_size then to_uint32 rem else write_size)
  = (if rem <? write_size then rem else write_size).
Proof.
  intros Hf Hws rem Hrem.
  rewrite ptrdiff_lt_uint32_small by (unfold rem in *; lia).
  destruct (Z.ltb_spec rem write_size); [|done].
  apply to_uint32_small. unfold rem in *. lia.
Qed.

Lemma body_spec_chunk fw_img write_size (w : World) s evs :
  body_spec P C fw_img fw_img_end write_size w s evs ->
  fw_img < fw_img_end -> chunk_inv fw_img0 fw_img_end fw_img write_size ->
  Forall (chunk_aligned fw_img0 fw_img_end) evs /\
  match s with
  | Continue fw_img' write_size' _ =>
      chunk_inv fw_img0 fw_img_end fw_img' write_size' /\
      1024 * Z.of_nat (count_events (is_not_ready P) evs) + chunk_budget fw_img_end fw_img'
      <= chunk_budget fw_img_end fw_img
  | Break _ _ =>
      1024 * Z.of_nat (count_events (is_not_ready P) evs) <= chunk_budget fw_img_end fw_img
  end.
Proof.
  intros Hb Hlt (Hf & Hinv). destruct (Hinv Hlt) as [Hmod Hws].
  assert (Hal : chunk_aligned fw_img0 fw_img_end
                  (Ev_process fw_img write_size (boot_state w) (boot_state w) 0))
    by (simpl; tauto).
  assert (Hbud : chunk_budget fw_img_end fw_img = fw_img_end - fw_img + 1023).
  { unfold chunk_budget. by destruct (Z.ltb_spec fw_img fw_img_end); [|lia]. }
  assert (Hstep : forall ws',
            (fw_img + write_size < fw_img_end ->
             ws' = 1024 \/ ws' = fw_img_end - (fw_img + write_size)) ->
            chunk_inv fw_img0 fw_img_end (fw_img + write_size) ws' /\
            1024 + chunk_budget fw_img_end (fw_img + write_size) <= chunk_budget fw_img_end fw_img).
  { intros ws' Hws'. split.
    - split; [lia|]. intros Hlt'. split; [|by apply Hws'].
      assert (write_size = 1024) as -> by lia.
      replace (fw_img + 1024 - fw_img0) with (fw_img - fw_img0 + 1 * 1024) by lia.
      by rewrite Z_mod_plus_full.
    - rewrite Hbud. unfold chunk_budget.
      destruct (Z.ltb_spec (fw_img + write_size) fw_img_end); lia. }
  destruct Hb as [x1 bs1 x2 Hp Hw | x1 bs1 x2 r Hp Hw Hr | x1 bs1 Hp Hd
                 | x1 bs1 ws' Hp Hd Hn Hws' | x1 bs1 ret Hp Hd Hn Hnn]; simpl.
  - rewrite Z.eqb_refl. simpl. split; [constructor; [simpl; tauto | repeat constructor] | lia].
  - rewrite Z.eqb_refl. simpl. split; [constructor; [simpl; tauto | repeat constructor]|].
    split; [by split | lia].
  - destruct (Z.eqb_spec (FW_IMG_STATUS_FAIL P) (FW_IMG_STATUS_DATA_READY P));
      [done|]. simpl. split; [constructor; [simpl; tauto | repeat constructor] | lia].
  - destruct (Z.eqb_spec (FW_IMG_STATUS_NODATA P) (FW_IMG_STATUS_DATA_READY P));
      [done|]. simpl. split; [constructor; [simpl; tauto | repeat constructor]|].
    destruct (Hstep ws') as [H1 H2]; [|split; [done | lia]].
    intros Hlt'. subst ws'. rewrite next_write_size by lia.
    destruct (Z.ltb_spec (fw_img_end - (fw_img + write_size)) write_size); lia.
  - destruct (Z.eqb_spec ret (FW_IMG_STATUS_DATA_READY P)); [done|]. simpl.
    split; [constructor; [simpl; tauto | repeat constructor]|].
    destruct (Hstep write_size) as [H1 H2]; [lia | split; [done | lia]].
Qed.

Lemma loop_run_chunks fw_img write_size (w : World) lr tr :
  loop_run P C fw_img_end fw_img write_size w lr tr ->
  chunk_inv fw_img0 fw_img_end fw_img write_size ->
  Forall (chunk_aligned fw_img0 fw_img_end) tr /\
  1024 * Z.of_nat (count_events (is_not_ready P) tr) <= chunk_budget fw_img_end fw_img.
Proof.
  induction 1 as [f ws w Hge | f ws w Hlt | f ws w ret w' evs Hlt Hb
                 | f ws w f' ws' w' evs lr tr Hlt Hb Hl IH]; intros Hinv.
  - split; [constructor|]. unfold chunk_budget. simpl.
    destruct (Z.ltb_spec f fw_img_end); lia.
  - split; [constructor|]. unfold chunk_budget. simpl.
    destruct (Z.ltb_spec f fw_img_end); lia.
  - by destruct (body_spec_chunk _ _ _ _ _ Hb Hlt Hinv).
  - destruct (body_spec_chunk _ _ _ _ _ Hb Hlt Hinv) as (Hal & Hinv' & Hbud).
    destruct (IH Hinv') as [Hal' Hbud'].
    split; [by apply Forall_app|]. rewrite count_events_app. lia.
Qed.

Lemma loop_run_inside fw_img write_size (w : World) lr tr :
  loop_run P C fw_img_end fw_img write_size w lr tr ->
  inside_inv fw_img0 fw_img_end fw_img write_size ->
  Forall (known_status P) tr ->
  Forall (chunk_inside fw_img_end) tr.
Proof.
  induction 1 as [f ws w Hge | f ws w Hlt | f ws w ret w' evs Hlt Hb
                 | f ws w f' ws' w' evs lr tr Hlt Hb Hl IH];
    intros (Hf & Hinv) Hk; try constructor.
  - destruct (Hinv Hlt) as [Hws Hin].
    inversion Hb; subst; constructor; [simpl; lia | repeat constructor |
                                       simpl; lia | constructor].
  - destruct (Hinv Hlt) as [Hws Hin]. apply Forall_app in Hk as [Hk1 Hk2].
    apply Forall_app. split.
    + inversion Hb; subst; constructor; [simpl; lia | repeat constructor |
                                         simpl; lia | constructor |
                                         simpl; lia | constructor].
    + apply IH; [|done]. clear IH Hl.
      inversion Hb as [| x1 bs1 x2 r Hp Hw Hr | | x1 bs1 ws1 Hp Hd Hn Hws1
                      | x1 bs1 r Hp Hd Hn Hnn]; subst.
      * by split.
      * split; [lia|]. intros Hlt'. rewrite next_write_size by lia.
        destruct (Z.ltb_spec (fw_img_end - (f + ws)) ws); lia.
      * inversion Hk1 as [|? ? Hks _]; subst. simpl in Hks. tauto.
Qed.

End Chunks.

Lemma setup_chunks (Q : event -> Prop) (l : list event) :
  (forall e, setup_event e -> Q e) -> Forall setup_event l -> Forall Q l.
Proof. intros HQ Hl. eapply Forall_impl; [exact Hl | exact HQ]. Qed.

Lemma setup_not_process (f : event -> bool) (l : list event) :
  (forall e, f e = true -> is_process e = true) ->
  Forall setup_event l -> count_events f l = O.
Proof.
  intros Hf Hl. apply count_events_none.
  eapply Forall_impl; [exact Hl|]. intros e He.
  destruct (f e) eqn:Hfe; [|done]. apply Hf in Hfe. by destruct e as [[fw|] ?| | | | | |].
Qed.

Lemma stream_run_chunks fw_img0 fw_img_end (w : World) out tr :
  fw_img_end - fw_img0 < 2 ^ 32 ->
  stream_run P C fw_img0 fw_img_end 1024 w out tr ->
  Forall (chunk_aligned fw_img0 fw_img_end) tr /\
  1024 * Z.of_nat (count_events (is_not_ready P) tr)
  <= Z.max 0 (fw_img_end - fw_img0 + 1023) /\
  (1024 <= fw_img_end - fw_img0 -> Forall (known_status P) tr ->
   Forall (chunk_inside fw_img_end) tr).
Proof.
  intros Hsize Hs.
  assert (Hinv : chunk_inv fw_img0 fw_img_end fw_img0 1024).
  { split; [lia|]. intros _. split; [|by left].
    by rewrite Z.sub_diag. }
  assert (Hbud : chunk_budget fw_img_end fw_img0
                 <= Z.max 0 (fw_img_end - fw_img0 + 1023)).
  { unfold chunk_budget. destruct (Z.ltb_spec fw_img0 fw_img_end); lia. }
  assert (Hin : 1024 <= fw_img_end - fw_img0 ->
                inside_inv fw_img0 fw_img_end fw_img0 1024).
  { intros H. split; lia. }
  destruct Hs as [ret w' tr Hl | w' tr Hl | f' ws' w' tr x ret Hl Hb].
  - destruct (loop_run_chunks _ _ Hsize _ _ _ _ _ Hl Hinv) as [H1 H2].
    split; [done|]. split; [lia|]. intros Hbig Hk.
    by eapply loop_run_inside; eauto.
  - destruct (loop_run_chunks _ _ Hsize _ _ _ _ _ Hl Hinv) as [H1 H2].
    split; [done|]. split; [lia|]. intros Hbig Hk.
    by eapply loop_run_inside; eauto.
  - destruct (loop_run_chunks _ _ Hsize _ _ _ _ _ Hl Hinv) as [H1 H2].
    split; [apply Forall_app; split; [done | by repeat constructor]|].
    split; [rewrite count_events_app; simpl; lia|]. intros Hbig Hk.
    apply Forall_app in Hk as [Hk _].
    apply Forall_app. split; [|by repeat constructor].
    by eapply loop_run_inside; eauto.
Qed.

Lemma boot_run_chunks cal_boot (w : World) out tr :
  let fw_img0 := fst (select_image P cal_boot) in
  let fw_img_end := snd (select_image P cal_boot) in
  fw_img_end - fw_img0 < 2 ^ 32 ->
  boot_run P C cal_boot w out tr ->
  Forall (chunk_aligned fw_img0 fw_img_end) tr /\
  1024 * Z.of_nat (count_events (is_not_ready P) tr)
  <= Z.max 0 (fw_img_end - fw_img0 + 1023) /\
  (1024 <= fw_img_end - fw_img0 -> Forall (known_status P) tr ->
   Forall (chunk_inside fw_img_end) tr).
Proof.
  intros fw_img0 fw_img_end Hsize Hr.
  destruct (boot_run_stream P C _ _ _ _ Hr) as (l & tr_s & -> & Hl & Hs).
  assert (H1 : Forall (chunk_aligned fw_img0 fw_img_end) l).
  { eapply setup_chunks; [|exact Hl]. by intros []. }
  assert (H2 : count_events (is_not_ready P) l = O).
  { apply setup_not_process; [|done]. by intros []. }
  assert (H3 : Forall (chunk_inside fw_img_end) l).
  { eapply setup_chunks; [|exact Hl]. by intros []. }
  destruct Hs as [-> | (w_s & Hs)].
  - rewrite app_nil_r. split; [done|]. split; [rewrite H2; lia | done].
  - destruct (stream_run_chunks _ _ _ _ _ Hsize Hs) as (Ha & Hb & Hc).
    split; [by apply Forall_app|].
    split; [rewrite count_events_app, H2; simpl; lia|].
    intros Hbig Hk. apply Forall_app in Hk as [_ Hk].
    apply Forall_app. split; [done | by apply Hc].
Qed.

(** X7: at every call of [fw_img_process] the loop variables of
    [bsp_dut_boot] satisfy: [fw_img] is inside the image, a whole number
    of 1024-byte chunks from its start, and [write_size] is 1024 or
    exactly what is left of the image from [fw_img].  This is about the
    two local variables, not about the fields [fw_img_blocks] and
    [fw_img_blocks_size] of the boot state, which the loader sets from
    them before the header read and after a NODATA answer, and which
    the parser may change. *)
Theorem chunks_are_aligned fuel cal_boot (w : World) :
  snd (select_image P cal_boot) - fst (select_image P cal_boot) < 2 ^ 32 ->
  Forall (chunk_aligned (fst (select_image P cal_boot))
                        (snd (select_image P cal_boot)))
         (snd (bsp_dut_boot P C fuel cal_boot w)).
Proof.
  intros Hsize.
  exact (proj1 (boot_run_chunks _ _ _ _ Hsize (bsp_dut_boot_run P C fuel cal_boot w))).
Qed.

(** X8: with an image of at least one standard chunk and a parser that
    answers only DATA_READY, FAIL or NODATA, the loop variables of
    [bsp_dut_boot] never describe a chunk that reaches past the end of
    the image: at every parser call [write_size] is positive and
    [fw_img + write_size <= fw_img_end].  As X7, this is about the local
    variables, not the fields of the boot state. *)
Theorem chunks_stay_inside_image fuel cal_boot (w : World) :
  snd (select_image P cal_boot) - fst (select_image P cal_boot) < 2 ^ 32 ->
  1024 <= snd (select_image P cal_boot) - fst (select_image P cal_boot) ->
  Forall (known_status P) (snd (bsp_dut_boot P C fuel cal_boot w)) ->
  Forall (chunk_inside (snd (select_image P cal_boot)))
         (snd (bsp_dut_boot P C fuel cal_boot w)).
Proof.
  intros Hsize Hbig Hk.
  exact (proj2 (proj2 (boot_run_chunks _ _ _ _ Hsize
                         (bsp_dut_boot_run P C fuel cal_boot w))) Hbig Hk).
Qed.

(** *** Buffers in use *)

Lemma frees_map (ps : list Z) : frees (map (Ev_free (C:=C)) ps) = ps.
Proof. induction ps as [|p ps IH]; simpl; [done | by rewrite IH]. Qed.

Lemma frees_app (l1 l2 : list event) : frees (l1 ++ l2) = frees l1 ++ frees l2.
Proof.
  induction l1 as [|a l1 IH]; simpl; [done|]. destruct a; simpl; by rewrite ?IH.
Qed.

Lemma frees_none (l : list event) :
  Forall (fun e => is_free e = false) l -> frees l = [].
Proof. induction 1 as [|a l Ha _ IH]; simpl; [done|]. by destruct a. Qed.

Lemma retained_not_null (bs : boot_state_t C) p : p ∈ retained bs -> p <> NULL.
Proof.
  unfold retained, keep. intros Hp.
  repeat (apply elem_of_app in Hp as [Hp | Hp]);
    match type of Hp with
    | _ ∈ (if ?q =? NULL then _ else _) =>
        destruct (Z.eqb_spec q NULL) as [|Hq];
        [by apply elem_of_nil in Hp
        |by apply list_elem_of_singleton in Hp as ->]
    end.
Qed.

Lemma boot_run_frees cal_boot (w : World) out tr :
  boot_run P C cal_boot w out tr ->
  frees tr = [] \/ frees tr = retained (boot_state w).
Proof.
  destruct 1 as [x1 r Hb Hne | x1 h1 released out tr0 Hb Hf Hh]; [by left|].
  right. rewrite free_previous_retained in Hf. inversion Hf; subst.
  apply header_run_no_free in Hh as (bs1 & ret1 & rest & -> & Hnf).
  simpl. rewrite frees_app, frees_map. simpl.
  by rewrite (frees_none _ Hnf), app_nil_r.
Qed.

(** X10: [bsp_free] is only called on blocks that are live: when the boot
    state points to distinct live buffers on entry, the pointers an
    attempt frees are non-NULL, pairwise different and live on entry, so
    no block is freed twice and nothing that was not allocated is
    freed. *)
Theorem frees_are_valid (live : Heap C -> gset Z) (others : gset Z)
        fuel cal_boot (w : World) :
  tracked live others w ->
  NoDup (frees (snd (bsp_dut_boot P C fuel cal_boot w))) /\
  (forall p, p ∈ frees (snd (bsp_dut_boot P C fuel cal_boot w)) ->
     p <> NULL /\ p ∈ live (heap w) /\ p ∉ others).
Proof.
  intros (Hlive & Hnd & Hout).
  destruct (boot_run_frees _ _ _ _ (bsp_dut_boot_run P C fuel cal_boot w))
    as [-> | ->].
  - split; [constructor|]. by intros p ?%elem_of_nil.
  - split; [done|]. intros p Hp. split; [by eapply retained_not_null|].
    split; [|by apply Hout]. rewrite Hlive. set_solver.
Qed.

Lemma loop_run_sources (Hk : @parser_keeps_buffers C)
      fw_img_end fw_img write_size (w : World) lr tr :
  loop_run P C fw_img_end fw_img write_size w lr tr ->
  Forall (fun e => forall d, write_source e = Some d ->
                             d = block_data (boot_state w)) tr.
Proof.
  induction 1 as [f ws w Hge | f ws w Hlt | f ws w ret w' evs Hlt Hb
                 | f ws w f' ws' w' evs lr tr Hlt Hb Hl IH]; try constructor.
  - pose proof (body_spec_frame P C Hk _ _ _ _ _ _ Hb) as [_ Hbuf].
    inversion Hb; subst; simpl in *; repeat constructor; try done.
    all: intros d Hd; inversion Hd; subst; by injection Hbuf.
  - pose proof (body_spec_frame P C Hk _ _ _ _ _ _ Hb) as [_ Hbuf].
    apply Forall_app. split.
    + inversion Hb; subst; simpl in *; repeat constructor; try done.
      all: intros d Hd; inversion Hd; subst; by injection Hbuf.
    + eapply Forall_impl; [exact IH|]. intros e He d Hd. rewrite (He d Hd).
      simpl in Hbuf. by injection Hbuf.
Qed.

(** X11: with a parser that leaves the three buffer pointers alone, every
    block written to the device is read from the block buffer allocated
    in this same attempt (the third allocation), never from a buffer of
    an earlier attempt that has been freed. *)
Theorem writes_read_this_attempts_buffer fuel cal_boot (w : World) e d :
  @parser_keeps_buffers C ->
  e ∈ snd (bsp_dut_boot P C fuel cal_boot w) ->
  write_source e = Some d ->
  d <> NULL /\
  exists n1 p1 n2 p2 n3,
    mallocs (snd (bsp_dut_boot P C fuel cal_boot w))
    = [(n1, p1); (n2, p2); (n3, d)].
Proof.
  intros Hk Hin Hsrc.
  pose proof (bsp_dut_boot_run P C fuel cal_boot w) as Hr.
  destruct Hr as [x1 r Hb Hne | x1 h1 released out tr0 Hb Hf Hh].
  - apply list_elem_of_singleton in Hin as ->. discriminate.
  - pose proof (free_previous_events C (boot_state w) (heap w)) as Hfr.
    rewrite Hf in Hfr. simpl in Hfr.
    assert (Hq : mallocs released = []).
    { apply mallocs_none. eapply Forall_impl; [exact Hfr|]. by intros []. }
    assert (Hnw : forall e', e' ∈ released -> write_source e' = None).
    { rewrite Forall_forall in Hfr. intros e' He'. specialize (Hfr e' He').
      by destruct e'. }
    simpl. rewrite mallocs_app, Hq. simpl.
    apply elem_of_cons in Hin as [-> | Hin]; [discriminate|].
    apply elem_of_app in Hin as [Hin | Hin];
      [rewrite (Hnw _ Hin) in Hsrc; discriminate|].
    apply elem_of_cons in Hin as [-> | Hin]; [discriminate|].
    destruct Hh as [x2 bs1 ret Hrh Hret | x2 bs1 out tr1 Hrh Ha].
    { apply list_elem_of_singleton in Hin as ->. discriminate. }
    apply elem_of_cons in Hin as [-> | Hin]; [discriminate|]. simpl.
    destruct Ha as [h2 H1 | h2 p1 h3 H1 Hp1 H2 | h2 p1 h3 p2 h4 H1 Hp1 H2 Hp2 H3
                   | h2 p1 h3 p2 h4 p3 out tr2 H1 Hp1 H2 Hp2 H3 Hp3 Hs].
    + apply list_elem_of_singleton in Hin as ->. discriminate.
    + repeat (apply elem_of_cons in Hin as [-> | Hin]; [discriminate|]).
      by apply elem_of_nil in Hin.
    + repeat (apply elem_of_cons in Hin as [-> | Hin]; [discriminate|]).
      by apply elem_of_nil in Hin.
    + repeat (apply elem_of_cons in Hin as [-> | Hin]; [discriminate|]).
      simpl. destruct (stream_run_projections P C _ _ _ _ _ _ Hs) as (-> & _ & _).
      assert (Hd : d = p3).
      { destruct Hs as [ret w' tr Hl | w' tr Hl | f' ws' w' tr x ret Hl Hbt].
        - apply (loop_run_sources Hk) in Hl. rewrite Forall_forall in Hl.
          by apply (Hl e Hin d Hsrc).
        - apply (loop_run_sources Hk) in Hl. rewrite Forall_forall in Hl.
          by apply (Hl e Hin d Hsrc).
        - apply elem_of_app in Hin as [Hin | Hin].
          + apply (loop_run_sources Hk) in Hl. rewrite Forall_forall in Hl.
            by apply (Hl e Hin d Hsrc).
          + apply list_elem_of_singleton in Hin as ->. discriminate. }
      subst d. split; [done|]. by eexists _, _, _, _, _.
Qed.

(** *** Fuel *)

Lemma body_one_process fw_img fw_img_end write_size (w : World) :
  count_events is_process (snd (loop_body P C fw_img fw_img_end write_size w))
  = 1%nat.
Proof.
  pose proof (loop_body_spec P C fw_img fw_img_end write_size w) as Hb.
  by destruct Hb.
Qed.

Lemma boot_loop_calls fuel fw_img fw_img_end write_size (w : World) :
  (count_events is_process
     (snd (boot_loop P C fuel fw_img fw_img_end write_size w)) <= fuel)%nat /\
  (forall w', fst (boot_loop P C fuel fw_img fw_img_end write_size w) = LoopFuel w' ->
     count_events is_process
       (snd (boot_loop P C fuel fw_img fw_img_end write_size w)) = fuel).
Proof.
  revert fw_img write_size w.
  induction fuel as [|n IH]; intros fw_img write_size w; simpl;
    destruct (Z.ltb_spec fw_img fw_img_end) as [Hlt | Hge]; simpl;
    try (split; [lia | done]).
  pose proof (body_one_process fw_img fw_img_end write_size w) as H1.
  destruct (loop_body P C fw_img fw_img_end write_size w) as [[f' ws' w1 | ret w1] evs];
    simpl in *.
  - destruct (IH f' ws' w1) as [Hle Heq].
    rewrite count_events_app, H1. split; [lia|].
    intros w' Hw'. by rewrite (Heq w' Hw').
  - split; [lia | done].
Qed.

Lemma process_split (tr : list event) :
  count_events is_process tr
  = (count_events (is_ready P) tr + count_events (is_not_ready P) tr)%nat.
Proof.
  induction tr as [|a tr IH]; simpl; [done|]. rewrite IH.
  destruct a; simpl; try lia.
  destruct (ret =? FW_IMG_STATUS_DATA_READY P); simpl; lia.
Qed.

Lemma out_of_fuel_calls fuel cal_boot (w : World) w' :
  fst (bsp_dut_boot P C fuel cal_boot w) = OutOfFuel w' ->
  count_events is_process (snd (bsp_dut_boot P C fuel cal_boot w)) = fuel.
Proof.
  unfold bsp_dut_boot.
  destruct (select_image P cal_boot) as [fw_img fw_img_end].
  destruct (cs40l25_boot C (ext w) None) as [x1 ret].
  destruct (negb (ret =? CS40L25_STATUS_OK P)); simpl; [done|].
  destruct (free_previous C (boot_state w) (heap w)) as [h1 released] eqn:Hf.
  pose proof (free_previous_events C (boot_state w) (heap w)) as Hfr.
  rewrite Hf in Hfr. simpl in Hfr.
  assert (Hq : count_events is_process released = O).
  { apply count_events_none. eapply Forall_impl; [exact Hfr|]. by intros []. }
  unfold boot_header. simpl.
  destruct (fw_img_read_header C x1 _) as [[x2 bs1] r1].
  rewrite !emit_fst, !emit_snd. rewrite !count_events_app, Hq. simpl.
  destruct (negb (r1 =? 0)); simpl; [done|].
  unfold boot_allocate. simpl.
  destruct (bsp_malloc C h1 _) as [h2 p1].
  rewrite !emit_fst, !emit_snd. simpl.
  destruct (p1 =? NULL); simpl; [done|].
  destruct (bsp_malloc C h2 _) as [h3 p2].
  rewrite !emit_fst, !emit_snd. simpl.
  destruct (p2 =? NULL); simpl; [done|].
  destruct (bsp_malloc C h3 _) as [h4 p3].
  rewrite !emit_fst, !emit_snd. simpl.
  destruct (p3 =? NULL); simpl; [done|].
  unfold boot_stream, boot_finish.
  match goal with |- context [boot_loop P C fuel ?f ?e ?ws ?w0] =>
    pose proof (boot_loop_calls fuel f e ws w0) as [_ Hc];
    destruct (boot_loop P C fuel f e ws w0) as [[f' ws' w1 | ret' w1 | w1] tr]
  end; simpl in *.
  - by destruct (cs40l25_boot C (ext w1) _).
  - done.
  - intros _. by apply (Hc w1).
Qed.

(** X9: the loader asks the parser for at most one answer other than
    DATA_READY per standard chunk of the image, so it can only fail to
    return while the parser keeps reporting blocks: a run that is cut
    short after [fuel] passes of the loop has seen at least
    [fuel - ceil(size / 1024)] DATA_READY answers. *)
Theorem chunk_advances_are_bounded fuel cal_boot (w : World) :
  let size := snd (select_image P cal_boot) - fst (select_image P cal_boot) in
  let tr := snd (bsp_dut_boot P C fuel cal_boot w) in
  size < 2 ^ 32 ->
  1024 * Z.of_nat (count_events (is_not_ready P) tr) <= Z.max 0 (size + 1023) /\
  (forall w', fst (bsp_dut_boot P C fuel cal_boot w) = OutOfFuel w' ->
     1024 * Z.of_nat fuel
     <= 1024 * Z.of_nat (count_events (is_ready P) tr) + Z.max 0 (size + 1023)).
Proof.
  intros size tr Hsize.
  pose proof (proj1 (proj2 (boot_run_chunks _ _ _ _ Hsize
                              (bsp_dut_boot_run P C fuel cal_boot w)))) as Hb.
  split; [exact Hb|]. intros w' Hw'.
  pose proof (out_of_fuel_calls _ _ _ _ Hw') as Hc.
  rewrite process_split in Hc. fold tr in Hc. fold size in Hb. fold tr in Hb.
  lia.
Qed.

(** *** The haptic configuration table *)

(** X17: over the whole range of the [uint8_t] index, 2 is the only value
    for which [bsp_dut_update_haptic_config] reads outside
    [cs40l25_haptic_configs]; index 0 hands the driver the configuration
    with the GPIO triggers disabled and index 1 the one with them
    enabled, and the result is [BSP_STATUS_OK] exactly when the driver
    answered OK. *)
Theorem haptic_config_by_index (x : Ext C) i :
  0 <= i <= 255 ->
  (bsp_dut_update_haptic_config P C i x = HapticOutOfBounds i <-> i = 2) /\
  (i <= 1 ->
   exists cfg,
     cs40l25_haptic_configs !! Z.to_nat i = Some cfg /\
     gpio_enable cfg = (i =? 1) /\
     Forall (fun t => enable t = (i =? 1)) (gpio_trigger_config cfg) /\
     bsp_dut_update_haptic_config P C i x
     = HapticReturned
         (if snd (cs40l25_update_haptic_config C x cfg) =? CS40L25_STATUS_OK P
          then BSP_STATUS_OK else BSP_STATUS_FAIL)
         (fst (cs40l25_update_haptic_config C x cfg))).
Proof.
  intros Hi. unfold bsp_dut_update_haptic_config.
  change (Z.of_nat (length cs40l25_haptic_configs)) with 2.
  destruct (Z.gtb_spec i 2) as [Hgt | Hle].
  { split; [split; [discriminate | lia] | lia]. }
  assert (Hc : i = 0 \/ i = 1 \/ i = 2) by lia.
  destruct Hc as [-> | [-> | ->]]; simpl.
  - destruct (cs40l25_update_haptic_config C x _) as [x' ret] eqn:Hd.
    split; [split; [discriminate | lia]|]. intros _.
    eexists. split; [reflexivity|]. split; [reflexivity|].
    split; [by repeat constructor|]. by rewrite Hd.
  - destruct (cs40l25_update_haptic_config C x _) as [x' ret] eqn:Hd.
    split; [split; [discriminate | lia]|]. intros _.
    eexists. split; [reflexivity|]. split; [reflexivity|].
    split; [by repeat constructor|]. by rewrite Hd.
  - split; [done | lia].
Qed.

End LoaderFacts.

(** ** Initialisation, reset and the heartbeat *)

Section DutFacts.

Variable P : Platform.
Variable C : Collab.
Variable D : Dut C.

Local Abbreviation World := (World C).

(** X12: [bsp_dut_has_processed] fails without side effect on the BSP: with
    a NULL pointer it calls nothing and changes nothing, and when the
    driver cannot read the heartbeat the flag behind the pointer and
    [current_halo_heartbeat] keep their values. *)
Theorem has_processed_failure_keeps_state flag (w : World) ret flag' w' evs :
  bsp_dut_has_processed P C D flag w = (ret, flag', w', evs) ->
  ret <> BSP_STATUS_OK ->
  ret = BSP_STATUS_FAIL /\
  flag' = flag /\
  current_halo_heartbeat w' = current_halo_heartbeat w /\
  heap w' = heap w /\ boot_state w' = boot_state w /\
  (flag = None -> evs = [] /\ w' = w).
Proof.
  unfold bsp_dut_has_processed. destruct flag as [b|].
  - destruct (cs40l25_get_halo_heartbeat C D (ext w)) as [[x1 r] hb].
    destruct (negb (r =? CS40L25_STATUS_OK P)); intros H Hne;
      inversion H; subst; [|done].
    repeat split; done.
  - intros H Hne. inversion H; subst. repeat split; done.
Qed.

(** X13: two polls in a row whose heartbeat reads succeed: the second one
    reports progress exactly when its reading is non-zero and differs
    from the reading of the first, whatever the first one reported and
    whatever the heartbeat was before.  So an unchanged heartbeat is
    reported as no progress, and after a reading of 0 any non-zero
    reading is progress. *)
Theorem consecutive_polls b (w : World) x1 h1 x2 h2 ret1 flag1 w1 evs1 :
  cs40l25_get_halo_heartbeat C D (ext w) = (x1, CS40L25_STATUS_OK P, h1) ->
  cs40l25_get_halo_heartbeat C D x1 = (x2, CS40L25_STATUS_OK P, h2) ->
  bsp_dut_has_processed P C D (Some b) w = (ret1, flag1, w1, evs1) ->
  exists w2 evs2,
    bsp_dut_has_processed P C D flag1 w1
    = (BSP_STATUS_OK, Some (negb ((h2 =? h1) || (h2 =? 0))), w2, evs2) /\
    current_halo_heartbeat w2 = h2.
Proof.
  intros H1 H2. unfold bsp_dut_has_processed at 1. rewrite H1, Z.eqb_refl. simpl.
  intros H. inversion H; subst. unfold bsp_dut_has_processed. simpl.
  rewrite H2, Z.eqb_refl. simpl.
  exists (mk_world x2 (heap w) (boot_state w) h2),
         [Dv_get_halo_heartbeat (CS40L25_STATUS_OK P) h2].
  split; [|reflexivity].
  by destruct ((h2 =? h1) || (h2 =? 0)).
Qed.

(** X14: after a reset that succeeded the next successful poll reports
    progress exactly when the heartbeat it reads is not 0; after a reset
    that failed the stored heartbeat is still the old one. *)
Theorem poll_after_reset b (w : World) ret w1 evs :
  bsp_dut_reset P C D w = (ret, w1, evs) ->
  (ret = BSP_STATUS_OK \/ ret = BSP_STATUS_FAIL) /\
  (ret = BSP_STATUS_FAIL ->
   current_halo_heartbeat w1 = current_halo_heartbeat w) /\
  (ret = BSP_STATUS_OK ->
   forall x2 hb,
     cs40l25_get_halo_heartbeat C D (ext w1) = (x2, CS40L25_STATUS_OK P, hb) ->
     exists w2 evs2,
       bsp_dut_has_processed P C D (Some b) w1
       = (BSP_STATUS_OK, Some (negb (hb =? 0)), w2, evs2)).
Proof.
  unfold bsp_dut_reset.
  destruct (cs40l25_reset C D (ext w)) as [x1 r].
  destruct (negb (r =? CS40L25_STATUS_OK P)); intros H; inversion H; subst.
  - split; [by right|]. split; [done | discriminate].
  - split; [by left|]. split; [discriminate|]. intros _ x2 hb Hhb.
    unfold bsp_dut_has_processed. simpl in *. rewrite Hhb, Z.eqb_refl. simpl.
    eexists _, _. f_equal. f_equal. f_equal. by destruct (hb =? 0).
Qed.

(** X15: after a boot attempt that committed, the next successful poll
    reports progress exactly when the heartbeat it reads is not 0: the
    commit restarts the heartbeat comparison. *)
Theorem poll_after_boot b fuel cal_boot (w : World) x2 hb :
  let run := bsp_dut_boot P C fuel cal_boot w in
  count_events is_commit (snd run) = 1%nat ->
  cs40l25_get_halo_heartbeat C D (ext (final_world (fst run)))
  = (x2, CS40L25_STATUS_OK P, hb) ->
  exists w2 evs2,
    bsp_dut_has_processed P C D (Some b) (final_world (fst run))
    = (BSP_STATUS_OK, Some (negb (hb =? 0)), w2, evs2).
Proof.
  intros run Hc Hhb.
  destruct (boot_run_heartbeat P C _ _ _ _ (bsp_dut_boot_run P C fuel cal_boot w))
    as [[H1 H2] | [H1 H2]]; fold run in H1, H2; [congruence|].
  unfold bsp_dut_has_processed. rewrite Hhb, Z.eqb_refl, H2. simpl.
  eexists _, _. f_equal. f_equal. f_equal. by destruct (hb =? 0).
Qed.

(** X16: [bsp_dut_initialize] returns [BSP_STATUS_OK] exactly when
    [cs40l25_initialize] and [cs40l25_configure] both answered OK, and
    [BSP_STATUS_FAIL] otherwise; the driver is not configured after a
    failed initialisation; and, unless [CONFIG_TEST_OPEN_LOOP] is set, the
    clock-routing write to the LN2 board is the last call on every path,
    after a failure too, with a status that does not enter the result. *)
Theorem initialize_status (w : World) x1 s1 x2 s2 ret w' evs :
  cs40l25_initialize C D (ext w) = (x1, s1) ->
  cs40l25_configure C D x1 (haptic_config C D) = (x2, s2) ->
  bsp_dut_initialize P C D w = (ret, w', evs) ->
  (ret = BSP_STATUS_OK <->
   s1 = CS40L25_STATUS_OK P /\ s2 = CS40L25_STATUS_OK P) /\
  (ret = BSP_STATUS_OK \/ ret = BSP_STATUS_FAIL) /\
  (s1 <> CS40L25_STATUS_OK P ->
   forall cfg r, Dv_configure cfg r ∉ evs) /\
  (CONFIG_TEST_OPEN_LOOP C D = false ->
   exists st,
     last evs = Some (Dv_i2c_write (BSP_LN2_DEV_ID C D) [0; 31; 128; 3] 4
                                   NULL NULL st)) /\
  heap w' = heap w /\ boot_state w' = boot_state w /\
  current_halo_heartbeat w' = current_halo_heartbeat w.
Proof.
  intros H1 H2. unfold bsp_dut_initialize. rewrite H1.
  destruct (Z.eqb_spec s1 (CS40L25_STATUS_OK P)) as [-> | Hs1].
  - rewrite H2.
    destruct (Z.eqb_spec s2 (CS40L25_STATUS_OK P)) as [-> | Hs2]; simpl;
      destruct (CONFIG_TEST_OPEN_LOOP C D);
      try destruct (bsp_i2c_write C D x2 _ _ _ _ _) as [x3 st];
      intros H; inversion H; subst;
      (split; [first [split; [done | (by intros [_ ?])] | split; [done | tauto]]|]);
      (split; [(by left) || (by right)|]); (split; [done|]);
      (split; [|done]); intros Ho; try discriminate; by eexists.
  - destruct (Z.eqb_spec s1 (CS40L25_STATUS_OK P)) as [|_]; [done|]. simpl.
    destruct (CONFIG_TEST_OPEN_LOOP C D);
      try destruct (bsp_i2c_write C D x1 _ _ _ _ _) as [x3 st];
      intros H; inversion H; subst;
      (split; [split; [done | by intros [? _]]|]);
      (split; [by right|]);
      (split; [intros _ cfg r Hin;
               repeat (apply elem_of_cons in Hin as [Hin | Hin];
                       [discriminate|]);
               by apply elem_of_nil in Hin|]);
      (split; [|done]); intros Ho; try discriminate; by eexists.
Qed.

End DutFacts.

(** ** The additional properties on the scripted collaborators *)

Lemma demo_booted_tracked :
  tracked (C:=Demo.collab) Demo.live ∅
    (final_world (fst (bsp_dut_boot (Demo.platform ILP32 2048) Demo.collab 10
                         false (Demo.fresh_world Demo.two_blocks)))).
Proof.
  eapply boot_run_tracked;
    [exact demo_allocator_laws | exact demo_parser_keeps_buffers
    | apply bsp_dut_boot_run | apply demo_fresh_tracked].
Qed.

Lemma boot_ok_means_committed_witness :
  let P := Demo.platform ILP32 2048 in
  let run := bsp_dut_boot P Demo.collab 10 false
               (Demo.fresh_world Demo.two_blocks) in
  (CS40L25_STATUS_OK P = BSP_STATUS_OK /\
   FW_IMG_STATUS_FAIL P <> FW_IMG_STATUS_DATA_READY P /\
   run = (Returned BSP_STATUS_OK (final_world (fst run)), snd run)) /\
  clean P (snd run) /\
  count_events alloc_ok (snd run) = 3%nat /\
  count_events is_commit (snd run) = 1%nat /\
  last (snd run)
  = Some (Ev_boot (Some (fw_info (boot_state (final_world (fst run)))))
                  BSP_STATUS_OK) /\
  current_halo_heartbeat (final_world (fst run)) = 0.
Proof.
  intros P run.
  assert (Hok : CS40L25_STATUS_OK P = BSP_STATUS_OK) by reflexivity.
  assert (Hd : FW_IMG_STATUS_FAIL P <> FW_IMG_STATUS_DATA_READY P)
    by (vm_compute; discriminate).
  assert (Hrun : run = (Returned BSP_STATUS_OK (final_world (fst run)), snd run))
    by (vm_compute; reflexivity).
  split; [exact (conj Hok (conj Hd Hrun))|].
  exact (boot_ok_means_committed P Demo.collab 10 false
           (Demo.fresh_world Demo.two_blocks) _ _ Hok Hd Hrun).
Defined.

Lemma chunks_are_aligned_witness :
  let P := Demo.platform ILP32 2048 in
  snd (select_image P false) - fst (select_image P false) < 2 ^ 32 /\
  Forall (chunk_aligned 134283264 134285312)
         (snd (bsp_dut_boot P Demo.collab 10 false
                 (Demo.fresh_world Demo.two_blocks))).
Proof.
  intros P.
  assert (Hsize : snd (select_image P false) - fst (select_image P false) < 2 ^ 32)
    by (vm_compute; reflexivity).
  split; [exact Hsize|].
  exact (chunks_are_aligned P Demo.collab 10 false
           (Demo.fresh_world Demo.two_blocks) Hsize).
Defined.

Lemma chunks_stay_inside_image_witness :
  let P := Demo.platform ILP32 2048 in
  let tr := snd (bsp_dut_boot P Demo.collab 10 false
                   (Demo.fresh_world Demo.two_blocks)) in
  (snd (select_image P false) - fst (select_image P false) < 2 ^ 32 /\
   1024 <= snd (select_image P false) - fst (select_image P false) /\
   Forall (known_status P) tr) /\
  Forall (chunk_inside 134285312) tr.
Proof.
  intros P tr.
  assert (Hsize : snd (select_image P false) - fst (select_image P false) < 2 ^ 32)
    by (vm_compute; reflexivity).
  assert (Hbig : 1024 <= snd (select_image P false) - fst (select_image P false))
    by (vm_compute; discriminate).
  assert (Hk : Forall (known_status P) tr).
  { vm_compute. repeat (constructor; [cbn; tauto|]). constructor. }
  split; [exact (conj Hsize (conj Hbig Hk))|].
  exact (chunks_stay_inside_image P Demo.collab 10 false
           (Demo.fresh_world Demo.two_blocks) Hsize Hbig Hk).
Defined.

Lemma chunk_advances_are_bounded_witness :
  let P := Demo.platform ILP32 2048 in
  let run := bsp_dut_boot P Demo.collab 1 false
               (Demo.fresh_world Demo.two_blocks) in
  snd (select_image P false) - fst (select_image P false) < 2 ^ 32 /\
  fst run = OutOfFuel (final_world (fst run)) /\
  1024 * Z.of_nat (count_events (is_not_ready P) (snd run))
  <= Z.max 0 (2048 + 1023) /\
  1024 * Z.of_nat 1
  <= 1024 * Z.of_nat (count_events (is_ready P) (snd run))
     + Z.max 0 (2048 + 1023).
Proof.
  intros P run.
  assert (Hsize : snd (select_image P false) - fst (select_image P false) < 2 ^ 32)
    by (vm_compute; reflexivity).
  assert (Hout : fst run = OutOfFuel (final_world (fst run)))
    by (vm_compute; reflexivity).
  split; [exact Hsize|]. split; [exact Hout|].
  pose proof (chunk_advances_are_bounded P Demo.collab 1 false
                (Demo.fresh_world Demo.two_blocks) Hsize) as [H1 H2].
  exact (conj H1 (H2 _ Hout)).
Defined.

Lemma frees_are_valid_witness :
  let P := Demo.platform ILP32 2048 in
  let w := final_world (fst (bsp_dut_boot P Demo.collab 10 false
                               (Demo.fresh_world Demo.two_blocks))) in
  tracked (C:=Demo.collab) Demo.live ∅ w /\
  frees (snd (bsp_dut_boot P Demo.collab 10 true w))
  = [536870913; 536870914; 536870915] /\
  NoDup (frees (snd (bsp_dut_boot P Demo.collab 10 true w))) /\
  (forall p, p ∈ frees (snd (bsp_dut_boot P Demo.collab 10 true w)) ->
     p <> NULL /\ p ∈ Demo.live (heap w) /\ p ∉ (∅ : gset Z)).
Proof.
  intros P w.
  split; [exact demo_booted_tracked|]. split; [vm_compute; reflexivity|].
  exact (frees_are_valid P Demo.collab Demo.live ∅ 10 true w demo_booted_tracked).
Defined.

Lemma writes_read_this_attempts_buffer_witness :
  let P := Demo.platform ILP32 2048 in
  let tr := snd (bsp_dut_boot P Demo.collab 10 false
                   (Demo.fresh_world Demo.two_blocks)) in
  let e := Ev_write_block (C:=Demo.collab) 4096 536870915 8 0 in
  (e ∈ tr /\ write_source e = Some 536870915) /\
  536870915 <> NULL /\
  exists n1 p1 n2 p2 n3,
    mallocs tr = [(n1, p1); (n2, p2); (n3, 536870915)].
Proof.
  intros P tr e.
  assert (Hin : e ∈ tr).
  { assert (Heq : tr = take 7 tr ++ e :: drop 8 tr) by (vm_compute; reflexivity).
    rewrite Heq. apply elem_of_app. right. apply elem_of_cons. by left. }
  assert (Hsrc : write_source e = Some 536870915) by reflexivity.
  split; [exact (conj Hin Hsrc)|].
  exact (writes_read_this_attempts_buffer P Demo.collab 10 false
           (Demo.fresh_world Demo.two_blocks) e _ demo_parser_keeps_buffers
           Hin Hsrc).
Defined.

Lemma has_processed_failure_keeps_state_witness :
  let P := Demo.platform ILP32 2048 in
  let w := DemoDut.world DemoDut.dead 7 in
  let r := bsp_dut_has_processed P DemoDut.collab DemoDut.dut (Some true) w in
  (r = (r.1.1.1, r.1.1.2, r.1.2, r.2) /\ r.1.1.1 <> BSP_STATUS_OK) /\
  r.1.1.1 = BSP_STATUS_FAIL /\
  r.1.1.2 = Some true /\
  current_halo_heartbeat r.1.2 = 7 /\
  heap r.1.2 = heap w /\ boot_state r.1.2 = boot_state w /\
  (Some true = None -> r.2 = [] /\ r.1.2 = w).
Proof.
  intros P w r.
  assert (Hr : r = (r.1.1.1, r.1.1.2, r.1.2, r.2)) by (vm_compute; reflexivity).
  assert (Hne : r.1.1.1 <> BSP_STATUS_OK) by (vm_compute; discriminate).
  split; [exact (conj Hr Hne)|].
  exact (has_processed_failure_keeps_state P DemoDut.collab DemoDut.dut
           (Some true) w _ _ _ _ Hr Hne).
Defined.

Lemma consecutive_polls_witness :
  let P := Demo.platform ILP32 2048 in
  let w := DemoDut.world (DemoDut.healthy Demo.two_blocks) 0 in
  let r := bsp_dut_has_processed P DemoDut.collab DemoDut.dut (Some false) w in
  r.1.1.2 = Some true /\
  exists w2 evs2,
    bsp_dut_has_processed P DemoDut.collab DemoDut.dut r.1.1.2 r.1.2
    = (BSP_STATUS_OK, Some false, w2, evs2) /\
    current_halo_heartbeat w2 = 5.
Proof.
  intros P w r.
  split; [vm_compute; reflexivity|].
  assert (H1 : cs40l25_get_halo_heartbeat DemoDut.collab DemoDut.dut (ext w)
               = (fst (fst (DemoDut.get_halo_heartbeat (ext w))),
                  CS40L25_STATUS_OK P, 5))
    by (vm_compute; reflexivity).
  assert (H2 : cs40l25_get_halo_heartbeat DemoDut.collab DemoDut.dut
                 (fst (fst (DemoDut.get_halo_heartbeat (ext w))))
               = (fst (fst (DemoDut.get_halo_heartbeat
                              (fst (fst (DemoDut.get_halo_heartbeat (ext w)))))),
                  CS40L25_STATUS_OK P, 5))
    by (vm_compute; reflexivity).
  assert (Hr : r = (r.1.1.1, r.1.1.2, r.1.2, r.2)) by (vm_compute; reflexivity).
  exact (consecutive_polls P DemoDut.collab DemoDut.dut false w _ 5 _ 5
           _ _ _ _ H1 H2 Hr).
Defined.

Lemma poll_after_reset_witness :
  let P := Demo.platform ILP32 2048 in
  let w := DemoDut.world (DemoDut.healthy Demo.two_blocks) 5 in
  let r := bsp_dut_reset P DemoDut.collab DemoDut.dut w in
  r.1.1 = BSP_STATUS_OK /\
  exists w2 evs2,
    bsp_dut_has_processed P DemoDut.collab DemoDut.dut (Some false) r.1.2
    = (BSP_STATUS_OK, Some true, w2, evs2).
Proof.
  intros P w r.
  assert (Hr : r = (r.1.1, r.1.2, r.2)) by (vm_compute; reflexivity).
  assert (Hok : r.1.1 = BSP_STATUS_OK) by (vm_compute; reflexivity).
  assert (Hhb : cs40l25_get_halo_heartbeat DemoDut.collab DemoDut.dut (ext r.1.2)
                = (fst (fst (DemoDut.get_halo_heartbeat (ext r.1.2))),
                   CS40L25_STATUS_OK P, 5))
    by (vm_compute; reflexivity).
  split; [exact Hok|].
  exact (proj2 (proj2 (poll_after_reset P DemoDut.collab DemoDut.dut false w
                         _ _ _ Hr)) Hok _ 5 Hhb).
Defined.

Lemma poll_after_boot_witness :
  let P := Demo.platform ILP32 2048 in
  let w := DemoDut.world (DemoDut.healthy Demo.two_blocks) 5 in
  let run := bsp_dut_boot P DemoDut.collab 10 false w in
  count_events is_commit (snd run) = 1%nat /\
  exists w2 evs2,
    bsp_dut_has_processed P DemoDut.collab DemoDut.dut (Some false)
                          (final_world (fst run))
    = (BSP_STATUS_OK, Some true, w2, evs2).
Proof.
  intros P w run.
  assert (Hc : count_events is_commit (snd run) = 1%nat)
    by (vm_compute; reflexivity).
  assert (Hhb : cs40l25_get_halo_heartbeat DemoDut.collab DemoDut.dut
                  (ext (final_world (fst run)))
                = (fst (fst (DemoDut.get_halo_heartbeat
                               (ext (final_world (fst run))))),
                   CS40L25_STATUS_OK P, 5))
    by (vm_compute; reflexivity).
  split; [exact Hc|].
  exact (poll_after_boot P DemoDut.collab DemoDut.dut false 10 false w _ 5
           Hc Hhb).
Defined.

Lemma initialize_status_witness :
  let P := Demo.platform ILP32 2048 in
  let w := DemoDut.world DemoDut.dead 7 in
  let r := bsp_dut_initialize P DemoDut.collab DemoDut.dut w in
  r.1.1 = BSP_STATUS_FAIL /\
  r.2 = [Dv_initialize 1;
         Dv_i2c_write (BSP_LN2_DEV_ID DemoDut.collab DemoDut.dut)
                      [0; 31; 128; 3] 4 NULL NULL 1] /\
  ((r.1.1 = BSP_STATUS_OK <->
    1 = CS40L25_STATUS_OK P /\ 0 = CS40L25_STATUS_OK P) /\
   (r.1.1 = BSP_STATUS_OK \/ r.1.1 = BSP_STATUS_FAIL) /\
   (1 <> CS40L25_STATUS_OK P -> forall cfg ret, Dv_configure cfg ret ∉ r.2) /\
   (CONFIG_TEST_OPEN_LOOP DemoDut.collab DemoDut.dut = false ->
    exists st,
      last r.2 = Some (Dv_i2c_write (BSP_LN2_DEV_ID DemoDut.collab DemoDut.dut)
                                    [0; 31; 128; 3] 4 NULL NULL st)) /\
   heap r.1.2 = heap w /\ boot_state r.1.2 = boot_state w /\
   current_halo_heartbeat r.1.2 = current_halo_heartbeat w).
Proof.
  intros P w r.
  assert (H1 : cs40l25_initialize DemoDut.collab DemoDut.dut (ext w)
               = (ext w, 1)) by (vm_compute; reflexivity).
  assert (H2 : cs40l25_configure DemoDut.collab DemoDut.dut (ext w)
                 (haptic_config DemoDut.collab DemoDut.dut)
               = (ext w, 0)) by (vm_compute; reflexivity).
  assert (Hr : r = (r.1.1, r.1.2, r.2)) by (vm_compute; reflexivity).
  split; [vm_compute; reflexivity|]. split; [vm_compute; reflexivity|].
  exact (initialize_status P DemoDut.collab DemoDut.dut w _ 1 _ 0 _ _ _
           H1 H2 Hr).
Defined.

Lemma haptic_config_by_index_witness :
  let P := Demo.platform ILP32 2048 in
  0 <= 1 <= 255 /\
  (bsp_dut_update_haptic_config P Demo.collab 1 Demo.two_blocks
   = HapticOutOfBounds (C:=Demo.collab) 1 <-> 1 = 2) /\
  bsp_dut_update_haptic_config P Demo.collab 1 Demo.two_blocks
  = HapticReturned (C:=Demo.collab) BSP_STATUS_OK Demo.two_blocks.
Proof.
  intros P.
  assert (Hi : 0 <= 1 <= 255) by lia.
  split; [exact Hi|]. split; [|vm_compute; reflexivity].
  exact (proj1 (haptic_config_by_index P Demo.collab Demo.two_blocks 1 Hi)).
Defined.
